(** * Chronological playback engine of the love map

    A shallow embedding of the "time travel" playback core:
    - [client/src/components/TimeTravelMode.tsx]: the chronological sorter,
      the playback state of the component, its handlers, its effects and
      the path/camera animator;
    - [client/src/lib/ambientMusic.ts]: the ambient audio module;
    and of what surrounds it:
    - [client/src/lib/locations.ts], [storage.ts], [shareUtils.ts] and
      [types.ts]: the places of the picker, persistence in
      [localStorage], share links, the photos of a record;
    - [client/src/components/PolaroidOverlay.tsx], [MapView.tsx] and
      [AddMemoryModal.tsx]: the slideshows, the tilt of a Polaroid, the
      pins and their overlay, the form that makes a record;
    - [client/src/pages/Home.tsx]: the handlers of the page.

    Numbers that the program only moves around (timestamps in ms, indexes,
    timer ids) are integers.  [NaN] is [None].  The host (browser, React,
    Leaflet) is modelled by explicit queues of pending callbacks: each
    callback is stored as the closure the source creates, with the values
    it captured. *)

From Stdlib Require Import ZArith Lia Permutation Sorted Ascii.
From stdpp Require Import base option list gmap strings sorting.

Local Open Scope Z_scope.

(** A call either returns or throws. *)
Inductive Outcome := Returned | Threw.

(** ** 1. Records and the chronological sorter *)

Module Sorter.

(** [types.ts]: the [Memory] record.  [lat]/[lng] are carried as opaque
    numbers (micro-degrees); the sorter never reads them. *)
Record Memory := mkMemory {
  id : string;
  createdAt : Z;
  memoryDate : option string;
  locationKey : string;
  lat : Z;
  lng : Z;
  caption : string;
  imageDataUrl : string
}.

(** *** The host's [Date]

    [new Date(s).getTime()] is a function of the host; it yields [NaN] on
    a string it cannot read.  The sorter is parameterised by it.  For the
    documented format of [memoryDate] (date-only ISO form [YYYY-MM-DD],
    read as UTC midnight) [isoDate_getTime] computes the value. *)

Definition digit (c : ascii) : option Z :=
  let n := Z.of_N (N_of_ascii c) in
  if (48 <=? n) && (n <=? 57) then Some (n - 48) else None.

Fixpoint digits (acc : Z) (cs : list ascii) : option Z :=
  match cs with
  | [] => Some acc
  | c :: cs' => d ← digit c; digits (10 * acc + d) cs'
  end.

Definition isLeap (y : Z) : bool :=
  ((y mod 4 =? 0) && negb (y mod 100 =? 0)) || (y mod 400 =? 0).

Definition daysInMonth (y m : Z) : Z :=
  if m =? 2 then (if isLeap y then 29 else 28)
  else if (m =? 4) || (m =? 6) || (m =? 9) || (m =? 11) then 30
  else 31.

(** Days between 1970-01-01 and the civil date [y]-[m]-[d]. *)
Definition daysFromCivil (y m d : Z) : Z :=
  let y' := if m <=? 2 then y - 1 else y in
  let era := y' / 400 in
  let yoe := y' - era * 400 in
  let mp := if 2 <? m then m - 3 else m + 9 in
  let doy := (153 * mp + 2) / 5 + d - 1 in
  let doe := yoe * 365 + yoe / 4 - yoe / 100 + doy in
  era * 146097 + doe - 719468.

Definition msPerDay : Z := 86400000.

Definition isoDate_getTime (s : string) : option Z :=
  match String.list_ascii_of_string s with
  | [y1; y2; y3; y4; s1; m1; m2; s2; d1; d2] =>
      if Ascii.eqb s1 "-"%char && Ascii.eqb s2 "-"%char then
        y ← digits 0 [y1; y2; y3; y4];
        m ← digits 0 [m1; m2];
        d ← digits 0 [d1; d2];
        if (1 <=? m) && (m <=? 12) && (1 <=? d) && (d <=? daysInMonth y m)
        then Some (daysFromCivil y m d * msPerDay)
        else None
      else None
  | _ => None
  end.

(** *** [Array.prototype.sort]

    The language standard fixes the result for a consistent comparator:
    the stable ordering.  The model is the stable insertion sort; a
    comparator result of [NaN] counts as [+0], as in [SortCompare]. *)
Section ArraySort.
Context {A : Type} (comparefn : A → A → option Z).

Definition SortCompare (x y : A) : Z := default 0 (comparefn x y).

Fixpoint sortInsert (x : A) (l : list A) : list A :=
  match l with
  | [] => [x]
  | y :: l' => if 0 <? SortCompare x y then y :: sortInsert x l' else x :: l
  end.

Definition Array_sort (l : list A) : list A := foldr sortInsert [] l.
End ArraySort.

Section Chronological.
Variable Date_getTime : string → option Z.

(** JavaScript truthiness of [a.memoryDate]: [undefined] and the empty
    string are falsy. *)
Definition truthy (o : option string) : bool :=
  match o with
  | Some s => negb (String.eqb s "")
  | None => false
  end.

(** [a.memoryDate ? new Date(a.memoryDate).getTime() : a.createdAt] *)
Definition effectiveTimestamp (a : Memory) : option Z :=
  if truthy (memoryDate a)
  then Date_getTime (default ""%string (memoryDate a))
  else Some (createdAt a).

(** The comparator [(a, b) => dateA - dateB]. *)
Definition byDate (a b : Memory) : option Z :=
  dateA ← effectiveTimestamp a;
  dateB ← effectiveTimestamp b;
  Some (dateA - dateB).

(** [sortChronologically] on the contents of the array. *)
Definition sortChronologically (memories : list Memory) : list Memory :=
  Array_sort byDate memories.

(** [a] is not after [b]: both timestamps resolve and are in order. *)
Definition notAfter (a b : Memory) : Prop :=
  ∃ ta tb, effectiveTimestamp a = Some ta ∧ effectiveTimestamp b = Some tb
           ∧ ta ≤ tb.

(** *** The same function on references

    Arrays are objects: [[...memories]] allocates a new array with the
    same elements and [sort] reorders the array it is called on and
    returns that same reference. *)
Definition spread (src : nat) (h : gmap nat (list Memory))
  : option (nat * gmap nat (list Memory)) :=
  ms ← h !! src;
  let copy := fresh (dom h) in
  Some (copy, <[copy := ms]> h).

Definition sortInPlace (arr : nat) (h : gmap nat (list Memory))
  : option (nat * gmap nat (list Memory)) :=
  ms ← h !! arr;
  Some (arr, <[arr := Array_sort byDate ms]> h).

Definition sortChronologically_mem (memories : nat) (h : gmap nat (list Memory))
  : option (nat * gmap nat (list Memory)) :=
  '(copy, h1) ← spread memories h;
  sortInPlace copy h1.
End Chronological.

(** The three records of the scenario. *)
Definition recJan : Memory :=
  mkMemory "a" 30 (Some "2024-01-01"%string) "marina-bay" 1283000 103860000 "" "".
Definition recJun : Memory :=
  mkMemory "b" 20 (Some "2024-06-15"%string) "sentosa" 1249000 103830000 "" "".
Definition recDec : Memory :=
  mkMemory "c" 10 (Some "2023-12-25"%string) "orchard" 1304000 103832000 "" "".

End Sorter.


(** ** 2. The ambient audio module ([ambientMusic.ts]) *)

Module Audio.

(** What the audio graph is told to do, in order.  Durations in ms. *)
Inductive Action :=
| FadeIn (ctx : positive) (ms : Z)
| FadeOut (ctx : positive) (ms : Z)
| ScheduleChords (ctx : positive) (mergeNodeOf : positive) (startTime : Z)
| CloseContext (ctx : positive).

Definition CHORD_COUNT : Z := 8.
Definition CHORD_DURATION : Z := 3000.
Definition loopDuration : Z := CHORD_COUNT * CHORD_DURATION.
Definition FADE_IN : Z := 2000.
Definition FADE_OUT : Z := 1500.
Definition TEARDOWN_DELAY : Z := 2000.

(** The closure passed to [setInterval] in [startMusic]: it captures the
    [mergeNode] of the context it was created for and the local
    [nextStart]. *)
Record Scheduler := mkScheduler {
  mergeNodeOf : positive;
  nextStart : Z
}.

(** The four module-level variables, followed by the host resources the
    module creates: contexts ([true] once closed), the callbacks given to
    [setInterval] and to [setTimeout], and the actions issued so far.
    [canConstruct] says whether the host lets [new AudioContext()]
    succeed.  Handles are positive, as timer ids are, so a handle held
    in a variable is truthy.  The module's timers are kept apart from
    the component's: the source only ever clears an id with the clear
    function of the call that made it.  Audio times are in ms on the
    clock of the context, which starts at 0. *)
Record State := mkState {
  audioCtx : option positive;
  masterGain : option positive;
  isPlaying : bool;
  schedulerTimer : option positive;
  canConstruct : bool;
  nextHandle : positive;
  contexts : gmap positive bool;
  intervals : gmap positive Scheduler;
  teardowns : gmap positive positive;
  actions : list Action
}.

Definition initial (allowed : bool) : State :=
  mkState None None false None allowed 1%positive ∅ ∅ ∅ [].

(** [export function startMusic(): void] *)
Definition startMusic (a : State) : Outcome * State :=
  if isPlaying a then (Returned, a)
  else if negb (canConstruct a) then (Threw, a)
  else
    let ctx := nextHandle a in
    let timer := Pos.succ ctx in
    (Returned,
     mkState (Some ctx) (Some ctx) true (Some timer)
       (canConstruct a) (Pos.succ timer)
       (<[ctx := false]> (contexts a))
       (<[timer := mkScheduler ctx 500]> (intervals a))
       (teardowns a)
       (actions a ++ [FadeIn ctx FADE_IN; ScheduleChords ctx ctx 500])).

(** [export function stopMusic(): void] *)
Definition stopMusic (a : State) : State :=
  match isPlaying a, audioCtx a, masterGain a with
  | true, Some ctx, Some gain =>
      let t := nextHandle a in
      mkState None None false (schedulerTimer a)
        (canConstruct a) (Pos.succ t)
        (contexts a) (intervals a)
        (<[t := ctx]> (teardowns a))
        (actions a ++ [FadeOut gain FADE_OUT])
  | _, _, _ => a
  end.

(** [export function isMusicPlaying(): boolean] *)
Definition isMusicPlaying (a : State) : bool := isPlaying a.

(** The callback of [stopMusic]'s [setTimeout(…, 2000)], with its
    captured [ctx]. *)
Definition teardown (ctx : positive) (a : State) : State :=
  let cleared :=
    match schedulerTimer a with
    | Some iv => (delete iv (intervals a), None)
    | None => (intervals a, schedulerTimer a)
    end in
  mkState (audioCtx a) (masterGain a) (isPlaying a) cleared.2
    (canConstruct a) (nextHandle a)
    (<[ctx := true]> (contexts a)) cleared.1 (teardowns a)
    (actions a ++ [CloseContext ctx]).

(** The callback of [startMusic]'s [setInterval]. *)
Definition schedulerTick (iv : positive) (cb : Scheduler) (a : State) : State :=
  match audioCtx a with
  | Some ctx =>
      if isPlaying a then
        let ns := nextStart cb + loopDuration in
        mkState (audioCtx a) (masterGain a) (isPlaying a) (schedulerTimer a)
          (canConstruct a) (nextHandle a) (contexts a)
          (<[iv := mkScheduler (mergeNodeOf cb) ns]> (intervals a))
          (teardowns a)
          (actions a ++ [ScheduleChords ctx (mergeNodeOf cb) ns])
      else a
  | None => a
  end.

(** The host runs a pending timer callback. *)
Inductive Event :=
| TeardownFires (t : positive)
| IntervalFires (iv : positive).

Definition dropTeardown (t : positive) (a : State) : State :=
  mkState (audioCtx a) (masterGain a) (isPlaying a) (schedulerTimer a)
    (canConstruct a) (nextHandle a) (contexts a) (intervals a)
    (delete t (teardowns a)) (actions a).

Definition step (e : Event) (a : State) : State :=
  match e with
  | TeardownFires t =>
      match teardowns a !! t with
      | Some ctx => teardown ctx (dropTeardown t a)
      | None => a
      end
  | IntervalFires iv =>
      match intervals a !! iv with
      | Some cb => schedulerTick iv cb a
      | None => a
      end
  end.

(** The calls and host events the module can see. *)
Inductive Op := Start | Stop | Host (e : Event).

Definition apply (o : Op) (a : State) : State :=
  match o with
  | Start => (startMusic a).2
  | Stop => stopMusic a
  | Host e => step e a
  end.

Definition run (ops : list Op) (a : State) : State := foldl (λ a o, apply o a) a ops.

(** What holds of the module whenever control is outside it: no context
    is kept while not playing, context and master gain are there while
    playing, every open context is the current one or waits for its
    teardown, and pending teardowns have handles the host already gave
    out. *)
Definition consistent (a : State) : Prop :=
  (isPlaying a = false → audioCtx a = None)
  ∧ (isPlaying a = true → is_Some (audioCtx a) ∧ is_Some (masterGain a))
  ∧ (∀ c, contexts a !! c = Some false →
          audioCtx a = Some c ∨ ∃ t, teardowns a !! t = Some c)
  ∧ (∀ t, is_Some (teardowns a !! t) → (t < nextHandle a)%positive).

(** The audio sessions that exist: the contexts created and not closed
    yet.  A context that [stopMusic] handed to its delayed teardown
    stays one of them, fading, until that teardown closes it. *)
Definition openContexts (a : State) : list positive :=
  filter (λ c, contexts a !! c = Some false) (map_to_list (contexts a)).*1.

(** The contexts the pending teardowns will close. *)
Definition fading (a : State) : list positive := (map_to_list (teardowns a)).*2.

End Audio.

(** ** 3. The playback component ([TimeTravelMode.tsx]) *)

Module Playback.
Import Sorter.

Definition TRAVEL_ZOOM : Z := 15.
Definition ANIM_DURATION : Z := 5000.

(** The five [useState] cells of [TimeTravelMode]. *)
Record PlaybackState := mkPlayback {
  currentIndex : Z;
  isAutoPlaying : bool;
  musicEnabled : bool;
  isStarted : bool;
  isTransitioning : bool
}.

Definition initialState : PlaybackState := mkPlayback (-1) true true false false.

Definition setCurrentIndex (v : Z) (s : PlaybackState) : PlaybackState :=
  mkPlayback v (isAutoPlaying s) (musicEnabled s) (isStarted s) (isTransitioning s).
Definition setIsAutoPlaying (v : bool) (s : PlaybackState) : PlaybackState :=
  mkPlayback (currentIndex s) v (musicEnabled s) (isStarted s) (isTransitioning s).
Definition setMusicEnabled (v : bool) (s : PlaybackState) : PlaybackState :=
  mkPlayback (currentIndex s) (isAutoPlaying s) v (isStarted s) (isTransitioning s).
Definition setIsStarted (v : bool) (s : PlaybackState) : PlaybackState :=
  mkPlayback (currentIndex s) (isAutoPlaying s) (musicEnabled s) v (isTransitioning s).
Definition setIsTransitioning (v : bool) (s : PlaybackState) : PlaybackState :=
  mkPlayback (currentIndex s) (isAutoPlaying s) (musicEnabled s) (isStarted s) v.

(** *** Handlers, as functions of the state

    A handler is a closure over the values of the render that created it.
    [goNext_closure] takes the captured values apart from the state the
    setters act on; for a handler of the current render they coincide. *)

(** [goNext], lines 644-651. *)
Definition goNext_closure (idx len : Z) (transitioning : bool)
    (s : PlaybackState) : PlaybackState :=
  if transitioning then s
  else if idx <? len - 1 then setIsTransitioning true s
  else s.

Definition goNext (len : Z) (s : PlaybackState) : PlaybackState :=
  goNext_closure (currentIndex s) len (isTransitioning s) s.

(** [handleTransitionComplete], lines 612-616:
    [setIsTransitioning(false); setCurrentIndex(prev => prev + 1)]. *)
Definition handleTransitionComplete (s : PlaybackState) : PlaybackState :=
  setCurrentIndex (currentIndex s + 1) (setIsTransitioning false s).

(** The state part of [startJourney], lines 622-628. *)
Definition startJourney_state (s : PlaybackState) : PlaybackState :=
  setCurrentIndex 0 (setIsStarted true s).

(** The callback of the autoplay effect's timer, lines 667-674, with the
    [currentIndex], [sortedMemories.length] and [goNext] it captured. *)
Definition autoplayFire (idx len : Z) (transitioning : bool)
    (s : PlaybackState) : PlaybackState :=
  if idx <? len - 1 then goNext_closure idx len transitioning s
  else setIsAutoPlaying false s.

(** *** The component in its host *)

(** What the collaborators are told: camera commands, the completion
    signal, the exit signal, an error nobody caught. *)
Inductive Obs :=
| CameraFlyTo (lat lng zoom duration : Z)
| CameraTick (session : positive) (rawT : Z)
| TransitionComplete (session : positive)
| ExitSignal
| UncaughtError.

(** Callbacks the component hands to [setTimeout]. *)
Inductive TimeoutCb :=
| AutoplayTick (idx len : Z) (transitioning : bool)
| TravelPause (session : positive).

(** One run of the transition branch of the path effect: the [from] and
    [to] it read and the [startTime] local its [animate] closure owns. *)
Record Session := mkSession {
  fromMemory : Memory;
  toMemory : Memory;
  startTime : option Z
}.

(** Props ([sortedMemories] is the memoised sort of [memories]; [hasMap]
    is [mapInstance !== null]), state, refs, whether the last run of the
    autoplay effect returned a cleanup, and the host's queues: pending
    timeouts, pending animation-frame callbacks (each the [animate] of a
    session), the [moveend] listeners in registration order. *)
Record World := mkWorld {
  hostDate : string → option Z;
  sortedMemories : list Memory;
  hasMap : bool;
  mounted : bool;
  st : PlaybackState;
  autoPlayTimerRef : option positive;
  cancelRef : bool;
  rafRef : option positive;
  autoCleanup : bool;
  nextId : positive;
  timeouts : gmap positive TimeoutCb;
  rafs : gmap positive positive;
  moveend : list positive;
  sessions : gmap positive Session;
  audio : Audio.State;
  trace : list Obs
}.

Definition set_sortedMemories (v : list Memory) (w : World) : World :=
  mkWorld (hostDate w) v (hasMap w) (mounted w) (st w) (autoPlayTimerRef w)
    (cancelRef w) (rafRef w) (autoCleanup w) (nextId w) (timeouts w)
    (rafs w) (moveend w) (sessions w) (audio w) (trace w).

Definition set_mounted (v : bool) (w : World) : World :=
  mkWorld (hostDate w) (sortedMemories w) (hasMap w) v (st w)
    (autoPlayTimerRef w) (cancelRef w) (rafRef w) (autoCleanup w) (nextId w)
    (timeouts w) (rafs w) (moveend w) (sessions w) (audio w) (trace w).

Definition set_st (v : PlaybackState) (w : World) : World :=
  mkWorld (hostDate w) (sortedMemories w) (hasMap w) (mounted w) v
    (autoPlayTimerRef w) (cancelRef w) (rafRef w) (autoCleanup w) (nextId w)
    (timeouts w) (rafs w) (moveend w) (sessions w) (audio w) (trace w).

Definition set_autoPlayTimerRef (v : option positive) (w : World) : World :=
  mkWorld (hostDate w) (sortedMemories w) (hasMap w) (mounted w) (st w) v
    (cancelRef w) (rafRef w) (autoCleanup w) (nextId w) (timeouts w)
    (rafs w) (moveend w) (sessions w) (audio w) (trace w).

Definition set_cancelRef (v : bool) (w : World) : World :=
  mkWorld (hostDate w) (sortedMemories w) (hasMap w) (mounted w) (st w)
    (autoPlayTimerRef w) v (rafRef w) (autoCleanup w) (nextId w)
    (timeouts w) (rafs w) (moveend w) (sessions w) (audio w) (trace w).

Definition set_rafRef (v : option positive) (w : World) : World :=
  mkWorld (hostDate w) (sortedMemories w) (hasMap w) (mounted w) (st w)
    (autoPlayTimerRef w) (cancelRef w) v (autoCleanup w) (nextId w)
    (timeouts w) (rafs w) (moveend w) (sessions w) (audio w) (trace w).

Definition set_autoCleanup (v : bool) (w : World) : World :=
  mkWorld (hostDate w) (sortedMemories w) (hasMap w) (mounted w) (st w)
    (autoPlayTimerRef w) (cancelRef w) (rafRef w) v (nextId w) (timeouts w)
    (rafs w) (moveend w) (sessions w) (audio w) (trace w).

Definition set_nextId (v : positive) (w : World) : World :=
  mkWorld (hostDate w) (sortedMemories w) (hasMap w) (mounted w) (st w)
    (autoPlayTimerRef w) (cancelRef w) (rafRef w) (autoCleanup w) v
    (timeouts w) (rafs w) (moveend w) (sessions w) (audio w) (trace w).

Definition set_timeouts (v : gmap positive TimeoutCb) (w : World) : World :=
  mkWorld (hostDate w) (sortedMemories w) (hasMap w) (mounted w) (st w)
    (autoPlayTimerRef w) (cancelRef w) (rafRef w) (autoCleanup w) (nextId w)
    v (rafs w) (moveend w) (sessions w) (audio w) (trace w).

Definition set_rafs (v : gmap positive positive) (w : World) : World :=
  mkWorld (hostDate w) (sortedMemories w) (hasMap w) (mounted w) (st w)
    (autoPlayTimerRef w) (cancelRef w) (rafRef w) (autoCleanup w) (nextId w)
    (timeouts w) v (moveend w) (sessions w) (audio w) (trace w).

Definition set_moveend (v : list positive) (w : World) : World :=
  mkWorld (hostDate w) (sortedMemories w) (hasMap w) (mounted w) (st w)
    (autoPlayTimerRef w) (cancelRef w) (rafRef w) (autoCleanup w) (nextId w)
    (timeouts w) (rafs w) v (sessions w) (audio w) (trace w).

Definition set_sessions (v : gmap positive Session) (w : World) : World :=
  mkWorld (hostDate w) (sortedMemories w) (hasMap w) (mounted w) (st w)
    (autoPlayTimerRef w) (cancelRef w) (rafRef w) (autoCleanup w) (nextId w)
    (timeouts w) (rafs w) (moveend w) v (audio w) (trace w).

Definition set_audio (v : Audio.State) (w : World) : World :=
  mkWorld (hostDate w) (sortedMemories w) (hasMap w) (mounted w) (st w)
    (autoPlayTimerRef w) (cancelRef w) (rafRef w) (autoCleanup w) (nextId w)
    (timeouts w) (rafs w) (moveend w) (sessions w) v (trace w).

Definition set_trace (v : list Obs) (w : World) : World :=
  mkWorld (hostDate w) (sortedMemories w) (hasMap w) (mounted w) (st w)
    (autoPlayTimerRef w) (cancelRef w) (rafRef w) (autoCleanup w) (nextId w)
    (timeouts w) (rafs w) (moveend w) (sessions w) (audio w) v.

Definition emit (o : Obs) (w : World) : World := set_trace (trace w ++ [o]) w.

Definition freshId (w : World) : positive * World :=
  (nextId w, set_nextId (Pos.succ (nextId w)) w).

(** A state setter; React drops updates of an unmounted component. *)
Definition update (f : PlaybackState → PlaybackState) (w : World) : World :=
  if mounted w then set_st (f (st w)) w else w.

Definition len (w : World) : Z := Z.of_nat (length (sortedMemories w)).

(** [sortedMemories[i]]: [undefined] outside the array. *)
Definition at_index {A} (l : list A) (i : Z) : option A :=
  if i <? 0 then None else l !! Z.to_nat i.

(** [flyToMemory], lines 631-641. *)
Definition flyToMemory (index : Z) (w : World) : World :=
  if negb (hasMap w) || (index <? 0) || (len w <=? index) then w
  else match at_index (sortedMemories w) index with
       | Some m => emit (CameraFlyTo (lat m) (lng m) TRAVEL_ZOOM 2000) w
       | None => w
       end.

(** *** Effects *)

(** [cleanupLayers], lines 108-116; of the layers only the pending
    animation frame matters here. *)
Definition cleanupLayers (w : World) : World :=
  match rafRef w with
  | Some r => set_rafRef None (set_rafs (delete r (rafs w)) w)
  | None => w
  end.

(** The cleanup returned by the path effect, lines 276-279. *)
Definition pathCleanup (w : World) : World :=
  cleanupLayers (set_cancelRef true w).

(** The path effect, lines 118-280.  It throws when it reads [lat] of
    [undefined]; what it did before stays done. *)
Definition pathEffect (w : World) : Outcome * World :=
  if negb (hasMap w) then (Returned, w)
  else
    let w1 := cleanupLayers (set_cancelRef false w) in
    if isTransitioning (st w1) && (currentIndex (st w1) <? len w1 - 1) then
      match at_index (sortedMemories w1) (currentIndex (st w1)),
            at_index (sortedMemories w1) (currentIndex (st w1) + 1) with
      | Some from, Some to =>
          let '(sid, w2) := freshId w1 in
          let w3 := set_sessions (<[sid := mkSession from to None]> (sessions w2)) w2 in
          let w4 := emit (CameraFlyTo (lat from) (lng from) TRAVEL_ZOOM 1200) w3 in
          (Returned, set_moveend (moveend w4 ++ [sid]) w4)
      | _, _ => (Threw, w1)
      end
    else (Returned, w1).

(** The cleanup returned by the autoplay effect, lines 676-678. *)
Definition autoplayCleanup (w : World) : World :=
  match autoPlayTimerRef w with
  | Some t => set_timeouts (delete t (timeouts w)) w
  | None => w
  end.

(** The autoplay effect, lines 664-679. *)
Definition autoplayEffect (w : World) : World :=
  let s := st w in
  if negb (isStarted s) || negb (isAutoPlaying s) || (currentIndex s <? 0)
     || isTransitioning s
  then set_autoCleanup false w
  else
    let '(t, w1) := freshId w in
    let cb := AutoplayTick (currentIndex s) (len w) (isTransitioning s) in
    set_autoCleanup true
      (set_autoPlayTimerRef (Some t) (set_timeouts (<[t := cb]> (timeouts w1)) w1)).

(** The effect of lines 682-686. *)
Definition flyFirstEffect (w : World) : World :=
  if isStarted (st w) && (currentIndex (st w) =? 0) then flyToMemory 0 w else w.

(** Unmounting runs the cleanups that exist. *)
Definition unmount (w : World) : World :=
  let w1 := if hasMap w then pathCleanup w else w in
  let w2 := if autoCleanup w1 then autoplayCleanup w1 else w1 in
  set_mounted false w2.

(** An effect that throws takes the component down. *)
Definition crash (w : World) : World :=
  let w1 := if autoCleanup w then autoplayCleanup w else w in
  set_mounted false (emit UncaughtError w1).

Definition sameDeps_path (memChanged : bool) (p s : PlaybackState) : bool :=
  negb memChanged && (currentIndex p =? currentIndex s)
  && eqb (isTransitioning p) (isTransitioning s).

Definition sameDeps_autoplay (pl l : Z) (p s : PlaybackState) : bool :=
  eqb (isStarted p) (isStarted s) && eqb (isAutoPlaying p) (isAutoPlaying s)
  && (currentIndex p =? currentIndex s) && (pl =? l)
  && eqb (isTransitioning p) (isTransitioning s).

Definition sameDeps_flyFirst (memChanged : bool) (p s : PlaybackState) : bool :=
  negb memChanged && eqb (isStarted p) (isStarted s)
  && (currentIndex p =? currentIndex s).

(** React's commit after a render: for every effect whose dependencies
    differ from those of the previous render ([p], [pl], and
    [memChanged] for the identity of [sortedMemories]), first the
    cleanups, then the bodies, in the order of the hooks.  The commit is
    taken as one step: the host runs no other callback between a state
    update and the effects that follow it. *)
Definition commit (memChanged : bool) (p : PlaybackState) (pl : Z)
    (w : World) : World :=
  if negb (mounted w) then w
  else
    let s := st w in
    let pathSame := sameDeps_path memChanged p s in
    let autoSame := sameDeps_autoplay pl (len w) p s in
    let flySame := sameDeps_flyFirst memChanged p s in
    let w1 := if negb pathSame && hasMap w then pathCleanup w else w in
    let w2 := if negb autoSame && autoCleanup w1 then autoplayCleanup w1 else w1 in
    match (if pathSame then (Returned, w2) else pathEffect w2) with
    | (Threw, w3) => crash w3
    | (Returned, w3) =>
        let w4 := if autoSame then w3 else autoplayEffect w3 in
        if flySame then w4 else flyFirstEffect w4
    end.

(** A handler runs, then React commits. *)
Definition handle (h : World → World) (w : World) : World :=
  commit false (st w) (len w) (h w).

(** *** Handlers in the host *)

(** [startJourney], lines 622-628. *)
Definition startJourney (w : World) : World :=
  let w1 := update startJourney_state w in
  if musicEnabled (st w) then
    match Audio.startMusic (audio w1) with
    | (Returned, a) => set_audio a w1
    | (Threw, a) => emit UncaughtError (set_audio a w1)
    end
  else w1.

(** [goPrev], lines 654-661. *)
Definition goPrev (w : World) : World :=
  if isTransitioning (st w) then w
  else if 0 <? currentIndex (st w) then
    let prev := currentIndex (st w) - 1 in
    flyToMemory prev (update (setCurrentIndex prev) w)
  else w.

(** The inline handler of the skip button, lines 967-973. *)
Definition skipToEnd (w : World) : World :=
  if isTransitioning (st w) then w
  else
    let last := len w - 1 in
    update (setIsAutoPlaying false)
      (flyToMemory last (update (setCurrentIndex last) w)).

(** The inline handler of the play/pause button, line 934. *)
Definition toggleAutoplay (w : World) : World :=
  update (setIsAutoPlaying (negb (isAutoPlaying (st w)))) w.

(** [toggleMusic], lines 689-697. *)
Definition toggleMusic (w : World) : World :=
  if Audio.isMusicPlaying (audio w) then
    update (setMusicEnabled false) (set_audio (Audio.stopMusic (audio w)) w)
  else
    match Audio.startMusic (audio w) with
    | (Returned, a) => update (setMusicEnabled true) (set_audio a w)
    | (Threw, a) => emit UncaughtError (set_audio a w)
    end.

(** [handleExit], lines 700-708. *)
Definition handleExit (w : World) : World :=
  let w1 := set_audio (Audio.stopMusic (audio w)) w in
  let w2 := match autoPlayTimerRef w1 with
            | Some t => set_timeouts (delete t (timeouts w1)) w1
            | None => w1
            end in
  let w3 := if hasMap w2 then emit (CameraFlyTo 1352100 103819800 12 1500) w2 else w2 in
  emit ExitSignal w3.

(** *** The animator's callbacks *)

(** [animate], lines 202-239.  [rawT] is kept multiplied by
    [ANIM_DURATION]: [rawT < 1] reads [rawT <? ANIM_DURATION]. *)
Definition animate (sid : positive) (now : Z) (w : World) : World :=
  if cancelRef w then w
  else match sessions w !! sid with
       | None => w
       | Some ss =>
           let start := default now (startTime ss) in
           let elapsed := now - start in
           let rawT := Z.min elapsed ANIM_DURATION in
           let w1 := set_sessions
                       (<[sid := mkSession (fromMemory ss) (toMemory ss) (Some start)]>
                          (sessions w)) w in
           let w2 := emit (CameraTick sid rawT) w1 in
           if rawT <? ANIM_DURATION then
             let '(r, w3) := freshId w2 in
             set_rafRef (Some r) (set_rafs (<[r := sid]> (rafs w3)) w3)
           else
             handle (λ w, update handleTransitionComplete
                            (emit (TransitionComplete sid) w)) w2
       end.

(** The callback of the 400 ms pause, lines 252-256. *)
Definition travelPause (sid : positive) (w : World) : World :=
  if cancelRef w then w
  else let '(r, w1) := freshId w in
       set_rafRef (Some r) (set_rafs (<[r := sid]> (rafs w1)) w1).

(** [onFlyEnd], lines 248-258. *)
Definition onFlyEnd (sid : positive) (w : World) : World :=
  let w1 := set_moveend (filter (λ x, x ≠ sid) (moveend w)) w in
  if cancelRef w1 then w1
  else let '(t, w2) := freshId w1 in
       set_timeouts (<[t := TravelPause sid]> (timeouts w2)) w2.

(** *** Events *)

Inductive Control :=
| StartButton | BackLink | PrevButton | PlayPauseButton | NextButton
| MusicButton | SkipButton | CloseButton.

Inductive KeyName := Escape | ArrowRight | Space | ArrowLeft | OtherKey.

Inductive Event :=
| Click (c : Control)
| KeyDown (k : KeyName)
| TimeoutFires (t : positive)
| AnimationFrame (now : Z)
| MoveEnd
| AudioTimer (e : Audio.Event)
| NewMemories (ms : list Memory)
| Unmount.

(** Which controls the render offers, lines 727-1000: nothing for an
    empty timeline, the intro screen before the start, the control bar
    after it, with the [disabled] attributes. *)
Definition offered (c : Control) (w : World) : bool :=
  let s := st w in
  mounted w && negb (len w =? 0) &&
  match c with
  | StartButton | BackLink => negb (isStarted s)
  | PrevButton =>
      isStarted s && (0 <=? currentIndex s)
      && negb ((currentIndex s <=? 0) || isTransitioning s)
  | NextButton =>
      isStarted s && (0 <=? currentIndex s)
      && negb ((len w - 1 <=? currentIndex s) || isTransitioning s)
  | SkipButton =>
      isStarted s && (0 <=? currentIndex s) && negb (isTransitioning s)
  | PlayPauseButton | MusicButton | CloseButton =>
      isStarted s && (0 <=? currentIndex s)
  end.

Definition onClick (c : Control) : World → World :=
  match c with
  | StartButton => startJourney
  | BackLink | CloseButton => handleExit
  | PrevButton => goPrev
  | PlayPauseButton => toggleAutoplay
  | NextButton => λ w, update (goNext (len w)) w
  | MusicButton => toggleMusic
  | SkipButton => skipToEnd
  end.

(** The [keydown] listener, lines 711-725. *)
Definition onKeyDown (k : KeyName) (w : World) : World :=
  match k with
  | Escape => handleExit w
  | ArrowRight | Space => update (goNext (len w)) w
  | ArrowLeft => goPrev w
  | OtherKey => w
  end.

(** One animation frame: the callbacks pending when the frame starts run
    in the order of their registration, unless cancelled meanwhile. *)
Definition runFrame (now : Z) (w : World) : World :=
  foldl (λ w r, match rafs w !! r with
                | Some sid => animate sid now (set_rafs (delete r (rafs w)) w)
                | None => w
                end)
        w (merge_sort Pos.le (map_to_list (rafs w)).*1).

(** The map's [moveend]: every registered listener runs.  The map fires
    it when a movement ends (a flight arrives, a view is set, a drag
    stops); the model lets it happen between any two callbacks. *)
Definition fireMoveEnd (w : World) : World :=
  foldl (λ w sid, if bool_decide (sid ∈ moveend w) then onFlyEnd sid w else w)
        w (moveend w).

Definition fireTimeout (t : positive) (w : World) : World :=
  match timeouts w !! t with
  | None => w
  | Some cb =>
      let w1 := set_timeouts (delete t (timeouts w)) w in
      match cb with
      | AutoplayTick idx l tr => handle (update (autoplayFire idx l tr)) w1
      | TravelPause sid => travelPause sid w1
      end
  end.

Definition step (e : Event) (w : World) : World :=
  match e with
  | Click c => if offered c w then handle (onClick c) w else w
  | KeyDown k => if mounted w then handle (onKeyDown k) w else w
  | TimeoutFires t => fireTimeout t w
  | AnimationFrame now => runFrame now w
  | MoveEnd => fireMoveEnd w
  | AudioTimer e => set_audio (Audio.step e (audio w)) w
  | NewMemories ms =>
      if mounted w then
        commit true (st w) (len w)
          (set_sortedMemories (sortChronologically (hostDate w) ms) w)
      else w
  | Unmount => if mounted w then unmount w else w
  end.

Definition run (es : list Event) (w : World) : World := foldl (λ w e, step e w) w es.

(** Mounting: the first render and the first run of every effect. *)
Definition mount (date : string → option Z) (memories : list Memory)
    (map : bool) (a : Audio.State) : World :=
  let w0 := mkWorld date (sortChronologically date memories) map true
              initialState None false None false 1%positive ∅ ∅ [] ∅ a [] in
  match pathEffect w0 with
  | (Threw, w1) => crash w1
  | (Returned, w1) => flyFirstEffect (autoplayEffect w1)
  end.


(** *** Invariants of the event loop *)

(** What the autoplay effect depends on. *)
Definition scheduleInputs (w : World) : bool * bool * Z * Z * bool :=
  (isStarted (st w), isAutoPlaying (st w), currentIndex (st w), len w,
   isTransitioning (st w)).

(** [w'] comes after [w]: the host gave out more ids, and a pending
    timeout of [w'] was pending in [w] with the same callback or got an
    id [w] had not given out yet. *)
Definition grows (w w' : World) : Prop :=
  (nextId w ≤ nextId w')%positive
  ∧ ∀ t cb, timeouts w' !! t = Some cb →
            timeouts w !! t = Some cb ∨ (nextId w ≤ t < nextId w')%positive.

(** [w'] comes after [w] by code that neither schedules an autoplay
    timer nor touches the bookkeeping of the autoplay effect. *)
Definition quiet (w w' : World) : Prop :=
  grows w w'
  ∧ mounted w' = mounted w
  ∧ autoCleanup w' = autoCleanup w
  ∧ autoPlayTimerRef w' = autoPlayTimerRef w
  ∧ ∀ t i l tr, timeouts w' !! t = Some (AutoplayTick i l tr) →
                timeouts w !! t = Some (AutoplayTick i l tr).

(** The pending autoplay timers of [w] are those the autoplay effect
    scheduled in a render with state [p] and a timeline of [pl] records:
    there is at most one, the ref holds its id, its cleanup is
    registered, and it captured [p] and [pl] while the guard of the
    effect let it through. *)
Definition scheduledFor (p : PlaybackState) (pl : Z) (w : World) : Prop :=
  (∀ t, is_Some (timeouts w !! t) → (t < nextId w)%positive)
  ∧ ∀ t i l tr, timeouts w !! t = Some (AutoplayTick i l tr) →
      mounted w = true ∧ autoCleanup w = true ∧ autoPlayTimerRef w = Some t
      ∧ i = currentIndex p ∧ l = pl ∧ tr = false
      ∧ isStarted p = true ∧ isAutoPlaying p = true
      ∧ isTransitioning p = false ∧ 0 ≤ currentIndex p.

(** [w'] shows the same render as [w]: same props, same state. *)
Definition sameRender (w w' : World) : Prop :=
  st w' = st w ∧ sortedMemories w' = sortedMemories w
  ∧ hasMap w' = hasMap w ∧ hostDate w' = hostDate w.

Definition noAutoplayTimer (w : World) : Prop :=
  ∀ t i l tr, timeouts w !! t ≠ Some (AutoplayTick i l tr).

Definition idsGivenOut (w : World) : Prop :=
  ∀ t, is_Some (timeouts w !! t) → (t < nextId w)%positive.

(** No pending autoplay timer is stale. *)
Definition timersCurrent (w : World) : Prop := scheduledFor (st w) (len w) w.

(** *** The phases of one segment *)

(** The sessions whose completion signal was delivered, in order. *)
Definition completions (tr : list Obs) : list positive :=
  omap (λ o, match o with TransitionComplete s => Some s | _ => None end) tr.

Definition isPause (cb : TimeoutCb) : bool :=
  match cb with TravelPause _ => true | AutoplayTick _ _ _ => false end.

(** No travel pause is pending. *)
Definition noPause (w : World) : Prop :=
  map_Forall (λ _ cb, isPause cb = false) (timeouts w).

(** The component rests at index [i]: nothing of the animator is
    pending. *)
Definition arrived (i : Z) (done : list positive) (w : World) : Prop :=
  mounted w = true ∧ hasMap w = true
  ∧ isTransitioning (st w) = false ∧ currentIndex (st w) = i
  ∧ idsGivenOut w
  ∧ moveend w = [] ∧ rafs w = ∅ ∧ noPause w
  ∧ completions (trace w) = done.

(** The segment from index [i] is under way as session [sid]. *)
Definition inTransition (sid : positive) (start : option Z) (i : Z)
    (done : list positive) (w : World) : Prop :=
  mounted w = true ∧ hasMap w = true ∧ cancelRef w = false
  ∧ isTransitioning (st w) = true ∧ currentIndex (st w) = i
  ∧ 0 ≤ i < len w - 1
  ∧ idsGivenOut w
  ∧ (∃ ss, sessions w !! sid = Some ss ∧ startTime ss = start)
  ∧ completions (trace w) = done.

(** The camera flies to the start point: [onFlyEnd] listens. *)
Definition flying (sid : positive) (i : Z) (done : list positive) (w : World) : Prop :=
  inTransition sid None i done w
  ∧ moveend w = [sid] ∧ rafs w = ∅ ∧ noPause w.

(** The 400 ms pause runs as timeout [tp]. *)
Definition pausing (sid tp : positive) (i : Z) (done : list positive) (w : World) : Prop :=
  inTransition sid None i done w
  ∧ moveend w = [] ∧ rafs w = ∅
  ∧ timeouts w !! tp = Some (TravelPause sid)
  ∧ noPause (set_timeouts (delete tp (timeouts w)) w).

(** [animate] is scheduled for the next frame. *)
Definition ticking (sid : positive) (start : option Z) (i : Z)
    (done : list positive) (w : World) : Prop :=
  inTransition sid start i done w
  ∧ moveend w = [] ∧ (∃ r, rafs w = {[r := sid]}) ∧ noPause w.

(** A press of "next": the keys and the button that call [goNext]. *)
Definition nextPress (e : Event) : Prop :=
  e = KeyDown ArrowRight ∨ e = KeyDown Space ∨ e = Click NextButton.

(** While the segment that started at [t0] draws: a frame before its
    end, or a press of "next". *)
Definition whileDrawing (t0 : Z) (e : Event) : Prop :=
  nextPress e ∨ ∃ t, e = AnimationFrame t ∧ t - t0 < ANIM_DURATION.

(** The events of the component's own queues and of its user; a new
    [memories] prop and the audio module's timers are the others. *)
Definition ownEvent (e : Event) : Prop :=
  match e with
  | NewMemories _ | AudioTimer _ => False
  | _ => True
  end.

(** Not started, on an empty timeline, with audio module [a] untouched
    and nothing pending. *)
Definition idleOnEmpty (a : Audio.State) (w : World) : Prop :=
  sortedMemories w = [] ∧ st w = initialState ∧ audio w = a
  ∧ timeouts w = ∅ ∧ rafs w = ∅ ∧ moveend w = []
  ∧ autoCleanup w = false ∧ autoPlayTimerRef w = None.

(** Unmounted with the cancellation flag up. *)
Definition tornDown (w : World) : Prop := mounted w = false ∧ cancelRef w = true.

(** *** Worlds to run examples in *)

(** The scenario's three records on a map, audio available. *)
Definition demoWorld : World :=
  mount isoDate_getTime [recJan; recJun; recDec] true (Audio.initial true).

(** No record at all. *)
Definition emptyWorld : World :=
  mount isoDate_getTime [] true (Audio.initial true).

(** The three records, [mapInstance] still [null]. *)
Definition noMapWorld : World :=
  mount isoDate_getTime [recJan; recJun; recDec] false (Audio.initial true).

End Playback.

(** ** 4. The locations of the picker and their display names *)

Module Locations.

(** [locations.ts]: [SGLocation].  Coordinates in micro-degrees. *)
Record SGLocation := mkLocation {
  key : string;
  name : string;
  lat : Z;
  lng : Z
}.

Definition SG_LOCATIONS : list SGLocation := [
  mkLocation "marina-bay" "Marina Bay" 1281400 103858500;
  mkLocation "orchard" "Orchard Road" 1304800 103831800;
  mkLocation "sentosa" "Sentosa" 1249400 103830300;
  mkLocation "gardens-by-the-bay" "Gardens by the Bay" 1281600 103863600;
  mkLocation "bugis" "Bugis" 1300900 103855800;
  mkLocation "changi-airport" "Changi Airport" 1364400 103991500;
  mkLocation "nus" "NUS" 1296600 103776400;
  mkLocation "ntu" "NTU" 1348300 103683100;
  mkLocation "tampines" "Tampines" 1349600 103956800;
  mkLocation "jurong-east" "Jurong East" 1332900 103743600;
  mkLocation "punggol" "Punggol" 1404100 103902500;
  mkLocation "woodlands" "Woodlands" 1438200 103789100;
  mkLocation "chinatown" "Chinatown" 1283300 103843300;
  mkLocation "little-india" "Little India" 1306600 103851800;
  mkLocation "clarke-quay" "Clarke Quay" 1290600 103846500;
  mkLocation "east-coast-park" "East Coast Park" 1300800 103912300;
  mkLocation "botanic-gardens" "Botanic Gardens" 1313800 103815900;
  mkLocation "merlion-park" "Merlion Park" 1286800 103854500;
  mkLocation "haji-lane" "Haji Lane" 1301600 103859500;
  mkLocation "holland-village" "Holland Village" 1311200 103796000
].

(** [SG_LOCATIONS.find((l) => l.key === k)] *)
Definition findLocation (k : string) : option SGLocation :=
  List.find (λ l, String.eqb (key l) k) SG_LOCATIONS.

(** [s.replace(/-/g, " ")] *)
Fixpoint replaceHyphens (s : string) : string :=
  match s with
  | EmptyString => EmptyString
  | String c s' =>
      String (if Ascii.eqb c "-" then " "%char else c) (replaceHyphens s')
  end.

(** [a || b] on a string that may be [undefined]: the empty string is
    falsy too. *)
Definition orElse (a : option string) (b : string) : string :=
  if Sorter.truthy a then default b a else b.

(** [getLocationName], [TimeTravelMode.tsx] lines 57-59. *)
Definition getLocationName (k : string) : string :=
  orElse (name <$> findLocation k) (replaceHyphens k).

(** [locationName] of the overlay, [PolaroidOverlay.tsx] lines 375-378;
    [locationKey] is [string | null]. *)
Definition locationName (locationKey : option string) : string :=
  if Sorter.truthy locationKey then
    let k := default ""%string locationKey in
    orElse (name <$> findLocation k) k
  else ""%string.

End Locations.

(** ** 5. Photos of a record and the two slideshows *)

Module Photos.
Import Sorter.

(** The later [Memory] type ([types.ts] with [imageDataUrls]): the record
    and the optional array of all its photos. *)
Record MemoryWithPhotos := mkPhotos {
  record : Memory;
  imageDataUrls : option (list string)
}.

(** [getMemoryImages]. An array, empty or not, is truthy. *)
Definition getMemoryImages (memory : MemoryWithPhotos) : list string :=
  match imageDataUrls memory with
  | Some urls =>
      if 0 <? Z.of_nat (length urls) then urls
      else [imageDataUrl (record memory)]
  | None => [imageDataUrl (record memory)]
  end.

End Photos.

(** The card of the timeline, [TimeTravelMode.tsx] lines 399-418: one
    [useState] cell and the effect that cycles the photos.  An interval
    is stored with the [images.length] its callback captured. *)
Module TimelineCard.

Record Card := mkCard {
  images : list string;
  photoIndex : Z;
  mounted : bool;
  cleanup : option positive;
  intervals : gmap positive Z;
  nextId : positive
}.

Definition length_of (c : Card) : Z := Z.of_nat (length (images c)).

(** The effect of lines 412-418. *)
Definition effect (c : Card) : Card :=
  if length_of c <=? 1 then
    mkCard (images c) (photoIndex c) (mounted c) None (intervals c) (nextId c)
  else
    let timer := nextId c in
    mkCard (images c) (photoIndex c) (mounted c) (Some timer)
      (<[timer := length_of c]> (intervals c)) (Pos.succ timer).

(** [() => clearInterval(timer)] *)
Definition runCleanup (c : Card) : Card :=
  match cleanup c with
  | Some timer =>
      mkCard (images c) (photoIndex c) (mounted c) None
        (delete timer (intervals c)) (nextId c)
  | None => c
  end.

(** [setPhotoIndex((prev) => (prev + 1) % images.length)] *)
Definition tick (n : Z) (c : Card) : Card :=
  if mounted c then
    mkCard (images c) (Z.rem (photoIndex c + 1) n) (mounted c) (cleanup c)
      (intervals c) (nextId c)
  else c.

Inductive Event :=
| IntervalFires (timer : positive)
| NewImages (imgs : list string)
| Unmount.

Definition step (e : Event) (c : Card) : Card :=
  match e with
  | IntervalFires timer =>
      match intervals c !! timer with
      | Some n => tick n c
      | None => c
      end
  | NewImages imgs =>
      if mounted c then
        let c1 := mkCard imgs (photoIndex c) (mounted c) (cleanup c)
                    (intervals c) (nextId c) in
        if length_of c1 =? length_of c then c1 else effect (runCleanup c1)
      else c
  | Unmount =>
      if mounted c then
        let c1 := runCleanup c in
        mkCard (images c1) (photoIndex c1) false (cleanup c1) (intervals c1)
          (nextId c1)
      else c
  end.

Definition run (es : list Event) (c : Card) : Card := foldl (λ c e, step e c) c es.

(** A card is mounted for one record: [images] is what
    [getMemoryImages] returns for it. *)
Definition mount (memory : Photos.MemoryWithPhotos) : Card :=
  effect (mkCard (Photos.getMemoryImages memory) 0 true None ∅ 1%positive).

(** The photo on the card: [images[photoIndex]]. *)
Definition shown (c : Card) : option string :=
  Playback.at_index (images c) (photoIndex c).

Definition sameRecord (e : Event) : Prop :=
  match e with NewImages _ => False | _ => True end.

(** What every card keeps, whatever happens to it: a live interval is
    the one the registered cleanup will clear, and it captured the
    current number of photos, more than one. *)
Definition coherent (c : Card) : Prop :=
  ∀ t n, intervals c !! t = Some n →
         cleanup c = Some t ∧ mounted c = true ∧ n = length_of c ∧ 1 < n.

Definition inRange (c : Card) : Prop := 0 ≤ photoIndex c < length_of c.

End TimelineCard.

(** [PhotoCarousel], [PolaroidOverlay.tsx] lines 104-251. *)
Module PhotoCarousel.

Record Carousel := mkCarousel {
  images : list string;
  currentIndex : Z;
  direction : Z;
  timerRef : option positive;
  touchStartX : Z;
  mounted : bool;
  hasCleanup : bool;
  intervals : gmap positive Z;
  nextId : positive
}.

Definition length_of (c : Carousel) : Z := Z.of_nat (length (images c)).

Definition set_index (i d : Z) (c : Carousel) : Carousel :=
  if mounted c then
    mkCarousel (images c) i d (timerRef c) (touchStartX c) (mounted c)
      (hasCleanup c) (intervals c) (nextId c)
  else c.

(** [timerRef.current = setInterval(…, 4000)] *)
Definition startInterval (c : Carousel) : Carousel :=
  let timer := nextId c in
  mkCarousel (images c) (currentIndex c) (direction c) (Some timer)
    (touchStartX c) (mounted c) (hasCleanup c)
    (<[timer := length_of c]> (intervals c)) (Pos.succ timer).

(** [if (timerRef.current) clearInterval(timerRef.current)] *)
Definition clearTimer (c : Carousel) : Carousel :=
  match timerRef c with
  | Some timer =>
      mkCarousel (images c) (currentIndex c) (direction c) (timerRef c)
        (touchStartX c) (mounted c) (hasCleanup c)
        (delete timer (intervals c)) (nextId c)
  | None => c
  end.

Definition set_hasCleanup (b : bool) (c : Carousel) : Carousel :=
  mkCarousel (images c) (currentIndex c) (direction c) (timerRef c)
    (touchStartX c) (mounted c) b (intervals c) (nextId c).

(** The effect of lines 110-119. *)
Definition effect (c : Carousel) : Carousel :=
  if length_of c <=? 1 then set_hasCleanup false c
  else set_hasCleanup true (startInterval c).

(** The callback of both intervals: one step to the right. *)
Definition advance (n : Z) (c : Carousel) : Carousel :=
  set_index (Z.rem (currentIndex c + 1) n) 1 c.

(** [goTo], lines 121-130. *)
Definition goTo (newIndex dir : Z) (c : Carousel) : Carousel :=
  startInterval (set_index newIndex dir (clearTimer c)).

(** [goNext], lines 132-134. *)
Definition goNext (c : Carousel) : Carousel :=
  goTo (Z.rem (currentIndex c + 1) (length_of c)) 1 c.

(** [goPrev], lines 136-138. *)
Definition goPrev (c : Carousel) : Carousel :=
  goTo (Z.rem (currentIndex c - 1 + length_of c) (length_of c)) (-1) c.

(** [handleTouchStart], lines 142-144. *)
Definition handleTouchStart (x : Z) (c : Carousel) : Carousel :=
  mkCarousel (images c) (currentIndex c) (direction c) (timerRef c) x
    (mounted c) (hasCleanup c) (intervals c) (nextId c).

(** [handleTouchEnd], lines 145-151. *)
Definition handleTouchEnd (x : Z) (c : Carousel) : Carousel :=
  let diff := touchStartX c - x in
  if 40 <? Z.abs diff then
    if 0 <? diff then goNext c else goPrev c
  else c.

(** The dot of photo [i], lines 232-237. *)
Definition clickDot (i : Z) (c : Carousel) : Carousel :=
  goTo i (if currentIndex c <? i then 1 else -1) c.

Inductive Event :=
| IntervalFires (timer : positive)
| ClickPrev
| ClickNext
| ClickDot (i : nat)
| TouchStart (x : Z)
| TouchEnd (x : Z)
| NewImages (imgs : list string)
| Unmount.

(** With at most one photo the component renders a plain image: no
    arrows, no dots, no touch handlers (lines 153-162). *)
Definition interactive (c : Carousel) : bool := mounted c && (1 <? length_of c).

Definition step (e : Event) (c : Carousel) : Carousel :=
  match e with
  | IntervalFires timer =>
      match intervals c !! timer with
      | Some n => advance n c
      | None => c
      end
  | ClickPrev => if interactive c then goPrev c else c
  | ClickNext => if interactive c then goNext c else c
  | ClickDot i =>
      if interactive c && (Z.of_nat i <? length_of c) then clickDot (Z.of_nat i) c
      else c
  | TouchStart x => if interactive c then handleTouchStart x c else c
  | TouchEnd x => if interactive c then handleTouchEnd x c else c
  | NewImages imgs =>
      if mounted c then
        let c1 := mkCarousel imgs (currentIndex c) (direction c) (timerRef c)
                    (touchStartX c) (mounted c) (hasCleanup c) (intervals c)
                    (nextId c) in
        if length_of c1 =? length_of c then c1
        else effect (if hasCleanup c1 then clearTimer c1 else c1)
      else c
  | Unmount =>
      if mounted c then
        let c1 := if hasCleanup c then clearTimer c else c in
        mkCarousel (images c1) (currentIndex c1) (direction c1) (timerRef c1)
          (touchStartX c1) false (hasCleanup c1) (intervals c1) (nextId c1)
      else c
  end.

Definition run (es : list Event) (c : Carousel) : Carousel :=
  foldl (λ c e, step e c) c es.

Definition mount (imgs : list string) : Carousel :=
  effect (mkCarousel imgs 0 0 None 0 true false ∅ 1%positive).

(** [images[currentIndex]], the photo in the frame. *)
Definition shown (c : Carousel) : option string :=
  Playback.at_index (images c) (currentIndex c).

Definition sameImages (e : Event) : Prop :=
  match e with NewImages _ => False | _ => True end.

(** A live interval is the one [timerRef] holds, it belongs to a mounted
    carousel whose effect registered its cleanup, and it captured the
    current number of photos, more than one. *)
Definition coherent (c : Carousel) : Prop :=
  (∀ t n, intervals c !! t = Some n →
          timerRef c = Some t ∧ mounted c = true ∧ hasCleanup c = true
          ∧ n = length_of c ∧ 1 < n)
  ∧ (mounted c = true → 1 < length_of c → hasCleanup c = true).

Definition inRange (c : Carousel) : Prop := 0 ≤ currentIndex c < length_of c.

End PhotoCarousel.

(** ** 6. The tilt of a Polaroid *)

Module Polaroid.

(** [ToInt32]: the signed 32-bit integer a bitwise operator reads. *)
Definition ToInt32 (z : Z) : Z := (z + 2 ^ 31) mod 2 ^ 32 - 2 ^ 31.

(** [x << n] *)
Definition shl (x n : Z) : Z := ToInt32 (Z.shiftl (ToInt32 x) (n mod 32)).

(** [x | y] *)
Definition bitor (x y : Z) : Z := ToInt32 (Z.lor (ToInt32 x) (ToInt32 y)).

(** [seed.charCodeAt(i)] *)
Definition charCode (c : ascii) : Z := Z.of_N (N_of_ascii c).

(** The loop of [getRandomRotation]. *)
Fixpoint hashFrom (hash : Z) (seed : string) : Z :=
  match seed with
  | EmptyString => hash
  | String c rest => hashFrom (bitor (shl hash 5 - hash + charCode c) 0) rest
  end.

(** [getRandomRotation], [PolaroidOverlay.tsx] lines 30-36.  [%] takes
    the sign of the dividend. *)
Definition getRandomRotation (seed : string) : Z := Z.rem (hashFrom 0 seed) 9 - 4.

(** The polynomial the loop evaluates, before any wrap-around. *)
Fixpoint polynomial (acc : Z) (seed : string) : Z :=
  match seed with
  | EmptyString => acc
  | String c rest => polynomial (31 * acc + charCode c) rest
  end.

End Polaroid.

(** ** 7. Persistence ([storage.ts]) *)

Module Storage.
Import Sorter.

(** The browser as [storage.ts] sees it: the string kept under
    [STORAGE_KEY] ([None]: no such key), whether every access to
    [localStorage] throws (storage disabled), which strings [setItem]
    takes without throwing (the quota), and how many warnings the
    console got. *)
Record Browser := mkBrowser {
  item : option string;
  denied : bool;
  quota : string → bool;
  warnings : nat
}.

Definition set_item (v : option string) (b : Browser) : Browser :=
  mkBrowser v (denied b) (quota b) (warnings b).

Definition warn (b : Browser) : Browser :=
  mkBrowser (item b) (denied b) (quota b) (S (warnings b)).

Section Json.
(** [JSON.parse] on the text ([None]: it throws) and [JSON.stringify] on
    an array of records.  The cast [as Memory[]] is not checked by the
    source: a text that parses to something else is outside the model. *)
Variable JSON_parse : string → option (list Memory).
Variable JSON_stringify : list Memory → string.

(** [loadMemories], lines 9-17. *)
Definition loadMemories (b : Browser) : list Memory :=
  if denied b then []
  else match item b with
       | None => []
       | Some raw =>
           if String.eqb raw "" then []
           else match JSON_parse raw with
                | Some memories => memories
                | None => []
                end
       end.

(** [saveMemories], lines 19-25. *)
Definition saveMemories (memories : list Memory) (b : Browser) : Browser :=
  let text := JSON_stringify memories in
  if denied b || negb (quota b text) then warn b
  else set_item (Some text) b.

(** [addMemory], lines 27-32. *)
Definition addMemory (memory : Memory) (b : Browser) : list Memory * Browser :=
  let existing := loadMemories b in
  let updated := existing ++ [memory] in
  (updated, saveMemories updated b).

(** [deleteMemory], lines 34-39. *)
Definition deleteMemory (i : string) (b : Browser) : list Memory * Browser :=
  let existing := loadMemories b in
  let updated := filter (λ m, id m ≠ i) existing in
  (updated, saveMemories updated b).

(** [clearAllMemories], lines 41-43: no [try] here. *)
Definition clearAllMemories (b : Browser) : Outcome * Browser :=
  if denied b then (Threw, b) else (Returned, set_item None b).

(** A browser that takes every write. *)
Definition reliable (b : Browser) : Prop :=
  denied b = false ∧ ∀ text, quota b text = true.

End Json.

(** *** A text encoding for the examples

    Any encoding of record lists as non-empty text that can be read
    back stands for the pair [JSON.stringify]/[JSON.parse] on them;
    this one writes the binary digits of a number of the list. *)
#[local] Instance Memory_eq_dec : EqDecision Memory.
Proof. solve_decision. Defined.

#[local] Instance Memory_countable : Countable Memory.
Proof.
  refine (inj_countable'
    (λ m, (id m, createdAt m, memoryDate m, locationKey m, lat m, lng m,
           caption m, imageDataUrl m))
    (λ t, let '(i, c, d, k, la, ln, cap, img) := t in mkMemory i c d k la ln cap img)
    _).
  by intros [].
Defined.

Fixpoint digitsOf (p : positive) : string :=
  match p with
  | xH => ""
  | xO p' => String "0" (digitsOf p')
  | xI p' => String "1" (digitsOf p')
  end.

Fixpoint readDigits (s : string) : option positive :=
  match s with
  | EmptyString => Some xH
  | String c s' =>
      p ← readDigits s';
      if Ascii.eqb c "0" then Some (xO p)
      else if Ascii.eqb c "1" then Some (xI p)
      else None
  end.

Definition toText (l : list Memory) : string := String "[" (digitsOf (encode l)).

Definition fromText (s : string) : option (list Memory) :=
  match s with
  | String "[" s' => p ← readDigits s'; decode p
  | _ => None
  end.

End Storage.

(** ** 8. Pins and their overlay *)

Module MapView.
Import Sorter.

(** A value of [locationGroups], [MapView.tsx] lines 82-91. *)
Record Group := mkGroup {
  memories : list Memory;
  lat : Z;
  lng : Z
}.

(** [groups] is a plain object: reading a key it does not own finds what
    [Object.prototype] has under that name. *)
Definition inherited : list string := [
  "constructor"; "hasOwnProperty"; "isPrototypeOf"; "propertyIsEnumerable";
  "toLocaleString"; "toString"; "valueOf"; "__proto__";
  "__defineGetter__"; "__defineSetter__"; "__lookupGetter__"; "__lookupSetter__"
]%string.

(** One turn of the loop.  An inherited member is truthy and has no
    [memories]: the [push] on [undefined] throws. *)
Definition addToGroups (groups : gmap string Group) (m : Memory)
    : option (gmap string Group) :=
  match groups !! locationKey m with
  | Some g =>
      Some (<[locationKey m := mkGroup (memories g ++ [m]) (lat g) (lng g)]> groups)
  | None =>
      if bool_decide (locationKey m ∈ inherited) then None
      else Some (<[locationKey m := mkGroup [m] (Sorter.lat m) (Sorter.lng m)]> groups)
  end.

Definition locationGroups (ms : list Memory) : option (gmap string Group) :=
  foldl (λ acc m, groups ← acc; addToGroups groups m) (Some ∅) ms.

(** The number [createHeartIcon] gets for a pin, and whether it draws
    the badge (line 56). *)
Definition count (g : Group) : Z := Z.of_nat (length (memories g)).
Definition badge (g : Group) : option Z := if 1 <? count g then Some (count g) else None.

(** What the loop builds for key [k]: the records of [ms] at [k], in
    their order, at the coordinates of the first of them. *)
Definition groupOf (k : string) (ms : list Memory) : option Group :=
  match filter (λ m, locationKey m = k) ms with
  | [] => None
  | first :: rest => Some (mkGroup (first :: rest) (Sorter.lat first) (Sorter.lng first))
  end.

End MapView.

Module Overlay.
Import Sorter.

Section Dates.
Variable Date_getTime : string → option Z.

(** [locationMemories], [PolaroidOverlay.tsx] lines 364-373: [filter]
    makes the array that [sort] then orders. *)
Definition locationMemories (memories : list Memory) (locationKey : option string)
    : list Memory :=
  if truthy locationKey then
    Array_sort (byDate Date_getTime)
      (filter (λ m, Sorter.locationKey m = default ""%string locationKey) memories)
  else [].

(** Line 386: the overlay is drawn when
    [locationKey && locationMemories.length > 0]. *)
Definition drawn (memories : list Memory) (locationKey : option string) : bool :=
  truthy locationKey && (0 <? Z.of_nat (length (locationMemories memories locationKey))).

End Dates.
End Overlay.

(** ** 9. The page ([Home.tsx]) *)

Module Home.
Import Sorter.

Inductive Toast := MemoryPinned (locationKey : string) | MemoryRemoved | AllCleared.

(** The state of [Home] that its handlers for memories read and write,
    the browser, and the toasts shown.  [showSettings] and the effect
    that closes the settings menu touch none of it and are left out. *)
Record Page := mkPage {
  memories : list Memory;
  isModalOpen : bool;
  selectedLocation : option string;
  browser : Storage.Browser;
  toasts : list Toast;
  uncaught : nat
}.

Section Json.
Variable JSON_parse : string → option (list Memory).
Variable JSON_stringify : list Memory → string.

(** The first render and the effect of lines 28-31. *)
Definition mount (b : Storage.Browser) : Page :=
  mkPage (Storage.loadMemories JSON_parse b) false None b [] 0.

(** [handleAddMemory], lines 47-60. *)
Definition handleAddMemory (memory : Memory) (p : Page) : Page :=
  let '(updated, b) := Storage.addMemory JSON_parse JSON_stringify memory (browser p) in
  mkPage updated false (selectedLocation p) b
    (toasts p ++ [MemoryPinned (Locations.replaceHyphens (locationKey memory))])
    (uncaught p).

(** [handlePinClick], lines 63-65. *)
Definition handlePinClick (k : string) (p : Page) : Page :=
  mkPage (memories p) (isModalOpen p) (Some k) (browser p) (toasts p) (uncaught p).

(** [handleCloseOverlay], lines 68-70. *)
Definition handleCloseOverlay (p : Page) : Page :=
  mkPage (memories p) (isModalOpen p) None (browser p) (toasts p) (uncaught p).

(** [handleDeleteMemory], lines 73-91. *)
Definition handleDeleteMemory (i : string) (p : Page) : Page :=
  let '(updated, b) := Storage.deleteMemory JSON_parse JSON_stringify i (browser p) in
  let selected :=
    if truthy (selectedLocation p) then
      let remaining :=
        filter (λ m, locationKey m = default ""%string (selectedLocation p)) updated in
      if Z.of_nat (length remaining) =? 0 then None else selectedLocation p
    else selectedLocation p in
  mkPage updated (isModalOpen p) selected b (toasts p ++ [MemoryRemoved]) (uncaught p).

(** [handleReset], lines 94-108; [confirmed] is the answer to
    [window.confirm]. *)
Definition handleReset (confirmed : bool) (p : Page) : Page :=
  if negb confirmed then p
  else match Storage.clearAllMemories (browser p) with
       | (Threw, b) =>
           mkPage (memories p) (isModalOpen p) (selectedLocation p) b (toasts p)
             (S (uncaught p))
       | (Returned, b) =>
           mkPage [] (isModalOpen p) None b (toasts p ++ [AllCleared]) (uncaught p)
       end.

Definition setIsModalOpen (v : bool) (p : Page) : Page :=
  mkPage (memories p) v (selectedLocation p) (browser p) (toasts p) (uncaught p).

Inductive Event :=
| PinClick (k : string)
| CloseOverlay
| Submit (memory : Memory)
| Delete (i : string)
| Reset (confirmed : bool)
| OpenModal
| CloseModal.

(** A pin can be clicked when [MapView] drew it: its key is a key of
    [locationGroups]. *)
Definition pinDrawn (k : string) (p : Page) : bool :=
  match MapView.locationGroups (memories p) with
  | Some groups => bool_decide (is_Some (groups !! k))
  | None => false
  end.

Definition step (e : Event) (p : Page) : Page :=
  match e with
  | PinClick k => if pinDrawn k p then handlePinClick k p else p
  | CloseOverlay => handleCloseOverlay p
  | Submit memory => handleAddMemory memory p
  | Delete i => handleDeleteMemory i p
  | Reset confirmed => handleReset confirmed p
  | OpenModal => setIsModalOpen true p
  | CloseModal => setIsModalOpen false p
  end.

Definition run (es : list Event) (p : Page) : Page := foldl (λ p e, step e p) p es.

(** An open overlay has a record to show. *)
Definition backed (p : Page) : Prop :=
  truthy (selectedLocation p) = true →
  filter (λ m, locationKey m = default ""%string (selectedLocation p)) (memories p) ≠ [].

(** On a browser that takes every write: the page shows what is stored,
    an open overlay has a record to show, nothing went uncaught. *)
Definition settled (p : Page) : Prop :=
  Storage.reliable (browser p)
  ∧ memories p = Storage.loadMemories JSON_parse (browser p)
  ∧ backed p ∧ uncaught p = 0%nat.

End Json.
End Home.

(** ** 10. Share links ([shareUtils.ts]) *)

Module Share.
Import Sorter.

(** The object [encodeMemoriesToHash] builds for a record, lines 16-25,
    read back as a [Memory]: it has no [memoryDate], and its image is
    the first 200 characters of the original followed by three dots. *)
Definition lightweight (m : Memory) : Memory :=
  mkMemory (id m) (createdAt m) None (locationKey m) (lat m) (lng m) (caption m)
    (String.substring 0 200 (imageDataUrl m) +:+ "...").

Section Host.
(** The host's functions; [None] is a throw.  [JSON_parse] tells an
    array from any other value ([Some None]), as [Array.isArray]
    does. *)
Variable JSON_stringify : list Memory → string.
Variable JSON_parse : string → option (option (list Memory)).
Variable encodeURIComponent : string → option string.
Variable decodeURIComponent : string → option string.
Variable btoa : string → option string.
Variable atob : string → option string.

(** [encodeMemoriesToHash], lines 13-31. *)
Definition encodeMemoriesToHash (memories : list Memory) : string :=
  let json := JSON_stringify (map lightweight memories) in
  match encodeURIComponent json with
  | Some escaped => default ""%string (btoa escaped)
  | None => ""%string
  end.

(** [decodeMemoriesFromHash], lines 36-45. *)
Definition decodeMemoriesFromHash (hash : string) : option (list Memory) :=
  match atob hash with
  | Some escaped =>
      match decodeURIComponent escaped with
      | Some json =>
          match JSON_parse json with
          | Some (Some parsed) => Some parsed
          | Some None => None
          | None => None
          end
      | None => None
      end
  | None => None
  end.

End Host.
End Share.

(** ** 11. The form that makes a record ([AddMemoryModal.tsx]) *)

Module AddMemory.
Import Sorter.

Definition MAX_PHOTOS : Z := 3.

(** [String.prototype.trim] on the characters a [string] here can hold:
    tab, line feed, vertical tab, form feed, carriage return, space and
    no-break space are white space. *)
Definition isWhiteSpace (c : ascii) : bool :=
  let n := Z.of_N (N_of_ascii c) in
  ((9 <=? n) && (n <=? 13)) || (n =? 32) || (n =? 160).

Fixpoint trimStart (s : string) : string :=
  match s with
  | EmptyString => EmptyString
  | String c s' => if isWhiteSpace c then trimStart s' else s
  end.

Fixpoint trimEnd (s : string) : string :=
  match s with
  | EmptyString => EmptyString
  | String c s' =>
      match trimEnd s' with
      | EmptyString => if isWhiteSpace c then EmptyString else String c EmptyString
      | rest => String c rest
      end
  end.

Definition trim (s : string) : string := trimEnd (trimStart s).

(** The [useState] cells of the form, and the resets that
    [handleClose] has scheduled and that have not run yet. *)
Record Form := mkForm {
  photos : list string;
  caption : string;
  memoryDate : string;
  locationKey : string;
  isCompressing : bool;
  pendingResets : nat
}.

Definition initial (today : string) : Form := mkForm [] "" today "" false 0.

(** The four setters both resets call. *)
Definition reset (today : string) (f : Form) : Form :=
  mkForm [] "" today "" (isCompressing f) (pendingResets f).

(** [handleImageChange], lines 53-71, up to the [await]. *)
Definition imageChosen (f : Form) : Form :=
  mkForm (photos f) (caption f) (memoryDate f) (locationKey f) true (pendingResets f).

(** ... and after it: [compressImage] gave [compressed]. *)
Definition imageCompressed (compressed : string) (f : Form) : Form :=
  let prev := photos f in
  mkForm (if MAX_PHOTOS <=? Z.of_nat (length prev) then prev else prev ++ [compressed])
    (caption f) (memoryDate f) (locationKey f) false (pendingResets f).

(** ... or it threw. *)
Definition imageFailed (f : Form) : Form :=
  mkForm (photos f) (caption f) (memoryDate f) (locationKey f) false (pendingResets f).

(** [prev.filter((_, i) => i !== index)] *)
Fixpoint dropIndex {A} (index : nat) (l : list A) : list A :=
  match l, index with
  | [], _ => []
  | _ :: l', O => l'
  | x :: l', S i => x :: dropIndex i l'
  end.

(** [removePhoto], lines 73-75. *)
Definition removePhoto (index : nat) (f : Form) : Form :=
  mkForm (dropIndex index (photos f)) (caption f) (memoryDate f) (locationKey f)
    (isCompressing f) (pendingResets f).

(** The [onChange] of the caption field: [e.target.value.slice(0, 80)]. *)
Definition typeCaption (value : string) (f : Form) : Form :=
  mkForm (photos f) (String.substring 0 80 value) (memoryDate f) (locationKey f)
    (isCompressing f) (pendingResets f).

Definition pickDate (value : string) (f : Form) : Form :=
  mkForm (photos f) (caption f) value (locationKey f) (isCompressing f) (pendingResets f).

Definition chooseLocation (value : string) (f : Form) : Form :=
  mkForm (photos f) (caption f) (memoryDate f) value (isCompressing f) (pendingResets f).

(** [isValid], line 116, and the guard of [handleSubmit], line 78. *)
Definition isValid (f : Form) : bool :=
  (0 <? Z.of_nat (length (photos f)))
  && negb (String.eqb (trim (caption f)) "")
  && negb (String.eqb (locationKey f) "").

(** [handleSubmit], lines 77-103: what [onSubmit] gets, if it is called,
    and the form afterwards.  [newId] is what [nanoid()] returns, [now]
    is [Date.now()], [today] is [todayISO()]. *)
Definition handleSubmit (newId : string) (now : Z) (today : string) (f : Form)
    : option Photos.MemoryWithPhotos * Form :=
  if negb (isValid f) then (None, f)
  else match Locations.findLocation (locationKey f) with
       | None => (None, f)
       | Some location =>
           let memory :=
             Photos.mkPhotos
               (mkMemory newId now
                  (if String.eqb (memoryDate f) "" then None else Some (memoryDate f))
                  (Locations.key location) (Locations.lat location)
                  (Locations.lng location) (trim (caption f))
                  (default ""%string (head (photos f))))
               (Some (photos f)) in
           (Some memory, reset today f)
       end.

(** [handleClose], lines 105-114: the reset is put off by 300 ms. *)
Definition handleClose (f : Form) : Form :=
  mkForm (photos f) (caption f) (memoryDate f) (locationKey f) (isCompressing f)
    (S (pendingResets f)).

Definition resetFires (today : string) (f : Form) : Form :=
  match pendingResets f with
  | O => f
  | S n =>
      mkForm [] "" today "" (isCompressing f) n
  end.

(** The effect of lines 47-51 when [isOpen] becomes true. *)
Definition opened (today : string) (f : Form) : Form :=
  mkForm (photos f) (caption f) today (locationKey f) (isCompressing f) (pendingResets f).

Inductive Event :=
| ImageChosen
| ImageCompressed (compressed : string)
| ImageFailed
| RemovePhoto (index : nat)
| TypeCaption (value : string)
| PickDate (value : string)
| ChooseLocation (value : string)
| Submit (newId : string) (now : Z) (today : string)
| Close
| ResetFires (today : string)
| Opened (today : string).

Definition step (e : Event) (f : Form) : Form :=
  match e with
  | ImageChosen => imageChosen f
  | ImageCompressed compressed => imageCompressed compressed f
  | ImageFailed => imageFailed f
  | RemovePhoto index => removePhoto index f
  | TypeCaption value => typeCaption value f
  | PickDate value => pickDate value f
  | ChooseLocation value => chooseLocation value f
  | Submit newId now today => (handleSubmit newId now today f).2
  | Close => handleClose f
  | ResetFires today => resetFires today f
  | Opened today => opened today f
  end.

Definition run (es : list Event) (f : Form) : Form := foldl (λ f e, step e f) f es.

(** The bounds [MapView] locks the map to, [MapView.tsx] lines 14-17, in
    micro-degrees. *)
Definition inBounds (la ln : Z) : bool :=
  (1150000 <=? la) && (la <=? 1470000) && (103590000 <=? ln) && (ln <=? 104050000).

(** Empty, or beginning with a character that is not white space. *)
Definition flushLeft (s : string) : Prop :=
  match s with
  | EmptyString => True
  | String c _ => isWhiteSpace c = false
  end.

(** At most [MAX_PHOTOS] photos, at most 80 characters of caption. *)
Definition bounded (f : Form) : Prop :=
  Z.of_nat (length (photos f)) ≤ MAX_PHOTOS ∧ (String.length (caption f) ≤ 80)%nat.

End AddMemory.

(** ** 12. What the component draws, and what it keeps while the
    records stay the same *)

Module Engine.
Import Sorter Playback.

(** The playback interface is drawn (lines 858-859). *)
Definition playbackShown (w : World) : bool :=
  isStarted (st w) && (0 <=? currentIndex (st w)).

(** The record handed to [TimelineCard] (line 865):
    [sortedMemories[currentIndex]]. *)
Definition cardMemory (w : World) : option Memory :=
  at_index (sortedMemories w) (currentIndex (st w)).

(** The closing caption is drawn (line 999). *)
Definition theEnd (w : World) : bool :=
  (len w - 1 <=? currentIndex (st w)) && negb (isAutoPlaying (st w))
  && negb (isTransitioning (st w)).

(** Any event but a new [memories] prop. *)
Definition sameMemories (e : Event) : Prop :=
  match e with NewMemories _ => False | _ => True end.

(** The id in [autoPlayTimerRef] was given out by the host and is not
    the id of a travel pause. *)
Definition refOK (w : World) : Prop :=
  ∀ t, autoPlayTimerRef w = Some t →
       (t < nextId w)%positive ∧ ∀ s, timeouts w !! t ≠ Some (TravelPause s).

(** Nothing of the animator is pending. *)
Definition idle (w : World) : Prop :=
  idsGivenOut w ∧ moveend w = [] ∧ rafs w = ∅ ∧ noPause w.

(** With a map, a mounted component rests or is at one point of one
    segment. *)
Definition phase (w : World) : Prop :=
  (∃ i done, arrived i done w)
  ∨ (∃ sid i done, flying sid i done w)
  ∨ (∃ sid tp i done, pausing sid tp i done w)
  ∨ (∃ sid start i done, ticking sid start i done w).

(** The index is [-1] or an index of the timeline, and the journey has
    started when it is not [-1]. *)
Definition indexOK (w : World) : Prop :=
  -1 ≤ currentIndex (st w) ≤ len w - 1
  ∧ isStarted (st w) = (0 <=? currentIndex (st w)).

Definition core (w : World) : Prop :=
  indexOK w
  ∧ (mounted w = true →
     cancelRef w = false ∧ if hasMap w then phase w else idle w).

(** What every world the component reaches satisfies while the records
    stay the same. *)
Definition sound (w : World) : Prop := timersCurrent w ∧ refOK w ∧ core w.

(** [w'] differs from [w] in nothing the animator reads or writes but
    the state, and in no travel pause. *)
Definition calm (w w' : World) : Prop :=
  mounted w' = mounted w ∧ hasMap w' = hasMap w
  ∧ sortedMemories w' = sortedMemories w
  ∧ cancelRef w' = cancelRef w ∧ rafs w' = rafs w ∧ moveend w' = moveend w
  ∧ sessions w' = sessions w
  ∧ completions (trace w') = completions (trace w)
  ∧ (idsGivenOut w → idsGivenOut w')
  ∧ ∀ t s, timeouts w' !! t = Some (TravelPause s)
           ↔ timeouts w !! t = Some (TravelPause s).

(** Calm, and the same index and flags of the journey. *)
Definition aside (w w' : World) : Prop :=
  calm w w'
  ∧ currentIndex (st w') = currentIndex (st w)
  ∧ isTransitioning (st w') = isTransitioning (st w)
  ∧ isStarted (st w') = isStarted (st w).


(** The keys that call [goNext]. *)
Definition nextKey (k : KeyName) : bool :=
  match k with ArrowRight | Space => true | _ => false end.

(** *** The host plays the journey

    The nominal schedule of one segment under autoplay: the 4 s timer
    fires, the camera arrives at the start point ([moveend]), the 400 ms
    pause ends, a first frame runs at [t0] and one at
    [t0 + ANIM_DURATION], when the line is drawn. *)
Definition fireAutoplay (w : World) : World :=
  match autoPlayTimerRef w with
  | Some t => step (TimeoutFires t) w
  | None => w
  end.

Definition playSegment (t0 : Z) (w : World) : World :=
  let w1 := fireAutoplay w in
  let w2 := step MoveEnd w1 in
  let w3 := step (TimeoutFires (nextId w1)) w2 in
  step (AnimationFrame (t0 + ANIM_DURATION)) (step (AnimationFrame t0) w3).

Fixpoint playSegments (n : nat) (t0 : Z) (w : World) : World :=
  match n with
  | O => w
  | S n' => playSegments n' (t0 + 2 * ANIM_DURATION) (playSegment t0 w)
  end.

(** The component rests at index [i] with its autoplay timer pending. *)
Definition cruising (i : Z) (done : list positive) (w : World) : Prop :=
  arrived i done w ∧ timersCurrent w
  ∧ ∃ t i' l tr, timeouts w !! t = Some (AutoplayTick i' l tr).

End Engine.

(** * Properties *)

(** ** The sorter *)

Module SorterFacts.
Import Sorter.

Section Facts.
Variable Date_getTime : string → option Z.

Abbreviation ts := (effectiveTimestamp Date_getTime).
Abbreviation cmp := (byDate Date_getTime).
Abbreviation sorted := (sortChronologically Date_getTime).
Abbreviation notAfter := (notAfter Date_getTime).

Lemma SortCompare_resolved a b ta tb :
  ts a = Some ta → ts b = Some tb → SortCompare cmp a b = ta - tb.
Proof. intros Ha Hb. unfold SortCompare, byDate. by rewrite Ha, Hb. Qed.

Lemma sortInsert_perm x l : sortInsert cmp x l ≡ₚ x :: l.
Proof.
  induction l as [|y l IH]; simpl; [done|].
  destruct (0 <? SortCompare cmp x y); [|done].
  rewrite IH. apply Permutation_swap.
Qed.

Lemma sorted_perm l : sorted l ≡ₚ l.
Proof.
  unfold sortChronologically, Array_sort.
  induction l as [|x l IH]; simpl; [done|].
  by rewrite sortInsert_perm, IH.
Qed.

Lemma sortInsert_sorted x l :
  is_Some (ts x) → Forall (λ m, is_Some (ts m)) l →
  StronglySorted notAfter l → StronglySorted notAfter (sortInsert cmp x l).
Proof.
  intros [tx Hx] Hok Hs. induction Hs as [|y l Hs IH Hy]; simpl.
  - repeat constructor.
  - inversion_clear Hok as [|? ? [ty Hty] Hok'].
    rewrite (SortCompare_resolved _ _ _ _ Hx Hty).
    destruct (0 <? tx - ty) eqn:E.
    + apply Z.ltb_lt in E. constructor; [by apply IH|].
      rewrite sortInsert_perm. constructor; [|done].
      exists ty, tx. repeat split; [done..|lia].
    + apply Z.ltb_ge in E. constructor; [by constructor|].
      assert (Hxy : notAfter x y) by (exists tx, ty; repeat split; [done..|lia]).
      constructor; [done|].
      eapply Forall_impl; [exact Hy|].
      intros z (ty' & tz & Hy' & Hz & Hle). exists tx, tz.
      rewrite Hty in Hy'. injection Hy' as <-. repeat split; [done..|lia].
Qed.

Lemma sorted_sorted l :
  Forall (λ m, is_Some (ts m)) l → StronglySorted notAfter (sorted l).
Proof.
  unfold sortChronologically, Array_sort.
  induction 1 as [|x l Hx Hl IH]; simpl; [constructor|].
  apply sortInsert_sorted; [done| |done].
  fold (Array_sort cmp l). fold (sorted l). by rewrite sorted_perm.
Qed.

(** Records that share the timestamp [t] keep their order. *)
Lemma sortInsert_stable t x l :
  filter (λ m, ts m = Some t) (sortInsert cmp x l)
  = filter (λ m, ts m = Some t) (x :: l).
Proof.
  induction l as [|y l IH]; simpl; [done|].
  destruct (0 <? SortCompare cmp x y) eqn:E; [|done].
  rewrite !filter_cons in *. rewrite IH.
  destruct (decide (ts x = Some t)) as [Hx|Hx];
    destruct (decide (ts y = Some t)) as [Hy|Hy]; try done.
  rewrite (SortCompare_resolved _ _ _ _ Hx Hy) in E.
  apply Z.ltb_lt in E. lia.
Qed.

Lemma sorted_stable t l :
  filter (λ m, ts m = Some t) (sorted l) = filter (λ m, ts m = Some t) l.
Proof.
  unfold sortChronologically, Array_sort.
  induction l as [|x l IH]; simpl; [done|].
  rewrite sortInsert_stable, !filter_cons. by rewrite IH.
Qed.

Lemma sortInsert_least x l :
  Forall (notAfter x) l → sortInsert cmp x l = x :: l.
Proof.
  destruct 1 as [|y l (tx & ty & Hx & Hy & Hle) _]; simpl; [done|].
  rewrite (SortCompare_resolved _ _ _ _ Hx Hy).
  destruct (0 <? tx - ty) eqn:E; [|done]. apply Z.ltb_lt in E. lia.
Qed.

Lemma sorted_fixpoint l : StronglySorted notAfter l → sorted l = l.
Proof.
  unfold sortChronologically, Array_sort.
  induction 1 as [|x l Hs IH Hx]; simpl; [done|].
  rewrite IH. by apply sortInsert_least.
Qed.

Lemma StronglySorted_lookup_le {A} (R : A → A → Prop) (l : list A) i j a b :
  StronglySorted R l → (i < j)%nat → l !! i = Some a → l !! j = Some b → R a b.
Proof.
  intros Hs. revert i j. induction Hs as [|x l Hs IH Hx]; intros i j Hij Hi Hj.
  - by rewrite lookup_nil in Hi.
  - destruct j as [|j]; [lia|]. simpl in Hj. destruct i as [|i]; simpl in Hi.
    + injection Hi as <-. rewrite Forall_forall in Hx. apply Hx.
      by eapply list_elem_of_lookup_2.
    + eapply (IH i j); [lia|done..].
Qed.

Lemma notAfter_head x l y :
  is_Some (ts x) → Forall (notAfter x) l → y ∈ x :: l → notAfter x y.
Proof.
  intros [tx Hx] Hl [->|Hy]%elem_of_cons.
  - exists tx, tx. repeat split; [done..|lia].
  - rewrite Forall_forall in Hl. by apply Hl.
Qed.

Lemma head_of_group x l t :
  ts x = Some t → x ∈ filter (λ m, ts m = Some t) (x :: l).
Proof. intros Hx. rewrite filter_cons_True by done. left. Qed.

(** A list that is in order and keeps every group of equal timestamps
    in the order of [l] is the output of the sorter: the host's choice
    of sorting algorithm does not show. *)
Lemma stable_sorted_unique l1 l2 :
  Forall (λ m, is_Some (ts m)) l1 → Forall (λ m, is_Some (ts m)) l2 →
  StronglySorted notAfter l1 → StronglySorted notAfter l2 →
  (∀ t, filter (λ m, ts m = Some t) l1 = filter (λ m, ts m = Some t) l2) →
  l1 = l2.
Proof.
  intros Hok1 Hok2 H1. revert l2 Hok2.
  induction H1 as [|x l1 H1 IH Hx]; intros l2 Hok2 H2 Hf.
  - destruct l2 as [|y l2]; [done|].
    inversion_clear Hok2 as [|? ? [ty Hy] _].
    specialize (Hf ty). by rewrite filter_nil, filter_cons_True in Hf.
  - inversion_clear Hok1 as [|? ? [tx Htx] Hok1'].
    destruct l2 as [|y l2].
    { specialize (Hf tx). by rewrite filter_nil, filter_cons_True in Hf. }
    inversion_clear Hok2 as [|? ? [ty Hty] Hok2'].
    inversion_clear H2 as [|? ? H2' Hy].
    assert (tx = ty) as <-.
    { assert (notAfter x y) as (a & b & Ha & Hb & ?).
      { apply (notAfter_head x l1); [by eexists|done|].
        pose proof (head_of_group y l2 ty Hty) as Hin.
        rewrite <- Hf in Hin. by apply list_elem_of_filter in Hin as [_ ?]. }
      assert (notAfter y x) as (c & d & Hc & Hd & ?).
      { apply (notAfter_head y l2); [by eexists|done|].
        pose proof (head_of_group x l1 tx Htx) as Hin.
        rewrite Hf in Hin. by apply list_elem_of_filter in Hin as [_ ?]. }
      simplify_eq. lia. }
    pose proof (Hf tx) as Hh. rewrite !filter_cons_True in Hh by done.
    injection Hh as -> Hh. f_equal. apply IH; try done.
    intros t. specialize (Hf t). rewrite !filter_cons in Hf.
    destruct (decide (ts y = Some t)); [by injection Hf|done].
Qed.

(** Whatever stable sort the host runs, it returns what the model
    returns. *)
Lemma any_stable_sort_agrees (hostSort : list Memory → list Memory) l :
  Forall (λ m, is_Some (ts m)) l →
  hostSort l ≡ₚ l →
  StronglySorted notAfter (hostSort l) →
  (∀ t, filter (λ m, ts m = Some t) (hostSort l)
        = filter (λ m, ts m = Some t) l) →
  hostSort l = sorted l.
Proof.
  intros Hok Hp Hs Hf. apply stable_sorted_unique.
  - by rewrite Hp.
  - by rewrite sorted_perm.
  - done.
  - by apply sorted_sorted.
  - intros t. by rewrite Hf, sorted_stable.
Qed.

Lemma sortChronologically_mem_spec (h : gmap nat (list Memory)) memories ms :
  h !! memories = Some ms →
  ∃ out h',
    sortChronologically_mem Date_getTime memories h = Some (out, h')
    ∧ out ≠ memories
    ∧ h !! out = None
    ∧ h' !! out = Some (sorted ms)
    ∧ ∀ l, l ≠ out → h' !! l = h !! l.
Proof.
  intros Hm. unfold sortChronologically_mem, spread, sortInPlace.
  rewrite Hm. simpl.
  assert (Hfresh : h !! fresh (dom h) = None).
  { apply not_elem_of_dom, is_fresh. }
  rewrite lookup_insert_eq. simpl.
  eexists _, _. split; [done|]. repeat split.
  - intros Heq. rewrite Heq in Hfresh. congruence.
  - done.
  - by rewrite lookup_insert_eq.
  - intros l Hl. by rewrite !lookup_insert_ne.
Qed.
End Facts.
End SorterFacts.

(** ** The audio module *)

Module AudioFacts.
Import Audio.

Lemma startMusic_playing a : isPlaying a = true → startMusic a = (Returned, a).
Proof. intros H. unfold startMusic. by rewrite H. Qed.

Lemma startMusic_refused a :
  isPlaying a = false → canConstruct a = false → startMusic a = (Threw, a).
Proof. intros H1 H2. unfold startMusic. by rewrite H1, H2. Qed.

Lemma startMusic_twice a : (startMusic (startMusic a).2).2 = (startMusic a).2.
Proof.
  destruct (isPlaying a) eqn:Hp.
  { rewrite (startMusic_playing a Hp). simpl. by rewrite startMusic_playing. }
  destruct (canConstruct a) eqn:Hc.
  - assert (Hnow : isPlaying (startMusic a).2 = true).
    { unfold startMusic. by rewrite Hp, Hc. }
    by rewrite (startMusic_playing _ Hnow).
  - rewrite (startMusic_refused a Hp Hc). simpl. by rewrite startMusic_refused.
Qed.

Lemma stopMusic_inactive a : isPlaying a = false → stopMusic a = a.
Proof. intros H. unfold stopMusic. by rewrite H. Qed.

Lemma stopMusic_not_playing a : isPlaying (stopMusic a) = false ∨ stopMusic a = a.
Proof.
  unfold stopMusic.
  destruct (isPlaying a), (audioCtx a), (masterGain a); auto.
Qed.

Lemma consistent_initial allowed : consistent (initial allowed).
Proof.
  split; [done|]. split; [done|]. split; simpl.
  - intros c Hc. by rewrite lookup_empty in Hc.
  - intros t [x Hx]. by rewrite lookup_empty in Hx.
Qed.

Lemma consistent_startMusic a : consistent a → consistent (startMusic a).2.
Proof.
  intros Ha. pose proof Ha as (Hnp & Hpl & Hopen & Hfresh). unfold startMusic.
  destruct (isPlaying a) eqn:Hp; [exact Ha|].
  destruct (canConstruct a); simpl; [|exact Ha].
  split; [done|]. split; [by split; eexists|]. split; simpl.
  - intros c Hc. destruct (decide (c = nextHandle a)) as [->|Hne]; [by left|].
    rewrite lookup_insert_ne in Hc by done.
    destruct (Hopen c Hc) as [Hcur|?]; [|by right].
    rewrite Hnp in Hcur; done.
  - intros t Ht. specialize (Hfresh t Ht). lia.
Qed.

Lemma consistent_stopMusic a : consistent a → consistent (stopMusic a).
Proof.
  intros Ha. pose proof Ha as (Hnp & Hpl & Hopen & Hfresh). unfold stopMusic.
  destruct (isPlaying a) eqn:Hp; [|exact Ha].
  destruct (audioCtx a) as [ctx|] eqn:Hctx; [|exact Ha].
  destruct (masterGain a); [|exact Ha].
  assert (Hnew : teardowns a !! nextHandle a = None).
  { destruct (teardowns a !! nextHandle a) eqn:E; [|done].
    assert (nextHandle a < nextHandle a)%positive by (apply Hfresh; eauto). lia. }
  split; [done|]. split; [done|]. split; simpl.
  - intros c Hc. right. destruct (Hopen c Hc) as [Hcur|[t Ht]].
    + exists (nextHandle a). rewrite lookup_insert_eq. congruence.
    + exists t. rewrite lookup_insert_ne; [done|]. intros <-. congruence.
  - intros t Ht. destruct (decide (t = nextHandle a)) as [->|Hne]; [lia|].
    rewrite lookup_insert_ne in Ht by done. specialize (Hfresh t Ht). lia.
Qed.

Lemma consistent_step e a : consistent a → consistent (step e a).
Proof.
  intros Ha. pose proof Ha as (Hnp & Hpl & Hopen & Hfresh). destruct e as [t|iv]; simpl.
  - destruct (teardowns a !! t) as [ctx|] eqn:Ht; [|exact Ha].
    unfold teardown, dropTeardown; simpl.
    split; [done|]. split; [done|]. split; simpl.
    + intros c Hc. destruct (decide (c = ctx)) as [->|Hne].
      { by rewrite lookup_insert_eq in Hc. }
      rewrite lookup_insert_ne in Hc by done.
      destruct (Hopen c Hc) as [?|[t' Ht']]; [by left|right].
      exists t'. rewrite lookup_delete_ne; [done|]. intros <-. congruence.
    + intros t' Ht'. apply Hfresh.
      destruct (decide (t = t')) as [->|Hne].
      * by rewrite lookup_delete_eq in Ht'; destruct Ht'.
      * by rewrite lookup_delete_ne in Ht'.
  - destruct (intervals a !! iv) as [cb|]; [|exact Ha].
    unfold schedulerTick. destruct (audioCtx a) eqn:Hc; [|exact Ha].
    destruct (isPlaying a) eqn:Hp; [|exact Ha].
    split; [done|]. split; [simpl; intros _; by apply Hpl|]. by split.
Qed.

(** The fade-out is over when the teardown releases the context. *)
Lemma fade_ends_before_teardown : FADE_OUT < TEARDOWN_DELAY.
Proof. reflexivity. Qed.

Lemma consistent_apply o a : consistent a → consistent (apply o a).
Proof.
  destruct o; simpl;
    auto using consistent_startMusic, consistent_stopMusic, consistent_step.
Qed.

Lemma consistent_run ops a : consistent a → consistent (run ops a).
Proof.
  unfold run. revert a. induction ops as [|o ops IH]; intros a Ha; simpl; [done|].
  by apply IH, consistent_apply.
Qed.

Lemma NoDup_all_equal_length {A} (l : list A) (x : A) :
  NoDup l → (∀ y, y ∈ l → y = x) → (length l ≤ 1)%nat.
Proof.
  intros Hnd Hall. destruct l as [|a [|b l]]; simpl; [lia..|]. exfalso.
  apply NoDup_cons in Hnd as [Hna _]. apply Hna.
  rewrite (Hall a), (Hall b); [left|right; left|left].
Qed.

Lemma openContexts_spec a c : c ∈ openContexts a ↔ contexts a !! c = Some false.
Proof.
  unfold openContexts. rewrite list_elem_of_filter. split; [by intros [? _]|].
  intros Hc. split; [done|]. apply list_elem_of_fmap. exists (c, false).
  split; [done|]. by apply elem_of_map_to_list.
Qed.

Lemma openContexts_NoDup a : NoDup (openContexts a).
Proof. apply NoDup_filter, NoDup_fst_map_to_list. Qed.

Lemma fading_spec a c : c ∈ fading a ↔ ∃ t, teardowns a !! t = Some c.
Proof.
  unfold fading. rewrite list_elem_of_fmap. split.
  - intros ([t c'] & -> & H). exists t. by apply elem_of_map_to_list in H.
  - intros [t Ht]. exists (t, c). split; [done|]. by apply elem_of_map_to_list.
Qed.

(** Every session that exists is the current one or is fading. *)
Lemma openContexts_accounted a c :
  consistent a → c ∈ openContexts a → audioCtx a = Some c ∨ c ∈ fading a.
Proof.
  intros (_ & _ & Hopen & _) Hc%openContexts_spec.
  destruct (Hopen c Hc) as [?|Ht]; [by left|right]. by apply fading_spec.
Qed.

Lemma openContexts_bound a :
  consistent a →
  (length (openContexts a)
   ≤ (match audioCtx a with Some _ => 1 | None => 0 end) + size (teardowns a))%nat.
Proof.
  intros Ha.
  assert (Hsub : openContexts a ⊆+ option_list (audioCtx a) ++ fading a).
  { apply NoDup_submseteq; [apply openContexts_NoDup|].
    intros c Hc. apply elem_of_app.
    destruct (openContexts_accounted a c Ha Hc) as [->|?]; [left; simpl; left|by right]. }
  apply submseteq_length in Hsub. rewrite length_app in Hsub.
  unfold fading in Hsub. rewrite length_fmap, length_map_to_list in Hsub.
  by destruct (audioCtx a).
Qed.

End AudioFacts.

(** ** The playback component *)

Module PlaybackFacts.
Import Sorter Playback.

Lemma eqb_same b : eqb b b = true.
Proof. by destruct b. Qed.

Lemma sameDeps_path_refl s : sameDeps_path false s s = true.
Proof. unfold sameDeps_path. by rewrite Z.eqb_refl, eqb_same. Qed.

Lemma sameDeps_autoplay_refl l s : sameDeps_autoplay l l s s = true.
Proof. unfold sameDeps_autoplay. by rewrite !Z.eqb_refl, !eqb_same. Qed.

Lemma sameDeps_flyFirst_refl s : sameDeps_flyFirst false s s = true.
Proof. unfold sameDeps_flyFirst. by rewrite Z.eqb_refl, eqb_same. Qed.

(** A render that changes no dependency runs no effect. *)
Lemma commit_unchanged w p pl :
  st w = p → len w = pl → commit false p pl w = w.
Proof.
  intros <- <-. unfold commit. destruct (mounted w); simpl; [|done].
  by rewrite sameDeps_path_refl, sameDeps_autoplay_refl, sameDeps_flyFirst_refl.
Qed.

Lemma handle_noop (h : World → World) w : h w = w → handle h w = w.
Proof. intros Hh. unfold handle. rewrite Hh. by apply commit_unchanged. Qed.

Lemma set_st_same w : set_st (st w) w = w.
Proof. by destruct w. Qed.

Lemma update_same f w : f (st w) = st w → update f w = w.
Proof. intros Hf. unfold update. rewrite Hf, set_st_same. by destruct (mounted w). Qed.

(** *** [goNext] *)

Lemma goNext_transitioning l s : isTransitioning s = true → goNext l s = s.
Proof. intros H. unfold goNext, goNext_closure. by rewrite H. Qed.

Lemma goNext_index l s : currentIndex (goNext l s) = currentIndex s.
Proof.
  unfold goNext, goNext_closure.
  destruct (isTransitioning s); [done|]. by destruct (_ <? _).
Qed.

Lemma goNext_begins l s :
  isTransitioning s = false → currentIndex s < l - 1 →
  goNext l s = setIsTransitioning true s.
Proof.
  intros Ht Hlt. unfold goNext, goNext_closure. rewrite Ht.
  by rewrite (proj2 (Z.ltb_lt _ _) Hlt).
Qed.

Lemma goNext_at_end l s : l - 1 ≤ currentIndex s → goNext l s = s.
Proof.
  intros Hle. unfold goNext, goNext_closure.
  destruct (isTransitioning s); [done|].
  by rewrite (proj2 (Z.ltb_ge _ _) Hle).
Qed.

Lemma goNext_repeated l n s :
  isTransitioning s = true → Nat.iter n (goNext l) s = s.
Proof.
  intros Ht. induction n as [|n IH]; simpl; [done|].
  rewrite IH. by apply goNext_transitioning.
Qed.

Lemma pressNext_transitioning w :
  isTransitioning (st w) = true → step (KeyDown ArrowRight) w = w.
Proof.
  intros Ht. simpl. destruct (mounted w); [|done].
  apply handle_noop. simpl. by apply update_same, goNext_transitioning.
Qed.

Lemma clickNext_transitioning w :
  isTransitioning (st w) = true → step (Click NextButton) w = w.
Proof.
  intros Ht. simpl. destruct (offered NextButton w); [|done].
  apply handle_noop. simpl. by apply update_same, goNext_transitioning.
Qed.

(** *** The footprint of the component's code on the timer queue *)

Lemma grows_refl w : grows w w.
Proof. split; [lia|]. intros t cb H. by left. Qed.

Lemma grows_trans w1 w2 w3 : grows w1 w2 → grows w2 w3 → grows w1 w3.
Proof.
  intros [Hn1 H1] [Hn2 H2]. split; [lia|]. intros t cb H.
  destruct (H2 t cb H) as [H'|?]; [|right; lia].
  destruct (H1 t cb H') as [?|?]; [by left|right; lia].
Qed.

Lemma quiet_refl w : quiet w w.
Proof. split; [apply grows_refl|]. by repeat split. Qed.

Lemma quiet_trans w1 w2 w3 : quiet w1 w2 → quiet w2 w3 → quiet w1 w3.
Proof.
  intros (Hg1 & Hm1 & Hc1 & Hr1 & Ht1) (Hg2 & Hm2 & Hc2 & Hr2 & Ht2).
  split; [by eapply grows_trans|]. repeat split; [congruence..|].
  intros t i l tr H. by apply Ht1, Ht2.
Qed.

Lemma quiet_grows w w' : quiet w w' → grows w w'.
Proof. by intros [? _]. Qed.

(** Code that leaves the timeouts alone. *)
Lemma quiet_timeouts_same w w' :
  timeouts w' = timeouts w → (nextId w ≤ nextId w')%positive →
  mounted w' = mounted w → autoCleanup w' = autoCleanup w →
  autoPlayTimerRef w' = autoPlayTimerRef w → quiet w w'.
Proof.
  intros Ht Hn Hm Hc Hr. repeat split; try done.
  - intros t cb H. left. by rewrite <- Ht.
  - intros t i l tr H. by rewrite <- Ht.
Qed.

(** [clearTimeout]. *)
Lemma quiet_clearTimeout t w : quiet w (set_timeouts (delete t (timeouts w)) w).
Proof.
  split; [split|repeat split]; simpl; try done.
  - intros t' cb H. left. apply lookup_delete_Some in H. tauto.
  - intros t' i l tr H. apply lookup_delete_Some in H. tauto.
Qed.

(** [setTimeout] of the travel pause. *)
Lemma quiet_setTimeout_pause sid w :
  quiet w (set_timeouts (<[nextId w := TravelPause sid]> (timeouts w))
             (set_nextId (Pos.succ (nextId w)) w)).
Proof.
  split; [split|repeat split]; simpl; try done.
  - lia.
  - intros t cb H. apply lookup_insert_Some in H as [[<- _]|[_ H]]; [right; lia|by left].
  - intros t i l tr H. apply lookup_insert_Some in H as [[_ ?]|[_ H]]; done.
Qed.

Ltac quiet_same :=
  apply quiet_timeouts_same; simpl; first [reflexivity | lia].

Lemma quiet_emit o w : quiet w (emit o w).
Proof. quiet_same. Qed.

Lemma quiet_update f w : quiet w (update f w).
Proof. unfold update. destruct (mounted w) eqn:E; [quiet_same|apply quiet_refl]. Qed.

Lemma quiet_set_audio a w : quiet w (set_audio a w).
Proof. quiet_same. Qed.

Lemma quiet_set_sortedMemories l w : quiet w (set_sortedMemories l w).
Proof. quiet_same. Qed.

Lemma quiet_flyToMemory i w : quiet w (flyToMemory i w).
Proof.
  unfold flyToMemory. destruct (_ || _); [apply quiet_refl|].
  destruct (at_index _ _); [apply quiet_emit|apply quiet_refl].
Qed.

Lemma quiet_cleanupLayers w : quiet w (cleanupLayers w).
Proof. unfold cleanupLayers. destruct (rafRef w); [quiet_same|apply quiet_refl]. Qed.

Lemma quiet_pathCleanup w : quiet w (pathCleanup w).
Proof.
  unfold pathCleanup. eapply quiet_trans; [|apply quiet_cleanupLayers]. quiet_same.
Qed.

Lemma quiet_pathEffect w : quiet w (pathEffect w).2.
Proof.
  unfold pathEffect. destruct (negb (hasMap w)); [apply quiet_refl|].
  set (w1 := cleanupLayers (set_cancelRef false w)).
  assert (H1 : quiet w w1).
  { eapply quiet_trans; [|apply quiet_cleanupLayers]. quiet_same. }
  destruct (_ && _); [|done].
  destruct (at_index _ _); [|done]. destruct (at_index _ _); [|done].
  simpl. eapply quiet_trans; [exact H1|]. quiet_same.
Qed.

Lemma quiet_flyFirstEffect w : quiet w (flyFirstEffect w).
Proof.
  unfold flyFirstEffect. destruct (_ && _); [apply quiet_flyToMemory|apply quiet_refl].
Qed.

Lemma quiet_travelPause sid w : quiet w (travelPause sid w).
Proof. unfold travelPause. destruct (cancelRef w); [apply quiet_refl|quiet_same]. Qed.

Lemma quiet_onFlyEnd sid w : quiet w (onFlyEnd sid w).
Proof.
  unfold onFlyEnd. set (w1 := set_moveend _ w).
  assert (H1 : quiet w w1) by quiet_same.
  destruct (cancelRef w1); [done|].
  eapply quiet_trans; [exact H1|]. exact (quiet_setTimeout_pause sid w1).
Qed.

Lemma quiet_startJourney w : quiet w (startJourney w).
Proof.
  unfold startJourney. destruct (musicEnabled (st w)); [|apply quiet_update].
  destruct (Audio.startMusic _) as [[] a];
    (eapply quiet_trans; [apply quiet_update|]).
  - apply quiet_set_audio.
  - eapply quiet_trans; [apply quiet_set_audio|apply quiet_emit].
Qed.

Lemma quiet_goPrev w : quiet w (goPrev w).
Proof.
  unfold goPrev. destruct (isTransitioning _); [apply quiet_refl|].
  destruct (0 <? _); [|apply quiet_refl].
  eapply quiet_trans; [apply quiet_update|apply quiet_flyToMemory].
Qed.

Lemma quiet_skipToEnd w : quiet w (skipToEnd w).
Proof.
  unfold skipToEnd. destruct (isTransitioning _); [apply quiet_refl|].
  eapply quiet_trans; [apply quiet_update|].
  eapply quiet_trans; [apply quiet_flyToMemory|apply quiet_update].
Qed.

Lemma quiet_toggleMusic w : quiet w (toggleMusic w).
Proof.
  unfold toggleMusic. destruct (Audio.isMusicPlaying _).
  { eapply quiet_trans; [apply quiet_set_audio|apply quiet_update]. }
  destruct (Audio.startMusic _) as [[] a];
    (eapply quiet_trans; [apply quiet_set_audio|]);
    [apply quiet_update|apply quiet_emit].
Qed.

Lemma quiet_handleExit w : quiet w (handleExit w).
Proof.
  unfold handleExit.
  set (w1 := set_audio _ w). assert (H1 : quiet w w1) by apply quiet_set_audio.
  set (w2 := match autoPlayTimerRef w1 with Some t => _ | None => w1 end).
  assert (H2 : quiet w1 w2).
  { subst w2. destruct (autoPlayTimerRef w1); [apply quiet_clearTimeout|apply quiet_refl]. }
  eapply quiet_trans; [exact H1|]. eapply quiet_trans; [exact H2|].
  eapply quiet_trans; [|apply quiet_emit].
  destruct (hasMap w2); [apply quiet_emit|apply quiet_refl].
Qed.

Lemma quiet_onClick c w : quiet w (onClick c w).
Proof.
  destruct c; simpl; unfold toggleAutoplay;
    auto using quiet_startJourney, quiet_handleExit, quiet_goPrev, quiet_update,
      quiet_toggleMusic, quiet_skipToEnd.
Qed.

Lemma quiet_onKeyDown k w : quiet w (onKeyDown k w).
Proof.
  destruct k; simpl;
    auto using quiet_handleExit, quiet_goPrev, quiet_update, quiet_refl.
Qed.

(** *** Effects leave the render alone *)

Ltac break_branches :=
  repeat (simpl;
          match goal with
          | |- context [match ?x with _ => _ end] => destruct x eqn:?
          end).

Lemma sameRender_refl w : sameRender w w.
Proof. by repeat split. Qed.

Lemma sameRender_trans w1 w2 w3 : sameRender w1 w2 → sameRender w2 w3 → sameRender w1 w3.
Proof. intros (?&?&?&?) (?&?&?&?). repeat split; congruence. Qed.

Ltac same_render := repeat split; break_branches; done.

Lemma sameRender_pathCleanup w : sameRender w (pathCleanup w).
Proof. unfold pathCleanup, cleanupLayers. same_render. Qed.

Lemma sameRender_autoplayCleanup w : sameRender w (autoplayCleanup w).
Proof. unfold autoplayCleanup. same_render. Qed.

Lemma sameRender_pathEffect w : sameRender w (pathEffect w).2.
Proof. unfold pathEffect, cleanupLayers, freshId, emit. same_render. Qed.

Lemma sameRender_autoplayEffect w : sameRender w (autoplayEffect w).
Proof. unfold autoplayEffect, freshId. same_render. Qed.

Lemma sameRender_flyToMemory i w : sameRender w (flyToMemory i w).
Proof. unfold flyToMemory, emit. same_render. Qed.

Lemma sameRender_flyFirstEffect w : sameRender w (flyFirstEffect w).
Proof.
  unfold flyFirstEffect.
  destruct (_ && _); [apply sameRender_flyToMemory|apply sameRender_refl].
Qed.

Lemma sameRender_crash w : sameRender w (crash w).
Proof. unfold crash, autoplayCleanup, emit. same_render. Qed.

Lemma sameRender_commit m p pl w : sameRender w (commit m p pl w).
Proof.
  unfold commit. destruct (negb (mounted w)); [apply sameRender_refl|]. simpl.
  set (w1 := if _ && _ then pathCleanup w else w).
  assert (H1 : sameRender w w1).
  { subst w1. destruct (_ && _); [apply sameRender_pathCleanup|apply sameRender_refl]. }
  clearbody w1.
  set (w2 := if _ && _ then autoplayCleanup w1 else w1).
  assert (H2 : sameRender w w2).
  { eapply sameRender_trans; [exact H1|]. subst w2.
    destruct (_ && _); [apply sameRender_autoplayCleanup|apply sameRender_refl]. }
  clearbody w2.
  set (r := if sameDeps_path m p (st w) then (Returned, w2) else pathEffect w2).
  assert (H3 : sameRender w r.2).
  { eapply sameRender_trans; [exact H2|]. subst r.
    destruct (sameDeps_path _ _ _); [apply sameRender_refl|apply sameRender_pathEffect]. }
  clearbody r. destruct r as [[] w3]; simpl in H3.
  - set (w4 := if sameDeps_autoplay pl (len w) p (st w) then w3 else autoplayEffect w3).
    assert (H4 : sameRender w w4).
    { eapply sameRender_trans; [exact H3|]. subst w4.
      destruct (sameDeps_autoplay _ _ _ _); [apply sameRender_refl|apply sameRender_autoplayEffect]. }
    clearbody w4. destruct (sameDeps_flyFirst _ _ _); [done|].
    eapply sameRender_trans; [exact H4|apply sameRender_flyFirstEffect].
  - eapply sameRender_trans; [exact H3|apply sameRender_crash].
Qed.

Lemma commit_st m p pl w : st (commit m p pl w) = st w.
Proof. apply sameRender_commit. Qed.

Lemma sameRender_len w w' : sameRender w w' → len w' = len w.
Proof. intros (_ & H & _). unfold len. by rewrite H. Qed.

Lemma commit_len m p pl w : len (commit m p pl w) = len w.
Proof. apply sameRender_len, sameRender_commit. Qed.

Lemma handle_st h w : st (handle h w) = st (h w).
Proof. apply commit_st. Qed.

(** *** No stale autoplay timer *)

Lemma idsGivenOut_grows w w' : idsGivenOut w → grows w w' → idsGivenOut w'.
Proof.
  intros Hids [Hn Hg] t [cb Ht].
  destruct (Hg t cb Ht) as [H|H]; [|lia].
  assert (t < nextId w)%positive by (apply Hids; eauto). lia.
Qed.

Lemma noAutoplayTimer_quiet w w' : noAutoplayTimer w → quiet w w' → noAutoplayTimer w'.
Proof.
  intros Hno (_ & _ & _ & _ & Hq) t i l tr H. by apply (Hno t i l tr), Hq.
Qed.

Lemma scheduledFor_ids p pl w : scheduledFor p pl w → idsGivenOut w.
Proof. by intros [? _]. Qed.

Lemma scheduledFor_quiet p pl w w' : scheduledFor p pl w → quiet w w' → scheduledFor p pl w'.
Proof.
  intros [Hids Hs] Hq. split.
  { eapply idsGivenOut_grows; [exact Hids|by apply quiet_grows]. }
  destruct Hq as (_ & Hm & Hc & Hr & Hq). intros t i l tr H.
  rewrite Hm, Hc, Hr. by apply Hs, Hq.
Qed.

Lemma scheduledFor_noTimer p pl w : idsGivenOut w → noAutoplayTimer w → scheduledFor p pl w.
Proof. intros Hids Hno. split; [done|]. intros t i l tr H. by destruct (Hno t i l tr). Qed.

Lemma scheduledFor_unmounted p pl w :
  scheduledFor p pl w → mounted w = false → noAutoplayTimer w.
Proof.
  intros [_ Hs] Hm t i l tr H. destruct (Hs t i l tr H) as (Hm' & _). congruence.
Qed.

Lemma scheduledFor_sameDeps p pl s l w :
  sameDeps_autoplay pl l p s = true → scheduledFor p pl w → scheduledFor s l w.
Proof.
  unfold sameDeps_autoplay. rewrite !andb_true_iff.
  intros [[[[Hst Hau] Hix] Hl] Htr] [Hids Hs].
  apply eqb_prop in Hst, Hau, Htr. apply Z.eqb_eq in Hix, Hl.
  split; [done|]. intros t i l' tr H.
  destruct (Hs t i l' tr H) as (?&?&?&?&?&?&?&?&?&?).
  repeat split; congruence.
Qed.

(** The cleanup of the autoplay effect, when there is one, clears the
    one timer there can be. *)
Lemma autoplayCleanup_clears p pl w :
  scheduledFor p pl w →
  noAutoplayTimer (if autoCleanup w then autoplayCleanup w else w).
Proof.
  intros [_ Hs]. destruct (autoCleanup w) eqn:Hc.
  - unfold autoplayCleanup. destruct (autoPlayTimerRef w) as [r|] eqn:Hr.
    + intros t i l tr H. simpl in H. apply lookup_delete_Some in H as [Hne H].
      destruct (Hs t i l tr H) as (_ & _ & Hr' & _). congruence.
    + intros t i l tr H. destruct (Hs t i l tr H) as (_ & _ & Hr' & _). congruence.
  - intros t i l tr H. destruct (Hs t i l tr H) as (_ & Hc' & _). congruence.
Qed.

Lemma grows_autoplayCleanup w : grows w (autoplayCleanup w).
Proof.
  unfold autoplayCleanup. destruct (autoPlayTimerRef w); [|apply grows_refl].
  apply quiet_grows, quiet_clearTimeout.
Qed.

Lemma grows_cleanup_if w : grows w (if autoCleanup w then autoplayCleanup w else w).
Proof. destruct (autoCleanup w); [apply grows_autoplayCleanup|apply grows_refl]. Qed.

Lemma autoplayEffect_current w :
  idsGivenOut w → noAutoplayTimer w → mounted w = true →
  timersCurrent (autoplayEffect w).
Proof.
  intros Hids Hno Hm. unfold timersCurrent, autoplayEffect.
  destruct (_ || _) eqn:Hguard.
  { apply scheduledFor_noTimer; [done|]. intros t i l tr H. by apply (Hno t i l tr). }
  rewrite !orb_false_iff, !negb_false_iff in Hguard.
  destruct Hguard as [[[Hst Hau] Hix] Htr]. apply Z.ltb_ge in Hix.
  split; simpl.
  - intros t [cb H]. apply lookup_insert_Some in H as [[<- _]|[_ H]]; [lia|].
    assert (t < nextId w)%positive by (apply Hids; eauto). lia.
  - intros t i l tr H. apply lookup_insert_Some in H as [[<- H]|[_ H]].
    + injection H as <- <- <-. by rewrite Htr.
    + by destruct (Hno t i l tr).
Qed.

Lemma crash_current p pl w : scheduledFor p pl w → timersCurrent (crash w).
Proof.
  intros Hs. unfold timersCurrent, crash.
  pose proof (autoplayCleanup_clears _ _ _ Hs) as Hno.
  pose proof (idsGivenOut_grows _ _ (scheduledFor_ids _ _ _ Hs) (grows_cleanup_if w)) as Hids.
  set (w1 := if autoCleanup w then autoplayCleanup w else w) in *. clearbody w1.
  apply scheduledFor_noTimer; [exact Hids|exact Hno].
Qed.

(** After React has committed, the timers are those of the state on
    screen, whatever the previous render was. *)
Lemma commit_current m p pl w : scheduledFor p pl w → timersCurrent (commit m p pl w).
Proof.
  intros Hs. unfold commit. destruct (mounted w) eqn:Hm; simpl.
  2: { apply scheduledFor_noTimer; [by eapply scheduledFor_ids|].
       by eapply scheduledFor_unmounted. }
  set (w1 := if _ && _ then pathCleanup w else w).
  assert (Hq1 : quiet w w1).
  { subst w1. destruct (_ && _); [apply quiet_pathCleanup|apply quiet_refl]. }
  assert (Hr1 : sameRender w w1).
  { subst w1. destruct (_ && _); [apply sameRender_pathCleanup|apply sameRender_refl]. }
  clearbody w1.
  pose proof (scheduledFor_quiet _ _ _ _ Hs Hq1) as Hs1.
  assert (Hm1 : mounted w1 = true) by (destruct Hq1 as (_ & -> & _); done).
  destruct (sameDeps_autoplay pl (len w) p (st w)) eqn:Hauto; simpl.
  - (* the autoplay effect does not run *)
    apply (scheduledFor_sameDeps _ _ _ _ _ Hauto) in Hs1.
    set (r := if sameDeps_path m p (st w) then (Returned, w1) else pathEffect w1).
    assert (Hq : quiet w1 r.2).
    { subst r. destruct (sameDeps_path _ _ _); [apply quiet_refl|apply quiet_pathEffect]. }
    assert (Hr : sameRender w1 r.2).
    { subst r. destruct (sameDeps_path _ _ _); [apply sameRender_refl|apply sameRender_pathEffect]. }
    clearbody r. destruct r as [[] w3]; simpl in Hq, Hr.
    + pose proof (scheduledFor_quiet _ _ _ _ Hs1 Hq) as Hs3.
      pose proof (sameRender_trans _ _ _ Hr1 Hr) as Hr3.
      destruct (sameDeps_flyFirst _ _ _).
      * unfold timersCurrent. rewrite (sameRender_len _ _ Hr3), (proj1 Hr3). exact Hs3.
      * pose proof (sameRender_trans _ _ _ Hr3 (sameRender_flyFirstEffect w3)) as Hr4.
        unfold timersCurrent. rewrite (sameRender_len _ _ Hr4), (proj1 Hr4).
        eapply scheduledFor_quiet; [exact Hs3|apply quiet_flyFirstEffect].
    + eapply crash_current, scheduledFor_quiet; [exact Hs1|exact Hq].
  - (* the autoplay effect runs again: cleanup, then body *)
    pose proof (autoplayCleanup_clears _ _ _ Hs1) as Hno.
    pose proof (idsGivenOut_grows _ _ (scheduledFor_ids _ _ _ Hs1) (grows_cleanup_if w1)) as Hids.
    assert (Hm2 : mounted (if autoCleanup w1 then autoplayCleanup w1 else w1) = true).
    { destruct (autoCleanup w1); [|done]. unfold autoplayCleanup.
      by destruct (autoPlayTimerRef w1). }
    set (w2 := if autoCleanup w1 then autoplayCleanup w1 else w1) in *. clearbody w2.
    set (r := if sameDeps_path m p (st w) then (Returned, w2) else pathEffect w2).
    assert (Hq : quiet w2 r.2).
    { subst r. destruct (sameDeps_path _ _ _); [apply quiet_refl|apply quiet_pathEffect]. }
    clearbody r. destruct r as [[] w3]; simpl in Hq.
    + pose proof (noAutoplayTimer_quiet _ _ Hno Hq) as Hno3.
      pose proof (idsGivenOut_grows _ _ Hids (quiet_grows _ _ Hq)) as Hids3.
      assert (Hm3 : mounted w3 = true) by (destruct Hq as (_ & -> & _); done).
      pose proof (autoplayEffect_current w3 Hids3 Hno3 Hm3) as H4.
      destruct (sameDeps_flyFirst _ _ _); [exact H4|].
      pose proof (sameRender_flyFirstEffect (autoplayEffect w3)) as Hr4.
      unfold timersCurrent. rewrite (sameRender_len _ _ Hr4), (proj1 Hr4).
      eapply scheduledFor_quiet; [exact H4|apply quiet_flyFirstEffect].
    + apply (crash_current p pl), scheduledFor_noTimer.
      * exact (idsGivenOut_grows _ _ Hids (quiet_grows _ _ Hq)).
      * exact (noAutoplayTimer_quiet _ _ Hno Hq).
Qed.

Lemma timersCurrent_quiet w w' :
  timersCurrent w → quiet w w' → sameRender w w' → timersCurrent w'.
Proof.
  intros Hc Hq Hr. unfold timersCurrent.
  rewrite (sameRender_len _ _ Hr), (proj1 Hr). by eapply scheduledFor_quiet.
Qed.

Lemma handle_current h w : timersCurrent w → quiet w (h w) → timersCurrent (handle h w).
Proof. intros Hc Hq. apply commit_current. by eapply scheduledFor_quiet. Qed.

Lemma animate_current sid now w : timersCurrent w → timersCurrent (animate sid now w).
Proof.
  intros Hc. unfold animate. destruct (cancelRef w); [done|].
  destruct (sessions w !! sid) as [ss|]; [|done].
  set (w2 := emit _ (set_sessions _ w)).
  assert (Hc2 : timersCurrent w2).
  { apply (timersCurrent_quiet w); [done| |by repeat split].
    subst w2. eapply quiet_trans; [|apply quiet_emit]. quiet_same. }
  clearbody w2. destruct (_ <? _).
  - apply (timersCurrent_quiet w2); [done| |by repeat split]. quiet_same.
  - apply handle_current; [done|].
    eapply quiet_trans; [apply quiet_emit|apply quiet_update].
Qed.

Lemma runFrame_current now w : timersCurrent w → timersCurrent (runFrame now w).
Proof.
  unfold runFrame. generalize (merge_sort Pos.le (map_to_list (rafs w)).*1).
  intros ids. revert w. induction ids as [|r ids IH]; intros w Hc; simpl; [done|].
  apply IH. destruct (rafs w !! r); [|done].
  apply animate_current.
  apply (timersCurrent_quiet w); [done| |by repeat split]. quiet_same.
Qed.

Lemma sameRender_onFlyEnd sid w : sameRender w (onFlyEnd sid w).
Proof. unfold onFlyEnd, freshId. same_render. Qed.

Lemma fireMoveEnd_current w : timersCurrent w → timersCurrent (fireMoveEnd w).
Proof.
  unfold fireMoveEnd. generalize (moveend w).
  intros ids. revert w. induction ids as [|sid ids IH]; intros w Hc; simpl; [done|].
  apply IH. destruct (bool_decide _); [|done].
  apply (timersCurrent_quiet w); [done|apply quiet_onFlyEnd|apply sameRender_onFlyEnd].
Qed.

Lemma fireTimeout_current t w : timersCurrent w → timersCurrent (fireTimeout t w).
Proof.
  intros Hc. unfold fireTimeout. destruct (timeouts w !! t) as [cb|]; [|done].
  set (w1 := set_timeouts _ w).
  assert (Hc1 : timersCurrent w1).
  { apply (timersCurrent_quiet w); [done|apply quiet_clearTimeout|by repeat split]. }
  clearbody w1. destruct cb as [i l tr|sid].
  - apply handle_current; [done|apply quiet_update].
  - apply (timersCurrent_quiet w1); [done|apply quiet_travelPause|].
    unfold travelPause, freshId. same_render.
Qed.

Lemma unmount_current w : timersCurrent w → timersCurrent (unmount w).
Proof.
  intros Hc. unfold unmount.
  set (w1 := if hasMap w then pathCleanup w else w).
  assert (Hs1 : scheduledFor (st w) (len w) w1).
  { eapply scheduledFor_quiet; [exact Hc|]. subst w1.
    destruct (hasMap w); [apply quiet_pathCleanup|apply quiet_refl]. }
  clearbody w1.
  pose proof (autoplayCleanup_clears _ _ _ Hs1) as Hno.
  pose proof (idsGivenOut_grows _ _ (scheduledFor_ids _ _ _ Hs1) (grows_cleanup_if w1)) as Hids.
  set (w2 := if autoCleanup w1 then autoplayCleanup w1 else w1) in *. clearbody w2.
  by apply scheduledFor_noTimer.
Qed.

(** Every event keeps the autoplay timers in step with the state. *)
Lemma step_current e w : timersCurrent w → timersCurrent (step e w).
Proof.
  intros Hc. destruct e as [c|k|t|now| |e|ms|]; simpl.
  - destruct (offered c w); [|done]. apply handle_current; [done|apply quiet_onClick].
  - destruct (mounted w); [|done]. apply handle_current; [done|apply quiet_onKeyDown].
  - by apply fireTimeout_current.
  - by apply runFrame_current.
  - by apply fireMoveEnd_current.
  - apply (timersCurrent_quiet w); [done|apply quiet_set_audio|by repeat split].
  - destruct (mounted w); [|done]. apply commit_current.
    eapply scheduledFor_quiet; [exact Hc|apply quiet_set_sortedMemories].
  - destruct (mounted w); [|done]. by apply unmount_current.
Qed.

Lemma mount_current date ms map a : timersCurrent (mount date ms map a).
Proof.
  unfold mount.
  set (w0 := mkWorld _ _ _ _ _ _ _ _ _ _ _ _ _ _ _ _).
  assert (Hids0 : idsGivenOut w0).
  { intros t [cb H]. unfold w0 in H. simpl in H. by rewrite lookup_empty in H. }
  assert (Hno0 : noAutoplayTimer w0).
  { intros t i l tr H. unfold w0 in H. simpl in H. by rewrite lookup_empty in H. }
  assert (Hm0 : mounted w0 = true) by done.
  clearbody w0.
  pose proof (quiet_pathEffect w0) as Hq.
  pose proof (idsGivenOut_grows _ _ Hids0 (quiet_grows _ _ Hq)) as Hids1.
  pose proof (noAutoplayTimer_quiet _ _ Hno0 Hq) as Hno1.
  destruct (pathEffect w0) as [[] w1]; simpl in Hq, Hids1, Hno1.
  - apply (timersCurrent_quiet (autoplayEffect w1));
      [|apply quiet_flyFirstEffect|apply sameRender_flyFirstEffect].
    apply autoplayEffect_current; [done..|].
    destruct Hq as (_ & -> & _); done.
  - apply (crash_current initialState 0). by apply scheduledFor_noTimer.
Qed.

Lemma run_current es w : timersCurrent w → timersCurrent (run es w).
Proof.
  unfold run. revert w. induction es as [|e es IH]; intros w Hc; simpl; [done|].
  by apply IH, step_current.
Qed.

(** *** Timers are never rebound *)

Lemma grows_autoplayEffect w : grows w (autoplayEffect w).
Proof.
  unfold autoplayEffect. destruct (_ || _).
  { split; simpl; [lia|]. intros t cb H. by left. }
  split; simpl; [lia|]. intros t cb H.
  apply lookup_insert_Some in H as [[<- _]|[_ H]]; [right; lia|by left].
Qed.

Lemma grows_commit m p pl w : grows w (commit m p pl w).
Proof.
  unfold commit. destruct (negb (mounted w)); [apply grows_refl|]. simpl.
  set (w1 := if _ && _ then pathCleanup w else w).
  assert (H1 : grows w w1).
  { subst w1. destruct (_ && _); [apply quiet_grows, quiet_pathCleanup|apply grows_refl]. }
  clearbody w1.
  set (w2 := if _ && _ then autoplayCleanup w1 else w1).
  assert (H2 : grows w w2).
  { eapply grows_trans; [exact H1|]. subst w2.
    destruct (_ && _); [apply grows_autoplayCleanup|apply grows_refl]. }
  clearbody w2.
  set (r := if sameDeps_path m p (st w) then (Returned, w2) else pathEffect w2).
  assert (H3 : grows w r.2).
  { eapply grows_trans; [exact H2|]. subst r.
    destruct (sameDeps_path _ _ _); [apply grows_refl|apply quiet_grows, quiet_pathEffect]. }
  clearbody r. destruct r as [[] w3]; simpl in H3.
  - set (w4 := if sameDeps_autoplay pl (len w) p (st w) then w3 else autoplayEffect w3).
    assert (H4 : grows w w4).
    { eapply grows_trans; [exact H3|]. subst w4.
      destruct (sameDeps_autoplay _ _ _ _); [apply grows_refl|apply grows_autoplayEffect]. }
    clearbody w4. destruct (sameDeps_flyFirst _ _ _); [done|].
    eapply grows_trans; [exact H4|apply quiet_grows, quiet_flyFirstEffect].
  - eapply grows_trans; [exact H3|]. unfold crash.
    eapply grows_trans; [apply grows_cleanup_if|].
    set (w4 := if autoCleanup w3 then _ else _). clearbody w4.
    split; simpl; [lia|]. intros t cb H. by left.
Qed.

Lemma grows_handle h w : quiet w (h w) → grows w (handle h w).
Proof.
  intros Hq. eapply grows_trans; [by apply quiet_grows|apply grows_commit].
Qed.

Lemma grows_animate sid now w : grows w (animate sid now w).
Proof.
  unfold animate. destruct (cancelRef w); [apply grows_refl|].
  destruct (sessions w !! sid) as [ss|]; [|apply grows_refl].
  set (w2 := emit _ (set_sessions _ w)).
  assert (H2 : grows w w2).
  { apply quiet_grows. subst w2. eapply quiet_trans; [|apply quiet_emit]. quiet_same. }
  clearbody w2. eapply grows_trans; [exact H2|]. destruct (_ <? _).
  - apply quiet_grows. quiet_same.
  - apply grows_handle. eapply quiet_trans; [apply quiet_emit|apply quiet_update].
Qed.

Lemma grows_runFrame now w : grows w (runFrame now w).
Proof.
  unfold runFrame. generalize (merge_sort Pos.le (map_to_list (rafs w)).*1).
  intros ids. generalize (grows_refl w). generalize w at 1 3 as w0.
  intros w0. revert w. induction ids as [|r ids IH]; intros w Hg; simpl; [done|].
  apply IH. eapply grows_trans; [exact Hg|].
  destruct (rafs w !! r); [|apply grows_refl].
  eapply grows_trans; [|apply grows_animate]. apply quiet_grows. quiet_same.
Qed.

Lemma grows_fireMoveEnd w : grows w (fireMoveEnd w).
Proof.
  unfold fireMoveEnd. generalize (moveend w).
  intros ids. generalize (grows_refl w). generalize w at 1 3 as w0.
  intros w0. revert w. induction ids as [|sid ids IH]; intros w Hg; simpl; [done|].
  apply IH. eapply grows_trans; [exact Hg|].
  destruct (bool_decide _); [apply quiet_grows, quiet_onFlyEnd|apply grows_refl].
Qed.

Lemma grows_fireTimeout t w : grows w (fireTimeout t w).
Proof.
  unfold fireTimeout. destruct (timeouts w !! t) as [cb|]; [|apply grows_refl].
  eapply grows_trans; [apply quiet_grows, (quiet_clearTimeout t)|].
  destruct cb as [i l tr|sid].
  - apply grows_handle, quiet_update.
  - apply quiet_grows, quiet_travelPause.
Qed.

Lemma grows_unmount w : grows w (unmount w).
Proof.
  unfold unmount.
  set (w1 := if hasMap w then pathCleanup w else w).
  assert (H1 : grows w w1).
  { subst w1. destruct (hasMap w); [apply quiet_grows, quiet_pathCleanup|apply grows_refl]. }
  clearbody w1. eapply grows_trans; [exact H1|].
  eapply grows_trans; [apply grows_cleanup_if|].
  set (w2 := if autoCleanup w1 then _ else _). clearbody w2.
  split; simpl; [lia|]. intros t cb H. by left.
Qed.

Lemma grows_step e w : grows w (step e w).
Proof.
  destruct e as [c|k|t|now| |e|ms|]; simpl.
  - destruct (offered c w); [|apply grows_refl]. apply grows_handle, quiet_onClick.
  - destruct (mounted w); [|apply grows_refl]. apply grows_handle, quiet_onKeyDown.
  - apply grows_fireTimeout.
  - apply grows_runFrame.
  - apply grows_fireMoveEnd.
  - apply quiet_grows, quiet_set_audio.
  - destruct (mounted w); [|apply grows_refl].
    eapply grows_trans; [apply quiet_grows, quiet_set_sortedMemories|apply grows_commit].
  - destruct (mounted w); [|apply grows_refl]. apply grows_unmount.
Qed.

(** An event that changes what the autoplay effect depends on leaves no
    timer of the old schedule behind. *)
Lemma step_cancels_stale e w t i l tr :
  timersCurrent w →
  timeouts w !! t = Some (AutoplayTick i l tr) →
  scheduleInputs (step e w) ≠ scheduleInputs w →
  timeouts (step e w) !! t = None.
Proof.
  intros Hc Ht Hne.
  destruct (timeouts (step e w) !! t) as [cb|] eqn:Ht'; [exfalso|done].
  pose proof (step_current e w Hc) as Hc'.
  destruct (grows_step e w) as [_ Hg].
  destruct (Hg t cb Ht') as [Hold|Hnew].
  - rewrite Ht in Hold. injection Hold as <-.
    destruct Hc as [_ Hs]. destruct (Hs t i l tr Ht) as (_&_&_&Hi&Hl&_&H1&H2&H3&_).
    destruct Hc' as [_ Hs']. destruct (Hs' t i l tr Ht') as (_&_&_&Hi'&Hl'&_&H1'&H2'&H3'&_).
    apply Hne. unfold scheduleInputs. congruence.
  - destruct Hc as [Hids _].
    assert (t < nextId w)%positive by (apply Hids; eauto). lia.
Qed.

(** *** A segment from start to completion *)

Lemma noPause_delete t w : noPause w → noPause (set_timeouts (delete t (timeouts w)) w).
Proof. unfold noPause. simpl. apply map_Forall_delete. Qed.

#[local] Arguments len !_ /.
#[local] Arguments emit _ !_ /.
#[local] Arguments freshId !_ /.
#[local] Arguments update _ !_ /.
#[local] Arguments cleanupLayers !_ /.
#[local] Arguments pathCleanup !_ /.
#[local] Arguments autoplayCleanup !_ /.
#[local] Arguments pathEffect !_ /.
#[local] Arguments autoplayEffect !_ /.
#[local] Arguments flyToMemory _ !_ /.
#[local] Arguments flyFirstEffect !_ /.
#[local] Arguments commit _ _ _ !_ /.
#[local] Arguments handle _ !_ /.
#[local] Arguments crash !_ /.
#[local] Arguments sameDeps_path _ !_ !_ /.
#[local] Arguments sameDeps_autoplay _ _ !_ !_ /.
#[local] Arguments sameDeps_flyFirst _ !_ !_ /.

Lemma completions_app tr1 tr2 :
  completions (tr1 ++ tr2) = completions tr1 ++ completions tr2.
Proof. apply omap_app. Qed.

(** Side conditions on a world written out field by field. *)
Ltac settle_ids Hids :=
  eapply idsGivenOut_grows; [exact Hids|]; split; simpl; [lia|];
  let H := fresh in
  intros ? ? H; simpl in H;
  repeat (apply lookup_delete_Some in H as [_ H]);
  first [ by left
        | apply lookup_insert_Some in H as [[<- _]|[_ H]];
          [right; lia|
           repeat (apply lookup_delete_Some in H as [_ H]); by left] ].

Ltac settle_noPause Hnp :=
  unfold noPause in *; simpl in *; rewrite ?delete_insert_eq;
  repeat first [ apply map_Forall_delete
               | apply map_Forall_insert_2; [done|] ];
  exact Hnp.

Ltac settle Hids Hnp :=
  first [ done | lia
        | by (eexists; split; [apply lookup_insert_eq|])
        | by rewrite ?completions_app; simpl; rewrite ?app_nil_r
        | settle_ids Hids
        | settle_noPause Hnp ].

Lemma at_index_in_range {A} (l : list A) i :
  0 ≤ i < Z.of_nat (length l) → ∃ x, at_index l i = Some x.
Proof.
  intros [H0 H1]. unfold at_index. rewrite (proj2 (Z.ltb_ge _ _) H0).
  apply lookup_lt_is_Some. lia.
Qed.

Lemma goNext_takes_off i done w :
  arrived i done w → 0 ≤ i < len w - 1 →
  flying (nextId w) i done (step (KeyDown ArrowRight) w).
Proof.
  intros (Hm & Hmap & Htr & Hi & Hids & Hme & Hraf & Hnp & Hdone) Hrange.
  destruct (at_index_in_range (sortedMemories w) i) as [from Hfrom].
  { unfold len in Hrange. lia. }
  destruct (at_index_in_range (sortedMemories w) (i + 1)) as [to Hto].
  { unfold len in Hrange. lia. }
  destruct w as [date sorted map mnt [idx auto mus started trans] tref cref rref acl nid
                 touts rfs mes sess aud tr].
  simpl in *. subst.
  unfold onKeyDown, goNext, goNext_closure. simpl.
  rewrite (proj2 (Z.ltb_lt _ _) (proj2 Hrange)). simpl.
  rewrite !Z.eqb_refl, !eqb_same. simpl.
  destruct rref, acl, tref; simpl.
  all: rewrite (proj2 (Z.ltb_lt _ _) (proj2 Hrange)), Hfrom, Hto; simpl.
  all: rewrite ?delete_empty, ?orb_true_r; simpl.
  all: repeat split; simpl; settle Hids Hnp.
Qed.

Lemma moveEnd_starts_pause sid i done w :
  flying sid i done w → pausing sid (nextId w) i done (step MoveEnd w).
Proof.
  intros ((Hm & Hmap & Hcr & Htr & Hi & Hrange & Hids & (ss & Hss & Hst) & Hdone)
          & Hme & Hraf & Hnp).
  destruct w as [date sorted map mnt [idx auto mus started trans] tref cref rref acl nid
                 touts rfs mes sess aud tr].
  simpl in *. subst. unfold fireMoveEnd. simpl.
  rewrite bool_decide_eq_true_2 by left.
  unfold onFlyEnd. simpl. rewrite filter_cons_False, filter_nil by (intros H; by apply H).
  simpl. rewrite ?delete_insert_eq.
  repeat split; simpl; try apply lookup_insert_eq; try (by eexists); settle Hids Hnp.
Qed.

Lemma pause_starts_ticking sid tp i done w :
  pausing sid tp i done w → ticking sid None i done (step (TimeoutFires tp) w).
Proof.
  intros ((Hm & Hmap & Hcr & Htr & Hi & Hrange & Hids & (ss & Hss & Hst) & Hdone)
          & Hme & Hraf & Htp & Hnp).
  destruct w as [date sorted map mnt [idx auto mus started trans] tref cref rref acl nid
                 touts rfs mes sess aud tr].
  simpl in *. subst. unfold fireTimeout. simpl. rewrite Htp.
  unfold travelPause. simpl. rewrite insert_empty.
  repeat split; simpl; try (by eexists); settle Hids Hnp.
Qed.

Lemma runFrame_single r sid now w :
  rafs w = {[r := sid]} →
  runFrame now w = animate sid now (set_rafs ∅ w).
Proof.
  intros Hr. unfold runFrame. rewrite Hr, map_to_list_singleton. simpl.
  rewrite Hr, lookup_singleton_eq. by rewrite delete_singleton_eq.
Qed.

Lemma frame_ticks sid start i done now w :
  ticking sid start i done w → now - default now start < ANIM_DURATION →
  ticking sid (Some (default now start)) i done (step (AnimationFrame now) w).
Proof.
  intros ((Hm & Hmap & Hcr & Htr & Hi & Hrange & Hids & (ss & Hss & Hst) & Hdone)
          & Hme & (r & Hraf) & Hnp) Hearly.
  simpl. rewrite (runFrame_single r sid now w Hraf).
  destruct w as [date sorted map mnt [idx auto mus started trans] tref cref rref acl nid
                 touts rfs mes sess aud tr].
  simpl in *. subst. unfold animate. simpl. rewrite Hss. simpl.
  rewrite Z.min_l by lia.
  rewrite (proj2 (Z.ltb_lt _ _) Hearly). simpl. rewrite insert_empty.
  repeat split; simpl; try (by eexists); settle Hids Hnp.
Qed.

Lemma frame_completes sid start i done now w :
  ticking sid start i done w → ANIM_DURATION ≤ now - default now start →
  arrived (i + 1) (done ++ [sid]) (step (AnimationFrame now) w).
Proof.
  intros ((Hm & Hmap & Hcr & Htr & Hi & Hrange & Hids & (ss & Hss & Hst) & Hdone)
          & Hme & (r & Hraf) & Hnp) Hlate.
  simpl. rewrite (runFrame_single r sid now w Hraf).
  destruct w as [date sorted map mnt [idx auto mus started trans] tref cref rref acl nid
                 touts rfs mes sess aud tr].
  simpl in *. subst. unfold animate. simpl. rewrite Hss. simpl.
  rewrite Z.min_r by lia. rewrite Z.ltb_irrefl. simpl.
  assert (Hne : (i =? i + 1) = false) by (apply Z.eqb_neq; lia).
  assert (Hnz : (i + 1 =? 0) = false) by (apply Z.eqb_neq; lia).
  assert (Hnn : (i + 1 <? 0) = false) by (apply Z.ltb_ge; lia).
  rewrite ?Hne, ?andb_false_r. simpl.
  destruct rref, acl, tref, started, auto; simpl;
    repeat (rewrite ?Hne, ?Hnz, ?Hnn, ?andb_false_r, ?delete_empty; simpl).
  all: repeat split; simpl; settle Hids Hnp.
Qed.

Lemma nextPress_transitioning e w :
  nextPress e → isTransitioning (st w) = true → step e w = w.
Proof.
  intros [He|[He|He]] Ht; subst e.
  - by apply pressNext_transitioning.
  - simpl. destruct (mounted w); [|done].
    apply handle_noop. simpl. by apply update_same, goNext_transitioning.
  - by apply clickNext_transitioning.
Qed.

Lemma presses_transitioning es w :
  Forall nextPress es → isTransitioning (st w) = true → run es w = w.
Proof.
  intros Hes Ht. unfold run. induction Hes as [|e es He _ IH]; simpl; [done|].
  by rewrite (nextPress_transitioning e w He Ht).
Qed.

Lemma drawing_continues sid t0 i done es w :
  ticking sid (Some t0) i done w → Forall (whileDrawing t0) es →
  ticking sid (Some t0) i done (run es w).
Proof.
  intros Ht Hes. revert w Ht. unfold run.
  induction Hes as [|e es He _ IH]; intros w Ht; simpl; [done|].
  apply IH. destruct He as [Hp|(t & -> & Hearly)].
  - rewrite (nextPress_transitioning e w Hp); [done|]. apply Ht.
  - by apply (frame_ticks sid (Some t0) i done t w).
Qed.

(** One segment, from the press of "next" to the completion signal, with
    any number of further presses on the way. *)
Lemma segment_runs_to_completion w i done p1 p2 p3 t0 es tf :
  arrived i done w → 0 ≤ i < len w - 1 →
  Forall nextPress p1 → Forall nextPress p2 → Forall nextPress p3 →
  Forall (whileDrawing t0) es → ANIM_DURATION ≤ tf - t0 →
  let w1 := run p1 (step (KeyDown ArrowRight) w) in
  let w2 := run p2 (step MoveEnd w1) in
  let w3 := run p3 (step (TimeoutFires (nextId w1)) w2) in
  let w4 := run es (step (AnimationFrame t0) w3) in
  let w5 := step (AnimationFrame tf) w4 in
  (∀ v, v ∈ [w1; w2; w3; w4] →
        currentIndex (st v) = i ∧ isTransitioning (st v) = true
        ∧ completions (trace v) = done)
  ∧ currentIndex (st w5) = i + 1 ∧ isTransitioning (st w5) = false
  ∧ completions (trace w5) = done ++ [nextId w].
Proof.
  intros Harr Hrange Hp1 Hp2 Hp3 Hes Hlate w1 w2 w3 w4 w5.
  pose proof (goNext_takes_off i done w Harr Hrange) as H1.
  assert (E1 : w1 = step (KeyDown ArrowRight) w).
  { apply presses_transitioning; [done|]. apply H1. }
  rewrite <- E1 in H1.
  pose proof (moveEnd_starts_pause _ _ _ _ H1) as H2.
  assert (E2 : w2 = step MoveEnd w1).
  { apply presses_transitioning; [done|]. apply H2. }
  rewrite <- E2 in H2.
  pose proof (pause_starts_ticking _ _ _ _ _ H2) as H3.
  assert (E3 : w3 = step (TimeoutFires (nextId w1)) w2).
  { apply presses_transitioning; [done|]. apply H3. }
  rewrite <- E3 in H3.
  pose proof (frame_ticks _ None _ _ t0 _ H3) as H4. simpl in H4.
  assert (H4' : ticking (nextId w) (Some t0) i done (step (AnimationFrame t0) w3)).
  { apply H4. unfold ANIM_DURATION. lia. }
  pose proof (drawing_continues _ _ _ _ es _ H4' Hes) as H5. fold w4 in H5.
  pose proof (frame_completes _ _ _ _ tf _ H5 Hlate) as H6. fold w5 in H6.
  split; [|repeat split; apply H6].
  intros v Hv. repeat (apply elem_of_cons in Hv as [->|Hv]).
  - destruct H1 as [(_&_&_&?&?&_&_&_&?) _]. done.
  - destruct H2 as [(_&_&_&?&?&_&_&_&?) _]. done.
  - destruct H3 as [(_&_&_&?&?&_&_&_&?) _]. done.
  - destruct H5 as [(_&_&_&?&?&_&_&_&?) _]. done.
  - by apply elem_of_nil in Hv.
Qed.

(** *** What the autoplay timer does when it fires *)

Lemma fire_at_end t i l tr w :
  timersCurrent w → timeouts w !! t = Some (AutoplayTick i l tr) →
  len w - 1 ≤ currentIndex (st w) →
  st (step (TimeoutFires t) w) = setIsAutoPlaying false (st w).
Proof.
  intros [_ Hs] Ht Hend. destruct (Hs t i l tr Ht) as (Hm & _ & _ & -> & -> & _).
  simpl. unfold fireTimeout. rewrite Ht. rewrite handle_st.
  unfold update. simpl. rewrite Hm. simpl. unfold autoplayFire.
  by rewrite (proj2 (Z.ltb_ge _ _) Hend).
Qed.

Lemma fire_is_goNext t i l tr w :
  timersCurrent w → timeouts w !! t = Some (AutoplayTick i l tr) →
  currentIndex (st w) < len w - 1 →
  step (TimeoutFires t) w = step (KeyDown ArrowRight) w.
Proof.
  intros [_ Hs] Ht Hnext.
  destruct (Hs t i l tr Ht) as (Hm & Hc & Hr & -> & -> & -> & Hst & Hau & Htr & H0).
  simpl. unfold fireTimeout. rewrite Ht, Hm.
  destruct w as [date sorted map mnt [idx auto mus started trans] tref cref rref acl nid
                 touts rfs mes sess aud tr].
  simpl in *. subst.
  unfold onKeyDown, autoplayFire, goNext, goNext_closure. simpl.
  rewrite (proj2 (Z.ltb_lt _ _) Hnext). simpl.
  rewrite !Z.eqb_refl. simpl.
  destruct map, rref; simpl; by rewrite ?delete_delete_eq.
Qed.

(** *** [goPrev] *)

Lemma at_index_Some_range {A} (l : list A) i x :
  at_index l i = Some x → 0 ≤ i < Z.of_nat (length l).
Proof.
  unfold at_index. destruct (Z.ltb_spec i 0) as [|Hi]; [done|].
  intros Hx%lookup_lt_Some. lia.
Qed.

Lemma goPrev_blocked w :
  isTransitioning (st w) = true ∨ currentIndex (st w) ≤ 0 →
  goPrev w = w ∧ step (KeyDown ArrowLeft) w = w.
Proof.
  intros H.
  assert (Hg : goPrev w = w).
  { unfold goPrev. destruct H as [->|Hle]; [done|].
    destruct (isTransitioning (st w)); [done|].
    by rewrite (proj2 (Z.ltb_ge _ _) Hle). }
  split; [done|]. simpl. destruct (mounted w); [|done]. by apply handle_noop.
Qed.

Lemma goPrev_steps_back w m :
  mounted w = true → isTransitioning (st w) = false → 0 < currentIndex (st w) →
  at_index (sortedMemories w) (currentIndex (st w) - 1) = Some m →
  let w' := step (KeyDown ArrowLeft) w in
  st (goPrev w) = setCurrentIndex (currentIndex (st w) - 1) (st w)
  ∧ st w' = setCurrentIndex (currentIndex (st w) - 1) (st w)
  ∧ sessions w' = sessions w ∧ moveend w' = moveend w
  ∧ (∀ t s, timeouts w' !! t = Some (TravelPause s) →
            timeouts w !! t = Some (TravelPause s))
  ∧ (∀ r s, rafs w' !! r = Some s → rafs w !! r = Some s)
  ∧ ∃ k, trace w' = trace w ++ replicate k (CameraFlyTo (lat m) (lng m) TRAVEL_ZOOM 2000)
         ∧ (hasMap w = true → (1 ≤ k)%nat) ∧ (hasMap w = false → k = 0%nat).
Proof.
  intros Hm Htr Hpos Hat.
  pose proof (at_index_Some_range _ _ _ Hat) as Hrange.
  destruct w as [date sorted map mnt [idx auto mus started trans] tref cref rref acl nid
                 touts rfs mes sess aud tr].
  simpl in *. subst. unfold onKeyDown, goPrev. simpl.
  rewrite (proj2 (Z.ltb_lt _ _) Hpos). simpl.
  assert (H1 : (idx - 1 <? 0) = false) by (apply Z.ltb_ge; lia).
  assert (H2 : (Z.of_nat (length sorted) <=? idx - 1) = false) by (apply Z.leb_gt; lia).
  assert (H3 : (idx =? idx - 1) = false) by (apply Z.eqb_neq; lia).
  assert (H4 : idx - 1 = 0 → (Z.of_nat (length sorted) <=? 0) = false
                             ∧ at_index sorted 0 = Some m).
  { intros E. rewrite E in *. split; [apply Z.leb_gt; lia|done]. }
  destruct (idx - 1 =? 0) eqn:H7;
    [destruct (H4 (proj1 (Z.eqb_eq _ _) H7)) as [H5 H6]|]; clear H4.
  all: destruct map, rref, acl, tref, started, auto; simpl;
    repeat (rewrite ?H1, ?H2, ?H3, ?H5, ?H6, ?H7, ?Hat, ?andb_false_r; simpl).
  all: repeat split; simpl; try done.
  all: try (intros t s H; simpl in H;
            repeat (apply lookup_insert_Some in H as [[_ H]|[_ H]]; [done|]);
            repeat (apply lookup_delete_Some in H as [_ H]); done).
  all: first [ by (exists 1%nat; split; [|split]; [reflexivity|intros; lia|done])
             | by (exists 2%nat; rewrite <- app_assoc;
                   split; [|split]; [reflexivity|intros; lia|done])
             | by (exists 0%nat; simpl; rewrite app_nil_r;
                   split; [|split]; [reflexivity|done|done]) ].
Qed.


(** *** The empty timeline *)

Lemma idleOnEmpty_mount date map a : idleOnEmpty a (mount date [] map a).
Proof. unfold mount. destruct map; simpl; by repeat split. Qed.

Lemma idleOnEmpty_step a e w :
  Audio.isPlaying a = false → ownEvent e →
  idleOnEmpty a w → idleOnEmpty a (step e w).
Proof.
  intros Ha He (Hs & Hst & Hau & Hto & Hrf & Hme & Hcl & Href).
  destruct w as [date sorted map mnt s tref cref rref acl nid
                 touts rfs mes sess aud tr].
  simpl in *. subst.
  destruct e as [c|k|t|now| |e|ms|]; simpl; try done.
  - unfold offered. simpl. rewrite andb_false_r. by repeat split.
  - destruct mnt; [|by repeat split].
    destruct k; unfold handleExit; simpl;
      rewrite ?(AudioFacts.stopMusic_inactive a Ha); simpl;
      destruct map; simpl; by repeat split.
  - destruct mnt; [|by repeat split]. unfold unmount. simpl.
    destruct map, rref; simpl; rewrite ?delete_empty; by repeat split.
Qed.

Lemma idleOnEmpty_run a es w :
  Audio.isPlaying a = false → Forall ownEvent es →
  idleOnEmpty a w → idleOnEmpty a (run es w).
Proof.
  intros Ha Hes. revert w. unfold run.
  induction Hes as [|e es He _ IH]; intros w Hw; simpl; [done|].
  by apply IH, idleOnEmpty_step.
Qed.

(** *** [toggleMusic] *)

(** With the host willing and [musicEnabled] in step with the module,
    two toggles bring both flags back. *)
Lemma toggleMusic_twice w :
  mounted w = true → Audio.consistent (audio w) →
  Audio.canConstruct (audio w) = true →
  musicEnabled (st w) = Audio.isMusicPlaying (audio w) →
  let w2 := toggleMusic (toggleMusic w) in
  musicEnabled (st w2) = musicEnabled (st w)
  ∧ Audio.isMusicPlaying (audio w2) = Audio.isMusicPlaying (audio w).
Proof.
  intros Hm (_ & Hpl & _) Hcan Hsync.
  destruct w as [date sorted map mnt [idx auto mus started trans] tref cref rref acl nid
                 touts rfs mes sess [ctx gain playing timer can nh ctxs ivs tds acts] tr].
  unfold Audio.isMusicPlaying in *. simpl in *. subst mnt can mus.
  destruct playing.
  - destruct (Hpl eq_refl) as [[c ->] [g ->]].
    unfold toggleMusic, Audio.isMusicPlaying, Audio.stopMusic, Audio.startMusic.
    by simpl.
  - unfold toggleMusic, Audio.isMusicPlaying, Audio.stopMusic, Audio.startMusic.
    by simpl.
Qed.

(** *** After the unmount *)

Lemma unmount_tears_down w :
  mounted w = true → hasMap w = true → tornDown (step Unmount w).
Proof.
  intros Hm Hmap. simpl. rewrite Hm. unfold unmount. rewrite Hmap.
  destruct w as [date sorted map mnt s tref cref rref acl nid
                 touts rfs mes sess aud tr].
  simpl in *. destruct rref, acl, tref; simpl; by split.
Qed.

(** Once torn down, whatever callback the host still runs finds the flag
    up: no tick, no completion signal, no change of state. *)
Lemma tornDown_step e w :
  tornDown w →
  tornDown (step e w) ∧ st (step e w) = st w ∧ trace (step e w) = trace w.
Proof.
  intros [Hm Hc].
  destruct e as [c|k|t|now| |e|ms|]; simpl.
  - unfold offered. by rewrite Hm.
  - by rewrite Hm.
  - unfold fireTimeout. destruct (timeouts w !! t) as [[i l tr|sid]|]; [| |done].
    + destruct w as [date sorted map mnt s tref cref rref acl nid
                     touts rfs mes sess aud tr0].
      simpl in *. subst. simpl. by repeat split.
    + unfold travelPause. simpl. rewrite Hc. by repeat split.
  - unfold runFrame. generalize (merge_sort Pos.le (map_to_list (rafs w)).*1).
    intros ids.
    assert (H : ∀ v, tornDown v ∧ st v = st w ∧ trace v = trace w →
      let v' := foldl (λ w r, match rafs w !! r with
                              | Some sid => animate sid now (set_rafs (delete r (rafs w)) w)
                              | None => w
                              end) v ids in
      tornDown v' ∧ st v' = st w ∧ trace v' = trace w).
    { induction ids as [|r ids IH]; intros v Hv; simpl; [done|].
      apply IH. destruct Hv as ([Hvm Hvc] & Hvs & Hvt).
      destruct (rafs v !! r); [|done].
      unfold animate. simpl. rewrite Hvc. by repeat split. }
    by apply H.
  - unfold fireMoveEnd. generalize (moveend w). intros ids.
    assert (H : ∀ v, tornDown v ∧ st v = st w ∧ trace v = trace w →
      let v' := foldl (λ w sid, if bool_decide (sid ∈ moveend w)
                                then onFlyEnd sid w else w) v ids in
      tornDown v' ∧ st v' = st w ∧ trace v' = trace w).
    { induction ids as [|sid ids IH]; intros v Hv; simpl; [done|].
      apply IH. destruct Hv as ([Hvm Hvc] & Hvs & Hvt).
      destruct (bool_decide _); [|done].
      unfold onFlyEnd. simpl. rewrite Hvc. by repeat split. }
    by apply H.
  - by repeat split.
  - by rewrite Hm.
  - by rewrite Hm.
Qed.

Lemma tornDown_run es w :
  tornDown w → tornDown (run es w) ∧ st (run es w) = st w ∧ trace (run es w) = trace w.
Proof.
  unfold run. revert w. induction es as [|e es IH]; intros w Hw; simpl; [done|].
  destruct (tornDown_step e w Hw) as (Ht & Hs & Htr).
  destruct (IH _ Ht) as (Ht' & Hs' & Htr'). repeat split; try apply Ht'; congruence.
Qed.

Lemma idsGivenOut_check w :
  map_Forall (λ t _, (t < nextId w)%positive) (timeouts w) → idsGivenOut w.
Proof. intros H t [cb Ht]. by apply (H t cb). Qed.

End PlaybackFacts.

(** ** The locations *)

Module LocationsFacts.
Import Locations.

Lemma find_none_iff {A} (f : A → bool) (l : list A) :
  (∀ x, x ∈ l → f x = false) → List.find f l = None.
Proof.
  induction l as [|y l IH]; intros H; [done|]. simpl.
  rewrite (H y) by left. apply IH. intros x Hx. apply H. by right.
Qed.

Lemma findLocation_unknown k :
  (∀ l, l ∈ SG_LOCATIONS → key l ≠ k) → findLocation k = None.
Proof.
  intros H. apply find_none_iff. intros l Hl.
  apply String.eqb_neq. by apply H.
Qed.

Lemma table_names :
  Forall (λ l, getLocationName (key l) = name l
               ∧ locationName (Some (key l)) = name l) SG_LOCATIONS.
Proof. repeat constructor. Qed.

Lemma replaceHyphens_length s : String.length (replaceHyphens s) = String.length s.
Proof. induction s as [|c s IH]; simpl; congruence. Qed.

Lemma replaceHyphens_get s i :
  String.get i (replaceHyphens s)
  = (λ c, if Ascii.eqb c "-" then " "%char else c) <$> String.get i s.
Proof.
  revert i. induction s as [|c s IH]; intros i; [done|].
  destruct i as [|i]; simpl; [done|apply IH].
Qed.

Lemma replaceHyphens_none s :
  (∀ i, String.get i s ≠ Some "-"%char) → replaceHyphens s = s.
Proof.
  induction s as [|c s IH]; intros H; [done|]. simpl.
  destruct (Ascii.eqb_spec c "-") as [->|_].
  - by specialize (H 0%nat).
  - f_equal. apply IH. intros i. apply (H (S i)).
Qed.

Lemma orElse_name (l : SGLocation) b :
  name l ≠ ""%string → orElse (name <$> Some l) b = name l.
Proof.
  intros H. unfold orElse. simpl.
  by destruct (String.eqb_spec (name l) "").
Qed.

End LocationsFacts.

(** ** The photos of a record *)

Module PhotosFacts.
Import Photos.

Lemma getMemoryImages_nonempty m : getMemoryImages m ≠ [].
Proof.
  unfold getMemoryImages. destruct (imageDataUrls m) as [[|u us]|]; done.
Qed.

Lemma rem_in_range x n : 0 ≤ x → 0 < n → 0 ≤ Z.rem x n < n.
Proof. intros Hx Hn. rewrite Z.rem_mod_nonneg by lia. by apply Z.mod_pos_bound. Qed.

End PhotosFacts.

(** ** The slideshow of the timeline card *)

Module TimelineCardFacts.
Import TimelineCard.

Lemma runCleanup_empty c :
  (∀ t, is_Some (intervals c !! t) → cleanup c = Some t) →
  intervals (runCleanup c) = ∅.
Proof.
  intros Hi. unfold runCleanup. apply map_eq. intros t'. rewrite lookup_empty.
  destruct (cleanup c) as [t|] eqn:E; simpl.
  - destruct (decide (t = t')) as [->|Hne]; [by rewrite lookup_delete_eq|].
    rewrite lookup_delete_ne by done.
    destruct (intervals c !! t') as [n|] eqn:E'; [|done].
    specialize (Hi t' (mk_is_Some _ _ E')). congruence.
  - destruct (intervals c !! t') as [n|] eqn:E'; [|done].
    specialize (Hi t' (mk_is_Some _ _ E')). congruence.
Qed.

Lemma card_coherent_effect c :
  intervals c = ∅ → mounted c = true → coherent (effect c).
Proof.
  intros He Hm. unfold effect, length_of, coherent.
  destruct (Z.leb_spec (Z.of_nat (length (images c))) 1) as [Hle|Hlt]; simpl.
  - intros t n. by rewrite He, lookup_empty.
  - intros t n. rewrite He.
    intros [[<- <-]|[_ H]]%lookup_insert_Some; [|by rewrite lookup_empty in H].
    by repeat split.
Qed.

Lemma card_coherent_tracked c t : coherent c → is_Some (intervals c !! t) → cleanup c = Some t.
Proof. intros H [n Hn]. by destruct (H t n Hn). Qed.

Lemma card_coherent_step e c : coherent c → coherent (step e c).
Proof.
  intros H. destruct e as [t|imgs|]; simpl.
  - destruct (intervals c !! t) as [n|]; [|done].
    unfold tick. destruct (mounted c) eqn:Hm; [|done].
    intros t' n' Ht'. destruct (H t' n' Ht') as (? & ? & ? & ?). by repeat split.
  - destruct (mounted c) eqn:Hm; [|done].
    set (c1 := mkCard imgs _ _ _ _ _).
    destruct (Z.eqb_spec (length_of c1) (length_of c)) as [Heq|Hne].
    + intros t n Ht. destruct (H t n Ht) as (? & ? & ? & ?).
      repeat split; try done. congruence.
    + apply card_coherent_effect.
      * apply runCleanup_empty. intros t. apply (card_coherent_tracked c t H).
      * unfold runCleanup. by destruct (cleanup c1).
  - destruct (mounted c) eqn:Hm; [|done].
    intros t n. simpl. rewrite runCleanup_empty, lookup_empty; [done|].
    intros t'. apply (card_coherent_tracked c t' H).
Qed.

Lemma card_coherent_mount m : coherent (mount m).
Proof. by apply card_coherent_effect. Qed.

Lemma card_coherent_run es c : coherent c → coherent (run es c).
Proof.
  revert c. induction es as [|e es IH]; intros c H; [done|].
  apply IH. by apply card_coherent_step.
Qed.

Lemma effect_photoIndex c : photoIndex (effect c) = photoIndex c.
Proof. unfold effect. by destruct (_ <=? _). Qed.

Lemma effect_images c : images (effect c) = images c.
Proof. unfold effect. by destruct (_ <=? _). Qed.

Lemma runCleanup_same c :
  photoIndex (runCleanup c) = photoIndex c ∧ images (runCleanup c) = images c.
Proof. unfold runCleanup. by destruct (cleanup c). Qed.

Lemma card_inRange_step e c :
  sameRecord e → coherent c → inRange c → inRange (step e c) ∧ images (step e c) = images c.
Proof.
  intros He Hc Hr. destruct e as [t|imgs|]; simpl; [|done|].
  - destruct (intervals c !! t) as [n|] eqn:Ht; [|done].
    destruct (Hc t n Ht) as (_ & Hm & -> & Hn).
    unfold tick. rewrite Hm. split; [|done].
    unfold inRange, length_of in *. simpl.
    apply PhotosFacts.rem_in_range; lia.
  - destruct (mounted c); [|done].
    destruct (runCleanup_same c) as [Hp Hi].
    unfold inRange, length_of in *. simpl. by rewrite Hp, Hi.
Qed.

Lemma card_inRange_run es c :
  Forall sameRecord es → coherent c → inRange c →
  inRange (run es c) ∧ images (run es c) = images c.
Proof.
  revert c. induction es as [|e es IH]; intros c Hes Hc Hr; [done|].
  inversion Hes as [|? ? He Hes']; subst.
  destruct (card_inRange_step e c He Hc Hr) as [Hr' Hi'].
  destruct (IH (step e c) Hes' (card_coherent_step e c Hc) Hr') as [Hr'' Hi''].
  split; [done|]. simpl. congruence.
Qed.

Lemma card_inRange_mount m : inRange (mount m).
Proof.
  unfold inRange, mount, length_of. rewrite effect_photoIndex, effect_images. simpl.
  pose proof (PhotosFacts.getMemoryImages_nonempty m).
  destruct (Photos.getMemoryImages m); [done|]. simpl. lia.
Qed.

(** [k] ticks of the card's interval. *)
Lemma ticks_count m k :
  1 < length_of (mount m) →
  photoIndex (run (replicate k (IntervalFires 1)) (mount m))
  = Z.of_nat k mod length_of (mount m).
Proof.
  intros Hn.
  assert (Hm : ∀ c, intervals c !! 1%positive = Some (length_of c) → mounted c = true →
               1 < length_of c → 0 ≤ photoIndex c < length_of c →
               ∀ k, photoIndex (run (replicate k (IntervalFires 1)) c)
                    = (photoIndex c + Z.of_nat k) mod length_of c
                    ∧ length_of (run (replicate k (IntervalFires 1)) c) = length_of c).
  { intros c Hi Hmt Hl Hr k'. revert c Hi Hmt Hl Hr.
    induction k' as [|k' IH]; intros c Hi Hmt Hl Hr.
    - simpl. rewrite Z.add_0_r, Z.mod_small by lia. done.
    - simpl. rewrite Hi. unfold tick. rewrite Hmt.
      set (c' := mkCard _ _ _ _ _ _).
      assert (Hl' : length_of c' = length_of c) by done.
      assert (Hr' : 0 ≤ photoIndex c' < length_of c').
      { rewrite Hl'. simpl. apply PhotosFacts.rem_in_range; lia. }
      destruct (IH c') as [IH1 IH2]; try done; [by rewrite Hl'..|].
      rewrite IH1, IH2, Hl'. split; [|done]. simpl.
      rewrite Z.rem_mod_nonneg by lia.
      rewrite Zplus_mod_idemp_l. f_equal. lia. }
  assert (Hi : intervals (mount m) !! 1%positive = Some (length_of (mount m))).
  { revert Hn. unfold mount, effect, length_of. simpl.
    destruct (Z.leb_spec (Z.of_nat (length (Photos.getMemoryImages m))) 1); simpl; [lia|].
    intros _. by rewrite lookup_insert_eq. }
  assert (Hmt : mounted (mount m) = true).
  { unfold mount, effect. by destruct (_ <=? _). }
  pose proof (card_inRange_mount m) as Hr.
  destruct (Hm (mount m) Hi Hmt Hn Hr k) as [-> _].
  f_equal. unfold mount. rewrite effect_photoIndex. simpl. lia.
Qed.

End TimelineCardFacts.

(** ** The carousel of a Polaroid *)

Module PhotoCarouselFacts.
Import PhotoCarousel.

Lemma clearTimer_empty c :
  (∀ t, is_Some (intervals c !! t) → timerRef c = Some t) →
  intervals (clearTimer c) = ∅.
Proof.
  intros Hi. unfold clearTimer. apply map_eq. intros t'. rewrite lookup_empty.
  destruct (timerRef c) as [t|] eqn:E; simpl.
  - destruct (decide (t = t')) as [->|Hne]; [by rewrite lookup_delete_eq|].
    rewrite lookup_delete_ne by done.
    destruct (intervals c !! t') as [n|] eqn:E'; [|done].
    specialize (Hi t' (mk_is_Some _ _ E')). congruence.
  - destruct (intervals c !! t') as [n|] eqn:E'; [|done].
    specialize (Hi t' (mk_is_Some _ _ E')). congruence.
Qed.

Lemma coherent_tracked c t :
  coherent c → is_Some (intervals c !! t) → timerRef c = Some t.
Proof. intros [H _] [n Hn]. by destruct (H t n Hn). Qed.

Lemma clearTimer_fields c :
  images (clearTimer c) = images c ∧ currentIndex (clearTimer c) = currentIndex c
  ∧ mounted (clearTimer c) = mounted c ∧ hasCleanup (clearTimer c) = hasCleanup c
  ∧ direction (clearTimer c) = direction c ∧ touchStartX (clearTimer c) = touchStartX c
  ∧ nextId (clearTimer c) = nextId c.
Proof. unfold clearTimer. by destruct (timerRef c). Qed.

Lemma coherent_effect c :
  intervals c = ∅ → mounted c = true → coherent (effect c).
Proof.
  intros He Hm. unfold effect, coherent.
  destruct (Z.leb_spec (length_of c) 1) as [Hle|Hlt]; simpl.
  - split; [intros t n; by rewrite He, lookup_empty|].
    intros _. unfold length_of. simpl. fold (length_of c). lia.
  - split; [|done]. intros t n. rewrite He.
    intros [[<- <-]|[_ H]]%lookup_insert_Some; [|by rewrite lookup_empty in H].
    by repeat split.
Qed.

Lemma coherent_goTo i d c :
  coherent c → mounted c = true → 1 < length_of c → coherent (goTo i d c).
Proof.
  intros Hc Hm Hn.
  pose proof (clearTimer_empty c (λ t, coherent_tracked c t Hc)) as He.
  destruct (clearTimer_fields c) as (Hi & _ & Hm' & Hh & _).
  destruct Hc as [_ H2]. specialize (H2 Hm Hn).
  unfold goTo, set_index, startInterval. rewrite Hm', Hm. simpl. rewrite He.
  unfold coherent, length_of in *. simpl. rewrite Hi, Hh.
  split; [|done]. intros t n.
  intros [[<- <-]|[_ H]]%lookup_insert_Some; [|by rewrite lookup_empty in H].
  by repeat split.
Qed.

Lemma coherent_set_index i d c : coherent c → coherent (set_index i d c).
Proof.
  intros H. unfold set_index. destruct (mounted c) eqn:Hm; [|done].
  destruct H as [H1 H2]. split.
  - intros t n Ht. destruct (H1 t n Ht) as (? & ? & ? & ? & ?). repeat split; done.
  - intros _ Hn. apply H2; done.
Qed.

Lemma interactive_spec c :
  interactive c = true → mounted c = true ∧ 1 < length_of c.
Proof. unfold interactive. intros [? ?%Z.ltb_lt]%andb_true_iff. done. Qed.

Lemma coherent_step e c : coherent c → coherent (step e c).
Proof.
  intros H. destruct e as [t| | |i|x|x|imgs|]; simpl.
  - destruct (intervals c !! t) as [n|]; [|done]. by apply coherent_set_index.
  - destruct (interactive c) eqn:E; [|done].
    apply interactive_spec in E as [? ?]. by apply coherent_goTo.
  - destruct (interactive c) eqn:E; [|done].
    apply interactive_spec in E as [? ?]. by apply coherent_goTo.
  - destruct (interactive c) eqn:E; [|done]. simpl.
    destruct (Z.of_nat i <? length_of c); [|done].
    apply interactive_spec in E as [? ?]. by apply coherent_goTo.
  - by destruct (interactive c).
  - destruct (interactive c) eqn:E; [|done].
    apply interactive_spec in E as [? ?]. unfold handleTouchEnd.
    destruct (40 <? _); [|done]. destruct (0 <? _); by apply coherent_goTo.
  - destruct (mounted c) eqn:Hm; [|done].
    set (c1 := mkCarousel imgs _ _ _ _ _ _ _ _).
    destruct (Z.eqb_spec (length_of c1) (length_of c)) as [Heq|Hne].
    + destruct H as [H1 H2]. split.
      * intros t n Ht. destruct (H1 t n Ht) as (? & ? & ? & ? & ?).
        repeat split; try done. congruence.
      * intros _ Hn. apply H2; [done|]. by rewrite <- Heq.
    + apply coherent_effect.
      * change (hasCleanup c1) with (hasCleanup c).
        destruct (hasCleanup c) eqn:Eh.
        -- apply clearTimer_empty. intros t. apply (coherent_tracked c t H).
        -- apply map_eq. intros t. rewrite lookup_empty. simpl.
           destruct (intervals c !! t) as [n|] eqn:Et; [|done].
           destruct H as [H1 _]. destruct (H1 t n Et) as (_ & _ & Hh & _).
           congruence.
      * change (hasCleanup c1) with (hasCleanup c).
        destruct (hasCleanup c); [|done].
        by destruct (clearTimer_fields c1) as (_ & _ & -> & _).
  - destruct (mounted c) eqn:Hm; [|done].
    split; [|done]. intros t n. simpl.
    destruct (hasCleanup c) eqn:Eh.
    + rewrite clearTimer_empty, lookup_empty; [done|].
      intros t'. apply (coherent_tracked c t' H).
    + intros Ht. destruct H as [H1 _]. destruct (H1 t n Ht) as (_ & _ & Hh & _).
      congruence.
Qed.

Lemma coherent_mount imgs : coherent (mount imgs).
Proof. by apply coherent_effect. Qed.

Lemma coherent_run es c : coherent c → coherent (run es c).
Proof.
  revert c. induction es as [|e es IH]; intros c H; [done|].
  apply IH. by apply coherent_step.
Qed.

Lemma unmounted_step e c : mounted c = false → mounted (step e c) = false.
Proof.
  intros Hm. destruct e as [t| | |i|x|x|imgs|]; simpl;
    unfold interactive; rewrite ?Hm; simpl; try done.
  destruct (intervals c !! t); [|done]. unfold advance, set_index. by rewrite Hm.
Qed.

Lemma goTo_fields i d c :
  mounted c = true →
  currentIndex (goTo i d c) = i ∧ direction (goTo i d c) = d
  ∧ images (goTo i d c) = images c ∧ mounted (goTo i d c) = true
  ∧ touchStartX (goTo i d c) = touchStartX c.
Proof.
  intros Hm. destruct (clearTimer_fields c) as (Hi & _ & Hm' & _ & _ & Ht & _).
  unfold goTo, set_index, startInterval. rewrite Hm', Hm. simpl. by rewrite Hi, Ht.
Qed.

Lemma inRange_goTo i d c :
  mounted c = true → 0 ≤ i < length_of c →
  inRange (goTo i d c) ∧ images (goTo i d c) = images c.
Proof.
  intros Hm Hi. destruct (goTo_fields i d c Hm) as (Hc & _ & Him & _).
  unfold inRange, length_of in *. by rewrite Hc, Him.
Qed.

Lemma inRange_step e c :
  sameImages e → coherent c → inRange c →
  inRange (step e c) ∧ images (step e c) = images c.
Proof.
  intros He Hc Hr. unfold inRange in Hr.
  destruct e as [t| | |i|x|x|imgs|]; simpl; try done.
  - destruct (intervals c !! t) as [n|] eqn:Ht; [|done].
    destruct Hc as [H1 _]. destruct (H1 t n Ht) as (_ & Hm & _ & -> & Hn).
    unfold advance, set_index. rewrite Hm. split; [|done].
    unfold inRange, length_of in *. simpl. apply PhotosFacts.rem_in_range; lia.
  - destruct (interactive c) eqn:E; [|done].
    apply interactive_spec in E as [Hm Hn]. apply inRange_goTo; [done|].
    apply PhotosFacts.rem_in_range; lia.
  - destruct (interactive c) eqn:E; [|done].
    apply interactive_spec in E as [Hm Hn]. apply inRange_goTo; [done|].
    apply PhotosFacts.rem_in_range; lia.
  - destruct (interactive c) eqn:E; [|done]. simpl.
    destruct (Z.ltb_spec (Z.of_nat i) (length_of c)); [|done].
    apply interactive_spec in E as [Hm Hn]. apply inRange_goTo; [done|lia].
  - by destruct (interactive c).
  - destruct (interactive c) eqn:E; [|done].
    apply interactive_spec in E as [Hm Hn]. unfold handleTouchEnd.
    destruct (40 <? _); [|done].
    destruct (0 <? _); (apply inRange_goTo; [done|]);
      apply PhotosFacts.rem_in_range; lia.
  - destruct (mounted c); [|done].
    destruct (hasCleanup c); [|done].
    destruct (clearTimer_fields c) as (Hi & Hx & _).
    unfold inRange, length_of in *. simpl. by rewrite Hi, Hx.
Qed.

Lemma inRange_run es c :
  Forall sameImages es → coherent c → inRange c →
  inRange (run es c) ∧ images (run es c) = images c.
Proof.
  revert c. induction es as [|e es IH]; intros c Hes Hc Hr; [done|].
  inversion Hes as [|? ? He Hes']; subst.
  destruct (inRange_step e c He Hc Hr) as [Hr' Hi'].
  destruct (IH (step e c) Hes' (coherent_step e c Hc) Hr') as [Hr'' Hi''].
  split; [done|]. simpl. congruence.
Qed.

Lemma inRange_mount imgs : imgs ≠ [] → inRange (mount imgs) ∧ images (mount imgs) = imgs.
Proof.
  intros Hne. unfold inRange, mount, effect, length_of. simpl.
  destruct imgs as [|u us]; [done|].
  destruct (_ <=? _); simpl; split; try done; lia.
Qed.

Lemma shown_in_range (l : list string) i :
  0 ≤ i < Z.of_nat (length l) → is_Some (Playback.at_index l i).
Proof.
  intros Hi. unfold Playback.at_index.
  destruct (Z.ltb_spec i 0); [lia|]. apply lookup_lt_is_Some. lia.
Qed.

Lemma carousel_next_index c :
  PhotoCarousel.mounted c = true → 0 < length_of c → 0 ≤ currentIndex c →
  currentIndex (goNext c) = (currentIndex c + 1) mod length_of c
  ∧ images (goNext c) = images c ∧ mounted (goNext c) = true.
Proof.
  intros Hm Hn Hr. destruct (goTo_fields (Z.rem (currentIndex c + 1) (length_of c)) 1 c Hm)
    as (Hc & _ & Hi & Hm' & _).
  unfold goNext. rewrite Hc, Hi, Hm'. by rewrite Z.rem_mod_nonneg by lia.
Qed.

Lemma carousel_prev_index c :
  PhotoCarousel.mounted c = true → 0 < length_of c → 0 ≤ currentIndex c →
  currentIndex (goPrev c) = (currentIndex c - 1) mod length_of c
  ∧ images (goPrev c) = images c ∧ mounted (goPrev c) = true.
Proof.
  intros Hm Hn Hr.
  destruct (goTo_fields (Z.rem (currentIndex c - 1 + length_of c) (length_of c)) (-1) c Hm)
    as (Hc & _ & Hi & Hm' & _).
  unfold goPrev. rewrite Hc, Hi, Hm'. split; [|done].
  rewrite Z.rem_mod_nonneg by lia.
  replace (currentIndex c - 1 + length_of c)
    with (currentIndex c - 1 + 1 * length_of c) by lia.
  apply Z_mod_plus_full.
Qed.

Lemma same_length c c' : images c' = images c → length_of c' = length_of c.
Proof. unfold length_of. by intros ->. Qed.

Lemma prev_after_next c :
  mounted c = true → 1 < length_of c → 0 ≤ currentIndex c < length_of c →
  currentIndex (goPrev (goNext c)) = currentIndex c.
Proof.
  intros Hm Hn Hr.
  destruct (carousel_next_index c Hm) as (Hc & Hi & Hm'); [lia..|].
  pose proof (same_length _ _ Hi) as Hl.
  pose proof (Z.mod_pos_bound (currentIndex c + 1) (length_of c)).
  destruct (carousel_prev_index (goNext c) Hm') as (Hc' & _); [lia..|].
  rewrite Hc', Hc, Hl.
  rewrite Zminus_mod_idemp_l.
  replace (currentIndex c + 1 - 1) with (currentIndex c) by lia.
  apply Z.mod_small. lia.
Qed.

Lemma next_after_prev c :
  mounted c = true → 1 < length_of c → 0 ≤ currentIndex c < length_of c →
  currentIndex (goNext (goPrev c)) = currentIndex c.
Proof.
  intros Hm Hn Hr.
  destruct (carousel_prev_index c Hm) as (Hc & Hi & Hm'); [lia..|].
  pose proof (same_length _ _ Hi) as Hl.
  pose proof (Z.mod_pos_bound (currentIndex c - 1) (length_of c)).
  destruct (carousel_next_index (goPrev c) Hm') as (Hc' & _); [lia..|].
  rewrite Hc', Hc, Hl.
  rewrite Zplus_mod_idemp_l.
  replace (currentIndex c - 1 + 1) with (currentIndex c) by lia.
  apply Z.mod_small. lia.
Qed.

Lemma nexts_index k c :
  mounted c = true → 0 < length_of c → 0 ≤ currentIndex c < length_of c →
  currentIndex (Nat.iter k goNext c) = (currentIndex c + Z.of_nat k) mod length_of c
  ∧ images (Nat.iter k goNext c) = images c ∧ mounted (Nat.iter k goNext c) = true.
Proof.
  intros Hm Hn Hr. induction k as [|k (IHc & IHi & IHm)].
  - simpl. rewrite Z.add_0_r, Z.mod_small by lia. done.
  - change (Nat.iter (S k) goNext c) with (goNext (Nat.iter k goNext c)).
    pose proof (same_length _ _ IHi) as Hl.
    pose proof (Z.mod_pos_bound (currentIndex c + Z.of_nat k) (length_of c)).
    destruct (carousel_next_index (Nat.iter k goNext c) IHm) as (Hc & Hi & Hm'); [lia..|].
    rewrite Hc, Hi, IHc, Hl. split; [|by split].
    rewrite Zplus_mod_idemp_l. f_equal. lia.
Qed.

Lemma full_round c :
  mounted c = true → 1 < length_of c → 0 ≤ currentIndex c < length_of c →
  currentIndex (Nat.iter (length (images c)) goNext c) = currentIndex c.
Proof.
  intros Hm Hn Hr. destruct (nexts_index (length (images c)) c Hm) as (Hc & _); [lia..|].
  rewrite Hc. fold (length_of c).
  replace (currentIndex c + length_of c) with (currentIndex c + 1 * length_of c) by lia.
  rewrite Z_mod_plus_full. apply Z.mod_small. lia.
Qed.

End PhotoCarouselFacts.

(** ** The tilt of a Polaroid *)

Module PolaroidFacts.
Import Polaroid.

Lemma ToInt32_range z : - 2 ^ 31 ≤ ToInt32 z < 2 ^ 31.
Proof.
  unfold ToInt32. pose proof (Z.mod_pos_bound (z + 2 ^ 31) (2 ^ 32)). lia.
Qed.

Lemma ToInt32_small z : - 2 ^ 31 ≤ z < 2 ^ 31 → ToInt32 z = z.
Proof. intros H. unfold ToInt32. rewrite Z.mod_small; lia. Qed.

Lemma ToInt32_idem z : ToInt32 (ToInt32 z) = ToInt32 z.
Proof. apply ToInt32_small, ToInt32_range. Qed.

Lemma ToInt32_congr a b : (a - b) mod 2 ^ 32 = 0 → ToInt32 a = ToInt32 b.
Proof.
  intros H. unfold ToInt32. f_equal.
  apply Z.mod_divide in H; [|lia]. destruct H as [k Hk].
  replace (a + 2 ^ 31) with (b + 2 ^ 31 + k * 2 ^ 32) by lia.
  apply Z_mod_plus_full.
Qed.

Lemma ToInt32_step a c : ToInt32 (31 * ToInt32 a + c) = ToInt32 (31 * a + c).
Proof.
  apply ToInt32_congr. unfold ToInt32.
  pose proof (Z.div_mod (a + 2 ^ 31) (2 ^ 32)) as H.
  replace (31 * ((a + 2 ^ 31) mod 2 ^ 32 - 2 ^ 31) + c - (31 * a + c))
    with (- (31 * ((a + 2 ^ 31) / 2 ^ 32)) * 2 ^ 32) by lia.
  apply Z_mod_mult.
Qed.

(** One turn of the loop, without the bit operators. *)
Lemma loop_body h c :
  bitor (shl h 5 - h + c) 0 = ToInt32 (31 * h + c).
Proof.
  unfold bitor, shl. change (5 mod 32) with 5.
  rewrite (ToInt32_small 0) by lia. rewrite Z.lor_0_r, ToInt32_idem.
  rewrite Z.shiftl_mul_pow2 by lia.
  apply ToInt32_congr. unfold ToInt32.
  pose proof (Z.div_mod (h + 2 ^ 31) (2 ^ 32)) as H1.
  set (x := (h + 2 ^ 31) mod 2 ^ 32 - 2 ^ 31).
  pose proof (Z.div_mod (x * 2 ^ 5 + 2 ^ 31) (2 ^ 32)) as H2.
  replace ((x * 2 ^ 5 + 2 ^ 31) mod 2 ^ 32 - 2 ^ 31 - h + c - (31 * h + c))
    with ((- ((x * 2 ^ 5 + 2 ^ 31) / 2 ^ 32) - 32 * ((h + 2 ^ 31) / 2 ^ 32)) * 2 ^ 32)
    by (unfold x in *; lia).
  apply Z_mod_mult.
Qed.

Lemma hashFrom_polynomial a seed :
  hashFrom (ToInt32 a) seed = ToInt32 (polynomial a seed).
Proof.
  revert a. induction seed as [|c rest IH]; intros a; [done|].
  simpl. rewrite loop_body, ToInt32_step. apply IH.
Qed.

Lemma hash_is_polynomial seed : hashFrom 0 seed = ToInt32 (polynomial 0 seed).
Proof. rewrite <- hashFrom_polynomial. by rewrite (ToInt32_small 0) by lia. Qed.

Lemma rem9_nonneg h : 0 ≤ h → 0 ≤ Z.rem h 9 ≤ 8.
Proof. intros H. pose proof (Z.rem_bound_pos h 9). lia. Qed.

Lemma rem9_neg h : h < 0 → -8 ≤ Z.rem h 9 ≤ 0.
Proof.
  intros H. replace h with (- - h) by lia.
  rewrite Z.rem_opp_l by lia. pose proof (Z.rem_bound_pos (- h) 9). lia.
Qed.

End PolaroidFacts.

(** ** Persistence *)

Module StorageFacts.
Import Sorter Storage.

Lemma readDigits_digitsOf p : readDigits (digitsOf p) = Some p.
Proof. induction p as [p IH|p IH|]; simpl; by rewrite ?IH. Qed.

Lemma fromText_toText l : fromText (toText l) = Some l.
Proof. unfold fromText, toText. rewrite readDigits_digitsOf. simpl. apply decode_encode. Qed.

Lemma toText_nonempty l : toText l ≠ ""%string.
Proof. done. Qed.

Section Facts.
Variable JSON_parse : string → option (list Memory).
Variable JSON_stringify : list Memory → string.
Hypothesis JSON_round_trip : ∀ l, JSON_parse (JSON_stringify l) = Some l.
Hypothesis JSON_text : ∀ l, JSON_stringify l ≠ ""%string.

Abbreviation load := (loadMemories JSON_parse).
Abbreviation save := (saveMemories JSON_stringify).

Lemma save_accepted l b :
  reliable b → save l b = set_item (Some (JSON_stringify l)) b.
Proof. intros [Hd Hq]. unfold saveMemories. by rewrite Hd, Hq. Qed.

Lemma save_twice l b : reliable b → save l (save l b) = save l b.
Proof.
  intros Hr. rewrite (save_accepted l b Hr).
  rewrite save_accepted; [done|]. destruct Hr. by split.
Qed.

Lemma reliable_save l b : reliable b → reliable (save l b).
Proof.
  intros [Hd Hq]. unfold saveMemories. rewrite Hd, Hq. simpl. by split.
Qed.

Lemma load_after_save l b : reliable b → load (save l b) = l.
Proof.
  intros [Hd Hq]. unfold saveMemories, loadMemories. rewrite Hd, Hq. simpl.
  rewrite Hd. destruct (String.eqb_spec (JSON_stringify l) "") as [E|_].
  - by apply JSON_text in E.
  - by rewrite JSON_round_trip.
Qed.

Lemma save_refused l b :
  denied b = true ∨ quota b (JSON_stringify l) = false →
  save l b = warn b ∧ load (save l b) = load b.
Proof.
  intros H. assert (E : denied b || negb (quota b (JSON_stringify l)) = true).
  { destruct H as [->| ->]; [done|]. apply orb_true_r. }
  unfold saveMemories. rewrite E. done.
Qed.

Lemma filter_id_twice (i : string) (l : list Memory) :
  filter (λ m, id m ≠ i) (filter (λ m, id m ≠ i) l) = filter (λ m, id m ≠ i) l.
Proof.
  induction l as [|m l IH]; [done|].
  rewrite filter_cons. destruct (decide (id m ≠ i)) as [H|H]; [|done].
  rewrite filter_cons_True by done. by rewrite IH.
Qed.

Lemma filter_id_absent (i : string) (l : list Memory) :
  (∀ m, m ∈ l → id m ≠ i) → filter (λ m, id m ≠ i) l = l.
Proof.
  induction l as [|m l IH]; intros H; [done|].
  rewrite filter_cons_True by (apply H; left).
  f_equal. apply IH. intros m' Hm'. apply H. by right.
Qed.

End Facts.
End StorageFacts.

(** ** The pins *)

Module MapViewFacts.
Import Sorter MapView.

Lemma locationGroups_snoc ms m :
  locationGroups (ms ++ [m]) = (groups ← locationGroups ms; addToGroups groups m).
Proof. unfold locationGroups. by rewrite foldl_app. Qed.

Lemma groupOf_snoc_same ms m :
  groupOf (locationKey m) (ms ++ [m])
  = Some match groupOf (locationKey m) ms with
         | Some g => mkGroup (memories g ++ [m]) (lat g) (lng g)
         | None => mkGroup [m] (Sorter.lat m) (Sorter.lng m)
         end.
Proof.
  unfold groupOf. rewrite filter_app, (filter_cons_True _ m) by done.
  rewrite filter_nil.
  by destruct (filter (λ m0, locationKey m0 = locationKey m) ms).
Qed.

Lemma groupOf_snoc_other k ms m :
  locationKey m ≠ k → groupOf k (ms ++ [m]) = groupOf k ms.
Proof.
  intros H. unfold groupOf.
  rewrite filter_app, (filter_cons_False _ m) by done.
  by rewrite filter_nil, app_nil_r.
Qed.

Lemma locationGroups_spec ms :
  Forall (λ m, locationKey m ∉ inherited) ms →
  ∃ groups, locationGroups ms = Some groups ∧ ∀ k, groups !! k = groupOf k ms.
Proof.
  induction ms as [|m ms IH] using rev_ind; intros Hok.
  - exists ∅. split; [done|]. intros k. by rewrite lookup_empty.
  - apply Forall_app in Hok as [Hms Hm]. inversion_clear Hm as [|? ? Hm' _].
    destruct (IH Hms) as (groups & Hg & Hk).
    rewrite locationGroups_snoc, Hg. simpl. unfold addToGroups.
    rewrite (Hk (locationKey m)).
    pose proof (groupOf_snoc_same ms m) as Hsame.
    destruct (groupOf (locationKey m) ms) as [g|] eqn:E.
    + eexists. split; [done|]. intros k.
      destruct (decide (locationKey m = k)) as [<-|Hne].
      * by rewrite lookup_insert_eq, Hsame.
      * by rewrite lookup_insert_ne, groupOf_snoc_other, Hk.
    + rewrite bool_decide_eq_false_2 by done.
      eexists. split; [done|]. intros k.
      destruct (decide (locationKey m = k)) as [<-|Hne].
      * by rewrite lookup_insert_eq, Hsame.
      * by rewrite lookup_insert_ne, groupOf_snoc_other, Hk.
Qed.

Lemma locationGroups_throws ms :
  Exists (λ m, locationKey m ∈ inherited) ms → locationGroups ms = None.
Proof.
  induction ms as [|m ms IH] using rev_ind; intros Hex.
  - by apply Exists_nil in Hex.
  - rewrite locationGroups_snoc.
    apply Exists_app in Hex as [Hex|Hex]; [by rewrite IH|].
    apply Exists_cons in Hex as [Hm|Hex]; [|by apply Exists_nil in Hex].
    destruct (locationGroups ms) as [groups|] eqn:Hg; [|done]. simpl.
    assert (Hok : Forall (λ m, locationKey m ∉ inherited) ms ∨
                  Exists (λ m, locationKey m ∈ inherited) ms).
    { clear. induction ms as [|x l [IH|IH]]; [by left| |by right; right].
      destruct (decide (locationKey x ∈ inherited)); [right; by left|left; by constructor]. }
    destruct Hok as [Hok|Hbad]; [|specialize (IH Hbad); congruence].
    destruct (locationGroups_spec ms Hok) as (groups' & Hg' & Hk).
    rewrite Hg in Hg'. injection Hg' as <-.
    unfold addToGroups. rewrite Hk. unfold groupOf.
    destruct (filter (λ m0, locationKey m0 = locationKey m) ms) as [|x l] eqn:Ef.
    + by rewrite bool_decide_eq_true_2.
    + assert (Hx : x ∈ filter (λ m0, locationKey m0 = locationKey m) ms)
        by (rewrite Ef; left).
      apply list_elem_of_filter in Hx as [Hx1 Hx2].
      rewrite Forall_forall in Hok. specialize (Hok x Hx2). congruence.
Qed.

End MapViewFacts.

(** ** The overlay of a pin *)

Module OverlayFacts.
Import Sorter Overlay.

Section Facts.
Variable Date_getTime : string → option Z.

Abbreviation ts := (effectiveTimestamp Date_getTime).

Lemma StronglySorted_filter {A} (R : A → A → Prop) (P : A → Prop)
    `{∀ x, Decision (P x)} (l : list A) :
  StronglySorted R l → StronglySorted R (filter P l).
Proof.
  induction 1 as [|x l Hs IH Hx]; [constructor|].
  rewrite filter_cons. destruct (decide (P x)); [|done].
  constructor; [done|].
  apply Forall_forall. intros y [_ Hy]%list_elem_of_filter.
  rewrite Forall_forall in Hx. by apply Hx.
Qed.

Lemma filter_filter_comm {A} (P Q : A → Prop)
    `{∀ x, Decision (P x)} `{∀ x, Decision (Q x)} (l : list A) :
  filter P (filter Q l) = filter Q (filter P l).
Proof.
  induction l as [|x l IH]; [done|].
  rewrite !filter_cons.
  destruct (decide (Q x)), (decide (P x)); rewrite ?filter_cons;
    repeat case_decide; try done; by rewrite IH.
Qed.

Lemma Forall_filter_keeps {A} (R P : A → Prop) `{∀ x, Decision (P x)} (l : list A) :
  Forall R l → Forall R (filter P l).
Proof.
  intros Hl. apply Forall_forall. intros y [_ Hy]%list_elem_of_filter.
  rewrite Forall_forall in Hl. by apply Hl.
Qed.

(** Sorting commutes with taking the records of one place. *)
Lemma sort_filter_comm (P : Memory → Prop) `{∀ x, Decision (P x)} l :
  Forall (λ m, is_Some (ts m)) l →
  sortChronologically Date_getTime (filter P l)
  = filter P (sortChronologically Date_getTime l).
Proof.
  intros Hok. apply (SorterFacts.stable_sorted_unique Date_getTime).
  - rewrite (SorterFacts.sorted_perm Date_getTime). by apply Forall_filter_keeps.
  - apply Forall_filter_keeps. by rewrite (SorterFacts.sorted_perm Date_getTime).
  - apply SorterFacts.sorted_sorted. by apply Forall_filter_keeps.
  - apply StronglySorted_filter. by apply SorterFacts.sorted_sorted.
  - intros t. rewrite (SorterFacts.sorted_stable Date_getTime).
    rewrite (filter_filter_comm _ P (sortChronologically Date_getTime l)).
    rewrite (SorterFacts.sorted_stable Date_getTime).
    apply filter_filter_comm.
Qed.

End Facts.
End OverlayFacts.

(** ** The page *)

Module HomeFacts.
Import Sorter Home.

Lemma groups_of_drawn ms groups k :
  MapView.locationGroups ms = Some groups →
  groups !! k = MapView.groupOf k ms.
Proof.
  intros Hg.
  assert (Hok : Forall (λ m, locationKey m ∉ MapView.inherited) ms ∨
                Exists (λ m, locationKey m ∈ MapView.inherited) ms).
  { clear. induction ms as [|x l [IH|IH]]; [by left| |by right; right].
    destruct (decide (locationKey x ∈ MapView.inherited));
      [right; by left|left; by constructor]. }
  destruct Hok as [Hok|Hbad].
  - destruct (MapViewFacts.locationGroups_spec ms Hok) as (groups' & Hg' & Hk).
    rewrite Hg in Hg'. injection Hg' as <-. apply Hk.
  - rewrite (MapViewFacts.locationGroups_throws ms Hbad) in Hg. done.
Qed.

Lemma groupOf_Some k ms g :
  MapView.groupOf k ms = Some g →
  MapView.memories g = filter (λ m, locationKey m = k) ms
  ∧ ∃ first, head (MapView.memories g) = Some first
             ∧ MapView.lat g = Sorter.lat first ∧ MapView.lng g = Sorter.lng first.
Proof.
  unfold MapView.groupOf.
  destruct (filter (λ m, locationKey m = k) ms) as [|x l]; [done|].
  intros [= <-]. split; [done|]. by exists x.
Qed.

Lemma groupOf_None k ms :
  MapView.groupOf k ms = None ↔ filter (λ m, locationKey m = k) ms = [].
Proof.
  unfold MapView.groupOf.
  by destruct (filter (λ m, locationKey m = k) ms).
Qed.

Section Facts.
Variable JSON_parse : string → option (list Memory).
Variable JSON_stringify : list Memory → string.
Hypothesis JSON_round_trip : ∀ l, JSON_parse (JSON_stringify l) = Some l.
Hypothesis JSON_text : ∀ l, JSON_stringify l ≠ ""%string.

Abbreviation load := (Storage.loadMemories JSON_parse).
Abbreviation stepJ := (step JSON_parse JSON_stringify).
Abbreviation runJ := (run JSON_parse JSON_stringify).

Abbreviation settled := (Home.settled JSON_parse).

Lemma settled_mount b : Storage.reliable b → settled (mount JSON_parse b).
Proof. intros Hb. repeat split; try done; apply Hb. Qed.

Lemma settled_step e p : settled p → settled (stepJ e p).
Proof.
  intros (Hr & Hs & Hb & Hu). destruct e as [k| |m|i|c| |]; simpl.
  - destruct (pinDrawn k p) eqn:E; [|done].
    split; [done|]. split; [done|]. split; [|done].
    unfold backed. simpl. intros _.
    unfold pinDrawn in E.
    destruct (MapView.locationGroups (memories p)) as [groups|] eqn:Hg; [|done].
    apply bool_decide_eq_true in E as [g E].
    rewrite (groups_of_drawn _ _ k Hg) in E.
    apply groupOf_Some in E as [E (first & Hf & _)].
    rewrite <- E. intros Hnil. by rewrite Hnil in Hf.
  - split; [done|]. split; [done|]. split; [|done]. by intros ?.
  - unfold handleAddMemory, Storage.addMemory.
    split; [|split; [|split; [|done]]]; cbn [browser memories selectedLocation].
    + by apply StorageFacts.reliable_save.
    + by rewrite (StorageFacts.load_after_save JSON_parse JSON_stringify
                    JSON_round_trip JSON_text).
    + unfold backed in *. cbn [memories selectedLocation]. intros Ht.
      specialize (Hb Ht). rewrite filter_app, <- Hs.
      intros [Hnil _]%app_eq_nil. done.
  - unfold handleDeleteMemory, Storage.deleteMemory.
    split; [|split; [|split; [|done]]]; cbn [browser memories selectedLocation].
    + by apply StorageFacts.reliable_save.
    + by rewrite (StorageFacts.load_after_save JSON_parse JSON_stringify
                    JSON_round_trip JSON_text).
    + unfold backed. cbn [memories selectedLocation].
      destruct (truthy (selectedLocation p)) eqn:Ht; [|intros; congruence].
      set (remaining := filter _ (filter _ _)).
      destruct (Z.eqb_spec (Z.of_nat (length remaining)) 0) as [E|E]; [done|].
      intros _ Hnil. unfold remaining in *. rewrite Hnil in E. done.
  - destruct c; [|done]. unfold handleReset, Storage.clearAllMemories. simpl.
    destruct Hr as [Hd Hq]. rewrite Hd. simpl.
    split; [by split|].
    split; [unfold Storage.loadMemories; simpl; by rewrite Hd|].
    split; [|done]. by intros ?.
  - split; [done|]. split; [done|]. by split.
  - split; [done|]. split; [done|]. by split.
Qed.

Lemma settled_run es p : settled p → settled (runJ es p).
Proof.
  revert p. induction es as [|e es IH]; intros p H; [done|].
  apply IH. by apply settled_step.
Qed.

End Facts.
End HomeFacts.

(** ** Share links *)

Module ShareFacts.
Import Sorter Share.

Lemma substring_length n s : (String.length (String.substring 0 n s) ≤ n)%nat.
Proof.
  revert s. induction n as [|n IH]; intros [|c s]; simpl; try lia.
  specialize (IH s). lia.
Qed.

Lemma append_length a b : String.length (a +:+ b) = (String.length a + String.length b)%nat.
Proof. induction a as [|c a IH]; simpl; [done|]. by rewrite <- IH. Qed.

Lemma lightweight_timestamp Date_getTime m :
  effectiveTimestamp Date_getTime (lightweight m) = Some (createdAt m).
Proof. done. Qed.

End ShareFacts.

(** ** The form *)

Module AddMemoryFacts.
Import Sorter AddMemory.

Lemma trimEnd_idem s : trimEnd (trimEnd s) = trimEnd s.
Proof.
  induction s as [|c s IH]; [done|]. simpl.
  destruct (trimEnd s) as [|d r] eqn:E.
  - destruct (isWhiteSpace c) eqn:Ec; [done|]. simpl. by rewrite Ec.
  - simpl. simpl in IH. by rewrite IH.
Qed.

Lemma trimStart_flush s : flushLeft (trimStart s).
Proof.
  induction s as [|c s IH]; [done|]. simpl.
  by destruct (isWhiteSpace c) eqn:E.
Qed.

Lemma trimStart_of_flush s : flushLeft s → trimStart s = s.
Proof. destruct s as [|c s]; [done|]. simpl. by intros ->. Qed.

Lemma trimEnd_flush s : flushLeft s → flushLeft (trimEnd s).
Proof.
  destruct s as [|c s]; [done|]. simpl. intros Hc.
  destruct (trimEnd s); [by rewrite Hc|done].
Qed.

Lemma trim_idem s : trim (trim s) = trim s.
Proof.
  unfold trim.
  rewrite (trimStart_of_flush (trimEnd (trimStart s))).
  - apply trimEnd_idem.
  - apply trimEnd_flush, trimStart_flush.
Qed.

Lemma trimStart_length s : (String.length (trimStart s) ≤ String.length s)%nat.
Proof.
  induction s as [|c s IH]; [done|]. simpl.
  destruct (isWhiteSpace c); simpl; lia.
Qed.

Lemma trimEnd_length s : (String.length (trimEnd s) ≤ String.length s)%nat.
Proof.
  induction s as [|c s IH]; [done|]. simpl.
  destruct (trimEnd s); [destruct (isWhiteSpace c)|]; simpl in *; lia.
Qed.

Lemma trim_length s : (String.length (trim s) ≤ String.length s)%nat.
Proof.
  unfold trim. pose proof (trimEnd_length (trimStart s)).
  pose proof (trimStart_length s). lia.
Qed.

Lemma findLocation_Some k l :
  Locations.findLocation k = Some l → l ∈ Locations.SG_LOCATIONS ∧ Locations.key l = k.
Proof.
  intros H. apply List.find_some in H as [Hin Heq].
  split.
  - by apply list_elem_of_In.
  - by apply String.eqb_eq.
Qed.

Lemma table_fits :
  Forall (λ l, (inBounds (Locations.lat l) (Locations.lng l) = true)
               ∧ (Locations.key l ∉ MapView.inherited)
               ∧ (Locations.getLocationName (Locations.key l) = Locations.name l))
         Locations.SG_LOCATIONS.
Proof.
  repeat constructor; apply (bool_decide_unpack _); by vm_compute.
Qed.

Lemma dropIndex_length {A} i (l : list A) : (length (dropIndex i l) ≤ length l)%nat.
Proof.
  revert i. induction l as [|x l IH]; intros [|i]; simpl; try lia.
  specialize (IH i). lia.
Qed.

Lemma bounded_step e f : bounded f → bounded (step e f).
Proof.
  intros [Hp Hc]. unfold MAX_PHOTOS in *.
  destruct e as [|u| |i|v|v|v|newId now today| |today|today]; try (by split).
  - split; [|done]. simpl. unfold MAX_PHOTOS.
    destruct (Z.leb_spec 3 (Z.of_nat (length (photos f)))); [done|].
    rewrite length_app. simpl. lia.
  - split; [|done]. unfold MAX_PHOTOS. cbn [step removePhoto photos].
    pose proof (dropIndex_length i (photos f)). lia.
  - split; [done|]. simpl. apply ShareFacts.substring_length.
  - simpl. unfold handleSubmit. destruct (negb (isValid f)); [by split|].
    destruct (Locations.findLocation (locationKey f)); [|by split].
    split; unfold MAX_PHOTOS; simpl; lia.
  - simpl. unfold resetFires. destruct (pendingResets f); [by split|].
    split; unfold MAX_PHOTOS; simpl; lia.
Qed.

Lemma bounded_run es f : bounded f → bounded (run es f).
Proof.
  revert f. induction es as [|e es IH]; intros f H; [done|].
  apply IH. by apply bounded_step.
Qed.

Lemma bounded_initial today : bounded (initial today).
Proof. split; simpl; unfold MAX_PHOTOS; lia. Qed.

Lemma handleSubmit_spec :
  ∀ newId now today f,
    let out := AddMemory.handleSubmit newId now today f in
    (out.1 = None ↔
       AddMemory.photos f = [] ∨ AddMemory.trim (AddMemory.caption f) = ""%string
       ∨ Locations.findLocation (AddMemory.locationKey f) = None)
    ∧ ∀ memory, out.1 = Some memory →
        let r := Photos.record memory in
        (∃ location,
           location ∈ Locations.SG_LOCATIONS
           ∧ Sorter.locationKey r = Locations.key location
           ∧ Sorter.locationKey r = AddMemory.locationKey f
           ∧ lat r = Locations.lat location ∧ lng r = Locations.lng location
           ∧ Locations.getLocationName (Sorter.locationKey r) = Locations.name location)
        ∧ AddMemory.inBounds (lat r) (lng r) = true
        ∧ (Sorter.locationKey r ∉ MapView.inherited)
        ∧ (Sorter.caption r = AddMemory.trim (AddMemory.caption f)
           ∧ Sorter.caption r ≠ ""%string ∧ AddMemory.trim (Sorter.caption r) = Sorter.caption r)
        ∧ (Photos.getMemoryImages memory = AddMemory.photos f
           ∧ head (AddMemory.photos f) = Some (imageDataUrl r))
        ∧ (id r = newId ∧ createdAt r = now)
        ∧ Sorter.memoryDate r = (if String.eqb (AddMemory.memoryDate f) "" then None
                          else Some (AddMemory.memoryDate f))
        ∧ out.2 = AddMemory.reset today f.
Proof.
  intros newId now today f out. unfold out, AddMemory.handleSubmit, AddMemory.isValid.
  destruct (AddMemory.photos f) as [|u us] eqn:Ep.
  { simpl. split; [|done]. split; [by left|done]. }
  destruct (String.eqb_spec (AddMemory.trim (AddMemory.caption f)) "") as [Ec|Ec].
  { simpl. split; [|done]. split; [by right; left|done]. }
  destruct (String.eqb_spec (AddMemory.locationKey f) "") as [Ek|Ek].
  { simpl. split; [|done]. split; [|done]. intros _. right. right. by rewrite Ek. }
  simpl.
  destruct (Locations.findLocation (AddMemory.locationKey f)) as [location|] eqn:Ef.
  2:{ split; [|done]. split; [by right; right|done]. }
  simpl. split.
  { split; [done|]. by intros [|[|]]. }
  intros memory [= <-]. simpl.
  destruct (findLocation_Some _ _ Ef) as [Hin Hk].
  pose proof (proj1 (Forall_forall _ _) table_fits location Hin) as (Hb & Hi & Hn).
  split; [by exists location|].
  split; [exact Hb|]. split; [exact Hi|].
  split; [split; [done|split; [done|apply trim_idem]]|].
  done.
Qed.

End AddMemoryFacts.

(** ** The playback component while the records stay the same *)

Module EngineFacts.
Import Sorter Playback PlaybackFacts Engine.

(** *** The ref of the autoplay timer never names a travel pause *)

Lemma refOK_quiet w w' : refOK w → quiet w w' → refOK w'.
Proof.
  intros Hr ([Hn Hg] & _ & _ & Href & _) t Ht. rewrite Href in Ht.
  destruct (Hr t Ht) as [Hlt Hnp]. split; [lia|].
  intros s Hs. destruct (Hg t _ Hs) as [H|H]; [by apply (Hnp s)|lia].
Qed.

Lemma quiet_autoplayCleanup w : quiet w (autoplayCleanup w).
Proof.
  unfold autoplayCleanup. destruct (autoPlayTimerRef w); [|apply quiet_refl].
  apply quiet_clearTimeout.
Qed.

Lemma quiet_cleanup_if w : quiet w (if autoCleanup w then autoplayCleanup w else w).
Proof. destruct (autoCleanup w); [apply quiet_autoplayCleanup|apply quiet_refl]. Qed.

Lemma refOK_autoplayEffect w : refOK w → refOK (autoplayEffect w).
Proof.
  intros Hr. unfold autoplayEffect. destruct (_ || _); [exact Hr|].
  intros t [= <-]. simpl. split; [lia|].
  intros s. by rewrite lookup_insert_eq.
Qed.

Lemma refOK_crash w : refOK w → refOK (crash w).
Proof.
  intros Hr. unfold crash.
  pose proof (refOK_quiet _ _ Hr (quiet_cleanup_if w)) as H1.
  set (w1 := if autoCleanup w then autoplayCleanup w else w) in *. clearbody w1.
  exact H1.
Qed.

Lemma refOK_commit m p pl w : refOK w → refOK (commit m p pl w).
Proof.
  intros Hr. unfold commit. destruct (mounted w); simpl; [|done].
  set (w1 := if _ && _ then pathCleanup w else w).
  assert (H1 : refOK w1).
  { subst w1. destruct (_ && _); [|done]. eapply refOK_quiet; [done|apply quiet_pathCleanup]. }
  clearbody w1.
  set (w2 := if _ && _ then autoplayCleanup w1 else w1).
  assert (H2 : refOK w2).
  { subst w2. destruct (_ && _); [|done].
    eapply refOK_quiet; [done|apply quiet_autoplayCleanup]. }
  clearbody w2.
  set (r := if sameDeps_path m p (st w) then (Returned, w2) else pathEffect w2).
  assert (H3 : refOK r.2).
  { subst r. destruct (sameDeps_path _ _ _); [done|].
    eapply refOK_quiet; [done|apply quiet_pathEffect]. }
  clearbody r. destruct r as [[] w3]; simpl in H3.
  - set (w4 := if sameDeps_autoplay _ _ _ _ then w3 else autoplayEffect w3).
    assert (H4 : refOK w4).
    { subst w4. destruct (sameDeps_autoplay _ _ _ _); [done|by apply refOK_autoplayEffect]. }
    clearbody w4. destruct (sameDeps_flyFirst _ _ _); [done|].
    eapply refOK_quiet; [done|apply quiet_flyFirstEffect].
  - by apply refOK_crash.
Qed.

Lemma refOK_handle h w : refOK w → quiet w (h w) → refOK (handle h w).
Proof. intros Hr Hq. apply refOK_commit. by eapply refOK_quiet. Qed.

Lemma refOK_animate sid now w : refOK w → refOK (animate sid now w).
Proof.
  intros Hr. unfold animate. destruct (cancelRef w); [done|].
  destruct (sessions w !! sid) as [ss|]; [|done].
  set (w2 := emit _ (set_sessions _ w)).
  assert (H2 : refOK w2) by exact Hr.
  clearbody w2. destruct (_ <? _).
  - intros t Ht. destruct (H2 t Ht) as [Hlt Hnp]. split; [simpl; lia|exact Hnp].
  - apply refOK_handle; [done|].
    eapply quiet_trans; [apply quiet_emit|apply quiet_update].
Qed.

Lemma refOK_runFrame now w : refOK w → refOK (runFrame now w).
Proof.
  unfold runFrame. generalize (merge_sort Pos.le (map_to_list (rafs w)).*1).
  intros ids. revert w. induction ids as [|r ids IH]; intros w Hr; simpl; [done|].
  apply IH. destruct (rafs w !! r); [|done]. by apply refOK_animate.
Qed.

Lemma refOK_fireMoveEnd w : refOK w → refOK (fireMoveEnd w).
Proof.
  unfold fireMoveEnd. generalize (moveend w).
  intros ids. revert w. induction ids as [|sid ids IH]; intros w Hr; simpl; [done|].
  apply IH. destruct (bool_decide _); [|done].
  eapply refOK_quiet; [done|apply quiet_onFlyEnd].
Qed.

Lemma refOK_fireTimeout t w : refOK w → refOK (fireTimeout t w).
Proof.
  intros Hr. unfold fireTimeout. destruct (timeouts w !! t) as [cb|]; [|done].
  set (w1 := set_timeouts _ w).
  assert (H1 : refOK w1) by (eapply refOK_quiet; [done|apply quiet_clearTimeout]).
  clearbody w1. destruct cb as [i l tr|sid].
  - apply refOK_handle; [done|apply quiet_update].
  - eapply refOK_quiet; [done|apply quiet_travelPause].
Qed.

Lemma refOK_unmount w : refOK w → refOK (unmount w).
Proof.
  intros Hr. unfold unmount.
  set (w1 := if hasMap w then pathCleanup w else w).
  assert (H1 : refOK w1).
  { subst w1. destruct (hasMap w); [|done]. eapply refOK_quiet; [done|apply quiet_pathCleanup]. }
  clearbody w1.
  pose proof (refOK_quiet _ _ H1 (quiet_cleanup_if w1)) as H2.
  set (w2 := if autoCleanup w1 then autoplayCleanup w1 else w1) in *. clearbody w2.
  exact H2.
Qed.

Lemma refOK_step e w : refOK w → refOK (step e w).
Proof.
  intros Hr. destruct e as [c|k|t|now| |e|ms|]; simpl.
  - destruct (offered c w); [|done]. apply refOK_handle; [done|apply quiet_onClick].
  - destruct (mounted w); [|done]. apply refOK_handle; [done|apply quiet_onKeyDown].
  - by apply refOK_fireTimeout.
  - by apply refOK_runFrame.
  - by apply refOK_fireMoveEnd.
  - exact Hr.
  - destruct (mounted w); [|done]. by apply refOK_commit.
  - destruct (mounted w); [|done]. by apply refOK_unmount.
Qed.

Lemma refOK_mount date ms map a : refOK (mount date ms map a).
Proof.
  unfold mount.
  set (w0 := mkWorld _ _ _ _ _ _ _ _ _ _ _ _ _ _ _ _).
  assert (H0 : refOK w0) by (by intros t).
  clearbody w0.
  pose proof (refOK_quiet _ _ H0 (quiet_pathEffect w0)) as H1.
  destruct (pathEffect w0) as [[] w1]; simpl in H1.
  - eapply refOK_quiet; [|apply quiet_flyFirstEffect]. by apply refOK_autoplayEffect.
  - by apply refOK_crash.
Qed.


(** *** Steps aside *)

Lemma calm_refl w : calm w w.
Proof. by repeat split. Qed.

Lemma calm_trans w1 w2 w3 : calm w1 w2 → calm w2 w3 → calm w1 w3.
Proof.
  intros (A1 & A2 & A3 & A4 & A5 & A6 & A7 & A8 & A9 & A10)
         (B1 & B2 & B3 & B4 & B5 & B6 & B7 & B8 & B9 & B10).
  repeat split; try congruence; try tauto.
  - intros H. by apply B10, A10 in H.
  - intros H. by apply A10, B10 in H.
Qed.

Lemma aside_refl w : aside w w.
Proof. split; [apply calm_refl|done]. Qed.

Lemma aside_trans w1 w2 w3 : aside w1 w2 → aside w2 w3 → aside w1 w3.
Proof.
  intros (A & A1 & A2 & A3) (B & B1 & B2 & B3).
  split; [by eapply calm_trans|]. repeat split; congruence.
Qed.

Lemma calm_len w w' : calm w w' → len w' = len w.
Proof. intros (_ & _ & H & _). unfold len. by rewrite H. Qed.

Lemma calm_noPause w w' : calm w w' → noPause w → noPause w'.
Proof.
  intros (_ & _ & _ & _ & _ & _ & _ & _ & _ & H) Hn t cb Ht.
  destruct cb as [i l tr|s]; [done|]. apply H in Ht. by apply Hn in Ht.
Qed.

Lemma calm_idle w w' : calm w w' → idle w → idle w'.
Proof.
  intros Hc (H1 & H2 & H3 & H4).
  pose proof (calm_noPause _ _ Hc H4).
  destruct Hc as (_ & _ & _ & _ & C5 & C6 & _ & _ & C9 & _).
  repeat split; try congruence; auto.
Qed.

Lemma aside_indexOK w w' : aside w w' → indexOK w → indexOK w'.
Proof.
  intros (Hc & A1 & A2 & A3) [H1 H2]. unfold indexOK.
  rewrite (calm_len _ _ Hc), A1, A3. by split.
Qed.

Lemma aside_inTransition sid start i dn w w' :
  aside w w' → inTransition sid start i dn w → inTransition sid start i dn w'.
Proof.
  intros (Hc & A1 & A2 & A3) (H1 & H2 & H3 & H4 & H5 & H6 & H7 & H8 & H9).
  pose proof (calm_len _ _ Hc) as Hl.
  destruct Hc as (C1 & C2 & C3 & C4 & C5 & C6 & C7 & C8 & C9 & C10).
  unfold inTransition. rewrite Hl, C1, C2, C4, C7, C8, A1, A2.
  repeat split; auto; lia.
Qed.

Lemma aside_phase w w' : aside w w' → phase w → phase w'.
Proof.
  intros Ha Hp. pose proof Ha as (Hc & A1 & A2 & A3).
  pose proof (calm_noPause _ _ Hc) as Hnp.
  pose proof Hc as (C1 & C2 & C3 & C4 & C5 & C6 & C7 & C8 & C9 & C10).
  destruct Hp as [(i & dn & H)|[(sid & i & dn & H)|[(sid & tp & i & dn & H)
                 |(sid & start & i & dn & H)]]].
  - left. exists i, dn.
    destruct H as (H1 & H2 & H3 & H4 & H5 & H6 & H7 & H8 & H9).
    unfold arrived. rewrite C1, C2, C5, C6, C8, A1, A2. repeat split; auto.
  - right; left. exists sid, i, dn. destruct H as (H1 & H2 & H3 & H4).
    split; [by eapply aside_inTransition|]. rewrite C5, C6. repeat split; auto.
  - right; right; left. exists sid, tp, i, dn.
    destruct H as (H1 & H2 & H3 & H4 & H5).
    split; [by eapply aside_inTransition|]. rewrite C5, C6.
    repeat split; auto; [by apply C10|].
    intros t cb Ht. simpl in Ht. destruct cb as [? ? ?|s]; [done|].
    apply lookup_delete_Some in Ht as [Hne Ht]. apply C10 in Ht.
    apply (H5 t (TravelPause s)). simpl. by apply lookup_delete_Some.
  - right; right; right. exists sid, start, i, dn. destruct H as (H1 & H2 & H3 & H4).
    split; [by eapply aside_inTransition|]. rewrite C5, C6. repeat split; auto.
Qed.

(** The footprint of the pieces handlers are made of. *)
Lemma calm_update f w : calm w (update f w).
Proof. unfold update. destruct (mounted w); by repeat split. Qed.

Lemma calm_set_audio a w : calm w (set_audio a w).
Proof. by repeat split. Qed.

Lemma calm_emit o w :
  (∀ s, o ≠ TransitionComplete s) → calm w (emit o w).
Proof.
  intros Ho. repeat split; try done. simpl.
  unfold completions. rewrite omap_app.
  destruct o; simpl; rewrite ?app_nil_r; try done.
  by destruct (Ho session).
Qed.

Lemma calm_flyToMemory i w : calm w (flyToMemory i w).
Proof.
  unfold flyToMemory. destruct (_ || _); [apply calm_refl|].
  destruct (at_index _ _); [|apply calm_refl]. by apply calm_emit.
Qed.

Lemma calm_delete_tick t w :
  (∀ s, timeouts w !! t ≠ Some (TravelPause s)) →
  calm w (set_timeouts (delete t (timeouts w)) w).
Proof.
  intros Ht. repeat split; try done; simpl.
  - intros H t' [cb Hcb]. simpl in Hcb. apply lookup_delete_Some in Hcb as [_ Hcb].
    apply H. by eexists.
  - intros H. by apply lookup_delete_Some in H as [_ H].
  - intros H. apply lookup_delete_Some. split; [|done]. intros <-. by apply (Ht s).
Qed.

Lemma calm_startJourney w : calm w (startJourney w).
Proof.
  unfold startJourney. destruct (musicEnabled (st w)); [|apply calm_update].
  destruct (Audio.startMusic _) as [[] a].
  - eapply calm_trans; [apply calm_update|apply calm_set_audio].
  - eapply calm_trans; [apply calm_update|].
    eapply calm_trans; [apply calm_set_audio|]. by apply calm_emit.
Qed.

Lemma calm_goPrev w : calm w (goPrev w).
Proof.
  unfold goPrev. destruct (isTransitioning _); [apply calm_refl|].
  destruct (_ <? _); [|apply calm_refl].
  eapply calm_trans; [apply calm_update|apply calm_flyToMemory].
Qed.

Lemma calm_skipToEnd w : calm w (skipToEnd w).
Proof.
  unfold skipToEnd. destruct (isTransitioning _); [apply calm_refl|].
  eapply calm_trans; [apply calm_update|].
  eapply calm_trans; [apply calm_flyToMemory|apply calm_update].
Qed.

Lemma calm_toggleMusic w : calm w (toggleMusic w).
Proof.
  unfold toggleMusic. destruct (Audio.isMusicPlaying _).
  - eapply calm_trans; [apply calm_set_audio|apply calm_update].
  - destruct (Audio.startMusic _) as [[] a].
    + eapply calm_trans; [apply calm_set_audio|apply calm_update].
    + eapply calm_trans; [apply calm_set_audio|]. by apply calm_emit.
Qed.

Lemma calm_handleExit w : refOK w → calm w (handleExit w).
Proof.
  intros Hr. unfold handleExit.
  set (w1 := set_audio _ w).
  assert (H1 : calm w w1) by apply calm_set_audio.
  set (w2 := match autoPlayTimerRef w1 with Some t => _ | None => _ end).
  assert (H2 : calm w w2).
  { subst w2. destruct (autoPlayTimerRef w1) as [t|] eqn:Ht; [|done].
    eapply calm_trans; [exact H1|]. apply calm_delete_tick.
    apply (Hr t Ht). }
  clearbody w2. clear H1 w1.
  eapply calm_trans; [exact H2|].
  destruct (hasMap w2).
  - eapply calm_trans; by apply calm_emit.
  - by apply calm_emit.
Qed.

Lemma calm_onClick c w : refOK w → calm w (onClick c w).
Proof.
  intros Hr. destruct c; simpl.
  - apply calm_startJourney.
  - by apply calm_handleExit.
  - apply calm_goPrev.
  - apply calm_update.
  - apply calm_update.
  - apply calm_toggleMusic.
  - apply calm_skipToEnd.
  - by apply calm_handleExit.
Qed.

Lemma calm_onKeyDown k w : refOK w → calm w (onKeyDown k w).
Proof.
  intros Hr. destruct k; simpl.
  - by apply calm_handleExit.
  - apply calm_update.
  - apply calm_update.
  - apply calm_goPrev.
  - apply calm_refl.
Qed.


(** *** The commit, seen from the animator *)

Lemma calm_autoplayCleanup w : refOK w → calm w (autoplayCleanup w).
Proof.
  intros Hr. unfold autoplayCleanup.
  destruct (autoPlayTimerRef w) as [t|] eqn:Ht; [|apply calm_refl].
  apply calm_delete_tick, (Hr t Ht).
Qed.

Lemma calm_autoplayEffect w : idsGivenOut w → calm w (autoplayEffect w).
Proof.
  intros Hids. unfold autoplayEffect. destruct (_ || _); [by repeat split|].
  repeat split; try done; simpl.
  - intros _ t [cb Hcb]. simpl in Hcb. change (t < Pos.succ (nextId w))%positive.
    apply lookup_insert_Some in Hcb as [[<- _]|[_ Hcb]]; [lia|].
    assert (t < nextId w)%positive by (apply Hids; by eexists). lia.
  - intros H. by apply lookup_insert_Some in H as [[_ ?]|[_ H]].
  - intros H. apply lookup_insert_Some. right. split; [|done].
    intros <-. assert (nextId w < nextId w)%positive by (apply Hids; by eexists). lia.
Qed.

Lemma calm_flyFirstEffect w : calm w (flyFirstEffect w).
Proof.
  unfold flyFirstEffect. destruct (_ && _); [apply calm_flyToMemory|apply calm_refl].
Qed.

Lemma cleanups_commute b w :
  (if b && autoCleanup (pathCleanup w) then autoplayCleanup (pathCleanup w)
   else pathCleanup w)
  = pathCleanup (if b && autoCleanup w then autoplayCleanup w else w).
Proof.
  destruct w as [date sorted map mnt s tref cref rref acl nid
                 touts rfs mes sess aud tr].
  unfold pathCleanup, cleanupLayers, autoplayCleanup.
  destruct b, acl, tref, rref; reflexivity.
Qed.

Lemma path_round v :
  hasMap v = true → isTransitioning (st v) = false →
  rafs v = ∅ → cancelRef v = false →
  ∃ v', pathEffect (pathCleanup v) = (Returned, v') ∧ calm v v' ∧ st v' = st v.
Proof.
  intros Hmap Htr Hraf Hc.
  destruct v as [date sorted map mnt [idx auto mus started trans] tref cref rref acl nid
                 touts rfs mes sess aud tr].
  simpl in *. subst.
  unfold pathEffect, pathCleanup, cleanupLayers. destruct rref; simpl.
  all: eexists; split; [reflexivity|]; rewrite ?delete_empty.
  all: split; [by repeat split|done].
Qed.

Lemma commit_aside m p pl w :
  refOK w → idsGivenOut w →
  sameDeps_path m p (st w) = true ∨ hasMap w = false
  ∨ (isTransitioning (st w) = false ∧ rafs w = ∅ ∧ cancelRef w = false) →
  aside w (commit m p pl w).
Proof.
  intros Hr Hids Hcase.
  split; [|by rewrite commit_st].
  unfold commit. destruct (mounted w); simpl; [|apply calm_refl].
  set (ps := sameDeps_path m p (st w)) in *.
  set (au := sameDeps_autoplay pl (len w) p (st w)).
  set (fl := sameDeps_flyFirst m p (st w)).
  assert (Htail : ∀ v, calm w v → idsGivenOut v →
            calm w (if fl then (if au then v else autoplayEffect v)
                    else flyFirstEffect (if au then v else autoplayEffect v))).
  { intros v Hv Hiv.
    assert (H4 : calm w (if au then v else autoplayEffect v)).
    { destruct au; [done|]. eapply calm_trans; [exact Hv|by apply calm_autoplayEffect]. }
    destruct fl; [done|]. eapply calm_trans; [exact H4|apply calm_flyFirstEffect]. }
  set (v0 := if negb au && autoCleanup w then autoplayCleanup w else w).
  assert (H0 : calm w v0).
  { subst v0. destruct (_ && _); [by apply calm_autoplayCleanup|apply calm_refl]. }
  assert (Hr0 : refOK v0).
  { subst v0. destruct (_ && _); [|done].
    eapply refOK_quiet; [done|apply quiet_autoplayCleanup]. }
  assert (Hi0 : idsGivenOut v0) by by apply H0.
  assert (Hst0 : st v0 = st w ∧ hasMap v0 = hasMap w).
  { subst v0. destruct (_ && _); [|done]. unfold autoplayCleanup.
    by destruct (autoPlayTimerRef w). }
  destruct Hst0 as [Hst0 Hmap0].
  destruct ps eqn:Hps; simpl.
  { fold v0. by apply Htail. }
  destruct (hasMap w) eqn:Hmap; simpl.
  - destruct Hcase as [?|[?|(Htr & Hraf & Hc)]]; [done|done|].
    rewrite cleanups_commute. fold v0.
    destruct (path_round v0) as (v' & -> & Hv' & Hst'); try congruence.
    { destruct H0 as (_ & _ & _ & _ & -> & _). done. }
    { destruct H0 as (_ & _ & _ & -> & _). done. }
    apply Htail; [by eapply calm_trans|]. by apply Hv', H0.
  - fold v0. unfold pathEffect. rewrite Hmap0. simpl. by apply Htail.
Qed.


(** *** What the handlers do to the index *)

Ltac zify_bools :=
  repeat match goal with
  | H : (_ <? _) = true |- _ => apply Z.ltb_lt in H
  | H : (_ <? _) = false |- _ => apply Z.ltb_ge in H
  | H : (_ <=? _) = true |- _ => apply Z.leb_le in H
  | H : (_ <=? _) = false |- _ => apply Z.leb_gt in H
  | H : (_ =? _) = true |- _ => apply Z.eqb_eq in H
  | H : (_ =? _) = false |- _ => apply Z.eqb_neq in H
  | H : negb _ = true |- _ => apply negb_true_iff in H
  | H : negb _ = false |- _ => apply negb_false_iff in H
  | H : _ && _ = true |- _ => apply andb_true_iff in H as [? ?]
  | H : _ || _ = false |- _ => apply orb_false_iff in H as [? ?]
  end.

Ltac started_flag :=
  repeat match goal with
  | |- context [?a <=? ?b] =>
      first [ rewrite (proj2 (Z.leb_le a b)) by lia
            | rewrite (proj2 (Z.leb_gt a b)) by lia ]
  end; done.

Lemma st_flyToMemory i w : st (flyToMemory i w) = st w.
Proof. apply sameRender_flyToMemory. Qed.

Lemma len_flyToMemory i w : len (flyToMemory i w) = len w.
Proof. apply sameRender_len, sameRender_flyToMemory. Qed.

Lemma mounted_flyToMemory i w : mounted (flyToMemory i w) = mounted w.
Proof. apply quiet_flyToMemory. Qed.

Lemma st_startJourney w :
  st (startJourney w) = st (update startJourney_state w).
Proof.
  unfold startJourney. destruct (musicEnabled (st w)); [|done].
  by destruct (Audio.startMusic _) as [[] a].
Qed.

Lemma st_toggleMusic w :
  currentIndex (st (toggleMusic w)) = currentIndex (st w)
  ∧ isTransitioning (st (toggleMusic w)) = isTransitioning (st w)
  ∧ isStarted (st (toggleMusic w)) = isStarted (st w).
Proof.
  unfold toggleMusic, update. destruct (Audio.isMusicPlaying _).
  - simpl. by destruct (mounted w).
  - destruct (Audio.startMusic _) as [[] a]; simpl; [|done]. by destruct (mounted w).
Qed.

Lemma st_handleExit w : st (handleExit w) = st w.
Proof.
  unfold handleExit. simpl.
  destruct (autoPlayTimerRef w); simpl; by destruct (hasMap w).
Qed.

Lemma len_handleExit w : len (handleExit w) = len w.
Proof.
  unfold handleExit, len. simpl.
  destruct (autoPlayTimerRef w); simpl; by destruct (hasMap w).
Qed.

Lemma st_goPrev w :
  mounted w = true →
  st (goPrev w) =
    if isTransitioning (st w) then st w
    else if 0 <? currentIndex (st w)
         then setCurrentIndex (currentIndex (st w) - 1) (st w) else st w.
Proof.
  intros Hm. unfold goPrev. destruct (isTransitioning _); [done|].
  destruct (_ <? _); [|done]. rewrite st_flyToMemory. unfold update. by rewrite Hm.
Qed.

Lemma st_skipToEnd w :
  mounted w = true →
  st (skipToEnd w) =
    if isTransitioning (st w) then st w
    else setIsAutoPlaying false (setCurrentIndex (len w - 1) (st w)).
Proof.
  intros Hm. unfold skipToEnd. destruct (isTransitioning _); [done|].
  unfold update at 1. rewrite mounted_flyToMemory, st_flyToMemory.
  unfold update. rewrite Hm. simpl. by rewrite Hm.
Qed.

Lemma indexOK_st w w' :
  st w' = st w → len w' = len w → indexOK w → indexOK w'.
Proof. unfold indexOK. by intros -> ->. Qed.

Lemma indexOK_onClick c w :
  offered c w = true → indexOK w → indexOK (onClick c w)
                                 ∧ len (onClick c w) = len w.
Proof.
  intros Hoff Hok.
  assert (Hl : len (onClick c w) = len w).
  { destruct c; simpl;
      first [ apply len_handleExit
            | apply calm_len;
              first [apply calm_startJourney | apply calm_goPrev | apply calm_update
                    | apply calm_toggleMusic | apply calm_skipToEnd ] ]. }
  split; [|done]. revert Hok. unfold indexOK. rewrite Hl.
  unfold offered in Hoff.
  apply andb_true_iff in Hoff as [Hoff Hc]. apply andb_true_iff in Hoff as [Hm Hlen].
  destruct c; cbn [onClick].
  - rewrite st_startJourney. unfold update. rewrite Hm.
    destruct (st w) as [idx auto mus started trans]. simpl in *.
    zify_bools. intros [? ?]. split; [lia|started_flag].
  - by rewrite st_handleExit.
  - rewrite (st_goPrev w Hm).
    destruct (st w) as [idx auto mus started trans]. simpl in *.
    destruct trans; [done|]. destruct (Z.ltb_spec 0 idx); [|done]. simpl.
    intros [? ?]. split; [lia|]. zify_bools. subst. started_flag.
  - unfold toggleAutoplay, update. rewrite Hm. by destruct (st w).
  - unfold update. rewrite Hm. unfold goNext, goNext_closure.
    destruct (st w) as [idx auto mus started trans]. simpl.
    destruct trans; [done|]. by destruct (_ <? _).
  - destruct (st_toggleMusic w) as (-> & _ & ->). done.
  - rewrite (st_skipToEnd w Hm).
    destruct (st w) as [idx auto mus started trans]. simpl in *.
    destruct trans; [done|]. simpl. zify_bools. subst.
    intros [? ?]. split; [lia|started_flag].
  - by rewrite st_handleExit.
Qed.

Lemma indexOK_onKeyDown k w :
  mounted w = true → indexOK w →
  indexOK (onKeyDown k w) ∧ len (onKeyDown k w) = len w.
Proof.
  intros Hm Hok.
  assert (Hl : len (onKeyDown k w) = len w).
  { destruct k; simpl;
      first [ apply len_handleExit
            | apply calm_len;
              first [apply calm_goPrev | apply calm_update | apply calm_refl ] ]. }
  split; [|done]. revert Hok. unfold indexOK. rewrite Hl.
  destruct k; cbn [onKeyDown].
  - by rewrite st_handleExit.
  - unfold update. rewrite Hm. unfold goNext, goNext_closure.
    destruct (st w) as [idx auto mus started trans]. simpl.
    destruct trans; [done|]. by destruct (_ <? _).
  - unfold update. rewrite Hm. unfold goNext, goNext_closure.
    destruct (st w) as [idx auto mus started trans]. simpl.
    destruct trans; [done|]. by destruct (_ <? _).
  - rewrite (st_goPrev w Hm).
    destruct (st w) as [idx auto mus started trans]. simpl in *.
    destruct trans; [done|]. destruct (Z.ltb_spec 0 idx); [|done]. simpl.
    intros [? ?]. split; [lia|]. subst. started_flag.
  - done.
Qed.


Lemma transitioning_onClick c w :
  offered c w = true → isTransitioning (st w) = true → isStarted (st w) = true →
  currentIndex (st (onClick c w)) = currentIndex (st w)
  ∧ isTransitioning (st (onClick c w)) = isTransitioning (st w)
  ∧ isStarted (st (onClick c w)) = isStarted (st w).
Proof.
  intros Hoff Htr Hs. unfold offered in Hoff. rewrite Htr, Hs in Hoff.
  apply andb_true_iff in Hoff as [Hoff Hc]. apply andb_true_iff in Hoff as [Hm Hlen].
  destruct c; cbn [onClick]; simpl in Hc; rewrite ?orb_true_r in Hc; simpl in Hc;
    rewrite ?andb_false_r in Hc; try done.
  - unfold toggleAutoplay, update. rewrite Hm. by destruct (st w).
  - apply st_toggleMusic.
  - by rewrite st_handleExit.
Qed.

Lemma transitioning_onKeyDown k w :
  isTransitioning (st w) = true → st (onKeyDown k w) = st w.
Proof.
  intros Htr. destruct k; cbn [onKeyDown].
  - apply st_handleExit.
  - by rewrite update_same by by apply goNext_transitioning.
  - by rewrite update_same by by apply goNext_transitioning.
  - unfold goPrev. by rewrite Htr.
  - done.
Qed.

Lemma takeoff_onClick c w :
  offered c w = true → isTransitioning (st w) = false →
  isTransitioning (st (onClick c w)) = true →
  c = NextButton ∧ 0 ≤ currentIndex (st w) < len w - 1.
Proof.
  intros Hoff Htr. unfold offered in Hoff. rewrite Htr in Hoff.
  apply andb_true_iff in Hoff as [Hoff Hc]. apply andb_true_iff in Hoff as [Hm Hlen].
  destruct c; cbn [onClick].
  - rewrite st_startJourney. unfold update. rewrite Hm. simpl. congruence.
  - rewrite st_handleExit. congruence.
  - rewrite (st_goPrev w Hm), Htr. destruct (_ <? _); simpl; congruence.
  - unfold toggleAutoplay, update. rewrite Hm. simpl. congruence.
  - intros _. split; [done|]. zify_bools. lia.
  - destruct (st_toggleMusic w) as (_ & -> & _). congruence.
  - rewrite (st_skipToEnd w Hm), Htr. simpl. congruence.
  - rewrite st_handleExit. congruence.
Qed.

Lemma takeoff_onKeyDown k w :
  mounted w = true → isTransitioning (st w) = false →
  isTransitioning (st (onKeyDown k w)) = true →
  onKeyDown k w = update (goNext (len w)) w ∧ currentIndex (st w) < len w - 1.
Proof.
  intros Hm Htr.
  assert (Hnext : isTransitioning (st (update (goNext (len w)) w)) = true →
                  currentIndex (st w) < len w - 1).
  { unfold update. rewrite Hm. simpl. unfold goNext, goNext_closure. rewrite Htr.
    destruct (Z.ltb_spec (currentIndex (st w)) (len w - 1)); [done|congruence]. }
  destruct k; cbn [onKeyDown].
  - rewrite st_handleExit. congruence.
  - intros H. split; [done|by apply Hnext].
  - intros H. split; [done|by apply Hnext].
  - rewrite (st_goPrev w Hm), Htr. destruct (_ <? _); simpl; congruence.
  - congruence.
Qed.

#[local] Arguments len !_ /.
#[local] Arguments emit _ !_ /.
#[local] Arguments freshId !_ /.
#[local] Arguments update _ !_ /.
#[local] Arguments cleanupLayers !_ /.
#[local] Arguments pathCleanup !_ /.
#[local] Arguments autoplayCleanup !_ /.
#[local] Arguments pathEffect !_ /.
#[local] Arguments autoplayEffect !_ /.
#[local] Arguments flyToMemory _ !_ /.
#[local] Arguments flyFirstEffect !_ /.
#[local] Arguments commit _ _ _ !_ /.
#[local] Arguments handle _ !_ /.
#[local] Arguments crash !_ /.
#[local] Arguments sameDeps_path _ !_ !_ /.
#[local] Arguments sameDeps_autoplay _ _ !_ !_ /.
#[local] Arguments sameDeps_flyFirst _ !_ !_ /.

(** A press of "next" on the intro screen, with a map and a record to
    show: the path effect reads [sortedMemories[-1]]. *)
Lemma next_before_start w :
  mounted w = true → hasMap w = true → isTransitioning (st w) = false →
  currentIndex (st w) = -1 → 0 < len w →
  let w' := step (KeyDown ArrowRight) w in
  mounted w' = false
  ∧ st w' = setIsTransitioning true (st w)
  ∧ trace w' = trace w ++ [UncaughtError].
Proof.
  intros Hm Hmap Htr Hi Hlen.
  destruct w as [date sorted map mnt [idx auto mus started trans] tref cref rref acl nid
                 touts rfs mes sess aud tr].
  simpl in *. subst.
  unfold onKeyDown, goNext, goNext_closure. simpl.
  assert (H1 : (-1 <? Z.of_nat (length sorted) - 1) = true) by (apply Z.ltb_lt; lia).
  rewrite H1. simpl. rewrite ?andb_false_r. simpl.
  destruct rref, acl, tref; simpl; rewrite ?H1; simpl; done.
Qed.


(** *** The invariant *)

Lemma phase_resting w :
  phase w → isTransitioning (st w) = false →
  ∃ i dn, arrived i dn w.
Proof.
  intros [H|[(sid & i & dn & H)|[(sid & tp & i & dn & H)
         |(sid & start & i & dn & H)]]] Htr; [done| | |].
  all: destruct H as [(_ & _ & _ & H & _) _]; congruence.
Qed.

Lemma phase_moving w :
  phase w → isTransitioning (st w) = true →
  0 ≤ currentIndex (st w) < len w - 1.
Proof.
  intros [(i & dn & H)|[(sid & i & dn & H)|[(sid & tp & i & dn & H)
         |(sid & start & i & dn & H)]]] Htr.
  - destruct H as (_ & _ & H & _). congruence.
  - destruct H as [(_ & _ & _ & _ & -> & H & _) _]. done.
  - destruct H as [(_ & _ & _ & _ & -> & H & _) _]. done.
  - destruct H as [(_ & _ & _ & _ & -> & H & _) _]. done.
Qed.

Lemma phase_cancelRef w : phase w → isTransitioning (st w) = true → cancelRef w = false.
Proof.
  intros [(i & dn & H)|[(sid & i & dn & H)|[(sid & tp & i & dn & H)
         |(sid & start & i & dn & H)]]] Htr.
  - destruct H as (_ & _ & H & _). congruence.
  - by destruct H as [(_ & _ & H & _) _].
  - by destruct H as [(_ & _ & H & _) _].
  - by destruct H as [(_ & _ & H & _) _].
Qed.

Lemma arrived_idle i dn w : arrived i dn w → idle w.
Proof. intros (_ & _ & _ & _ & H1 & H2 & H3 & H4 & _). by repeat split. Qed.

Lemma core_handle h w :
  mounted w = true → refOK w → idsGivenOut w → core w →
  calm w (h w) → quiet w (h w) → indexOK (h w) →
  (isTransitioning (st w) = true → isStarted (st w) = true →
     currentIndex (st (h w)) = currentIndex (st w)
     ∧ isTransitioning (st (h w)) = isTransitioning (st w)
     ∧ isStarted (st (h w)) = isStarted (st w)) →
  (isTransitioning (st w) = false → isTransitioning (st (h w)) = true →
     h w = update (goNext (len w)) w ∧ currentIndex (st w) < len w - 1) →
  core (handle h w).
Proof.
  intros Hm Hr Hids [Hok Hph] Hcalm Hq Hokv Hmoving Htakeoff.
  destruct (Hph Hm) as [Hc Hph']. clear Hph.
  assert (Hrv : refOK (h w)) by by eapply refOK_quiet.
  assert (Hiv : idsGivenOut (h w)) by by apply Hcalm.
  assert (Hlen : len (handle h w) = len (h w)) by apply commit_len.
  assert (Hst : st (handle h w) = st (h w)) by apply handle_st.
  split; [by apply (indexOK_st (h w))|].
  intros Hm'.
  destruct (hasMap w) eqn:Hmap.
  - destruct (isTransitioning (st w)) eqn:Htr.
    + assert (Hs : isStarted (st w) = true).
      { destruct Hok as [_ ->]. apply Z.leb_le. by apply phase_moving. }
      destruct (Hmoving eq_refl Hs) as (E1 & E2 & E3).
      assert (Ha : aside (h w) (handle h w)).
      { apply commit_aside; [done|done|]. left.
        unfold sameDeps_path. simpl. rewrite E1, E2, Htr, Z.eqb_refl. done. }
      assert (Hb : aside w (handle h w)).
      { eapply aside_trans; [|exact Ha]. split; [done|]. by rewrite Htr. }
      destruct Hb as [Hb1 Hb2]. pose proof Hb1 as (_ & -> & _ & -> & _).
      split; [congruence|]. rewrite Hmap. by apply (aside_phase w).
    + destruct (phase_resting w Hph' Htr) as (i & dn & Harr).
      destruct (isTransitioning (st (h w))) eqn:Htrv.
      * destruct (Htakeoff eq_refl eq_refl) as [Eh Hlt].
        assert (E : handle h w = step (KeyDown ArrowRight) w).
        { cbn [step]. rewrite Hm. unfold handle. by rewrite Eh. }
        destruct (Z.le_gt_cases 0 (currentIndex (st w))) as [H0|Hneg].
        -- assert (Hfly : flying (nextId w) i dn (step (KeyDown ArrowRight) w)).
           { apply goNext_takes_off; [done|].
             destruct Harr as (_ & _ & _ & <- & _). lia. }
           rewrite E. destruct Hfly as [Hin Hrest].
           pose proof Hin as (_ & -> & -> & _). split; [done|].
           right; left. by exists (nextId w), i, dn.
        -- destruct (next_before_start w) as (Hdead & _); try done.
           { destruct Hok as [[? ?] _]. lia. }
           { destruct Hok as [[? ?] _]. lia. }
           rewrite E in Hm'. congruence.
      * assert (Ha : aside (h w) (handle h w)).
        { apply commit_aside; [done|done|]. right; right.
          destruct Hcalm as (_ & _ & _ & -> & -> & _).
          destruct Harr as (_ & _ & _ & _ & _ & _ & -> & _). done. }
        pose proof Ha as [Ha1 (Ha2 & Ha3 & Ha4)].
        destruct (calm_trans _ _ _ Hcalm Ha1) as (_ & Hmap' & _ & Hc' & _ & _ & _ & Hdone & _).
        split; [congruence|]. rewrite Hmap', Hmap.
        left. exists (currentIndex (st (handle h w))), dn.
        assert (Hidle : idle (handle h w)).
        { eapply calm_idle; [exact Ha1|]. eapply calm_idle; [exact Hcalm|].
          by eapply arrived_idle. }
        destruct Hidle as (I1 & I2 & I3 & I4).
        destruct Harr as (_ & _ & _ & _ & _ & _ & _ & _ & Hd).
        repeat split; try done; congruence.
  - assert (Ha : aside (h w) (handle h w)).
    { apply commit_aside; [done|done|]. right; left.
      destruct Hcalm as (_ & -> & _). done. }
    destruct Ha as [Ha _].
    destruct (calm_trans _ _ _ Hcalm Ha) as (_ & Hmap' & _ & Hc' & _).
    split; [congruence|]. rewrite Hmap', Hmap.
    eapply calm_idle; [exact Ha|]. by eapply calm_idle.
Qed.


Lemma aside_core w w' : aside w w' → core w → core w'.
Proof.
  intros Ha [Hok Hph]. split; [by apply (aside_indexOK w)|].
  pose proof Ha as [Hc _]. pose proof Hc as (-> & -> & _ & -> & _).
  intros Hm. destruct (Hph Hm) as [? Hp]. split; [done|].
  destruct (hasMap w); [by apply (aside_phase w)|by apply (calm_idle w)].
Qed.

(** An unmounted component keeps its state. *)
Lemma frozen_animate sid now w :
  mounted w = false →
  mounted (animate sid now w) = false ∧ st (animate sid now w) = st w
  ∧ sortedMemories (animate sid now w) = sortedMemories w.
Proof.
  intros Hm. unfold animate. destruct (cancelRef w); [done|].
  destruct (sessions w !! sid); [|done].
  destruct (_ <? _); simpl; rewrite ?Hm; simpl; rewrite ?Hm; done.
Qed.

Lemma frozen_step e w :
  sameMemories e → mounted w = false →
  mounted (step e w) = false ∧ st (step e w) = st w
  ∧ sortedMemories (step e w) = sortedMemories w.
Proof.
  intros He Hm.
  destruct e as [c|k|t|now| |e|ms|]; cbn [step].
  - unfold offered. by rewrite Hm.
  - by rewrite Hm.
  - unfold fireTimeout. destruct (timeouts w !! t) as [[i l tr|sid]|]; [| |done].
    + unfold handle, commit, update. simpl. rewrite Hm. simpl. by rewrite Hm.
    + unfold travelPause. simpl. by destruct (cancelRef w).
  - unfold runFrame. generalize (merge_sort Pos.le (map_to_list (rafs w)).*1).
    intros ids.
    assert (H : ∀ v, mounted v = false ∧ st v = st w
                     ∧ sortedMemories v = sortedMemories w →
      let v' := foldl (λ w r, match rafs w !! r with
                              | Some sid => animate sid now (set_rafs (delete r (rafs w)) w)
                              | None => w
                              end) v ids in
      mounted v' = false ∧ st v' = st w ∧ sortedMemories v' = sortedMemories w).
    { induction ids as [|r ids IH]; intros v Hv; simpl; [done|].
      apply IH. destruct Hv as (Hvm & Hvs & Hvl).
      destruct (rafs v !! r) as [sid|]; [|done].
      destruct (frozen_animate sid now (set_rafs (delete r (rafs v)) v) Hvm)
        as (H1 & H2 & H3).
      cbn [set_rafs st sortedMemories] in H2, H3.
      repeat split; [done|congruence|congruence]. }
    by apply H.
  - unfold fireMoveEnd. generalize (moveend w). intros ids.
    assert (H : ∀ v, mounted v = false ∧ st v = st w
                     ∧ sortedMemories v = sortedMemories w →
      let v' := foldl (λ w sid, if bool_decide (sid ∈ moveend w)
                                then onFlyEnd sid w else w) v ids in
      mounted v' = false ∧ st v' = st w ∧ sortedMemories v' = sortedMemories w).
    { induction ids as [|sid ids IH]; intros v Hv; simpl; [done|].
      apply IH. destruct Hv as (Hvm & Hvs & Hvl).
      destruct (bool_decide _); [|done].
      unfold onFlyEnd. simpl. destruct (cancelRef v); simpl; done. }
    by apply H.
  - done.
  - done.
  - by rewrite Hm.
Qed.

Lemma core_frozen e w :
  sameMemories e → mounted w = false → core w → core (step e w).
Proof.
  intros He Hm [Hok _]. destruct (frozen_step e w He Hm) as (Hm' & Hst & Hl).
  split; [|congruence]. apply (indexOK_st w); [done| |done].
  unfold len. by rewrite Hl.
Qed.

Lemma core_click c w :
  mounted w = true → idsGivenOut w → refOK w → core w → core (step (Click c) w).
Proof.
  intros Hm Hids Hr Hcore. cbn [step]. destruct (offered c w) eqn:Hoff; [|done].
  apply core_handle; try done.
  - by apply calm_onClick.
  - apply quiet_onClick.
  - apply indexOK_onClick; [done|apply Hcore].
  - intros. by apply transitioning_onClick.
  - intros Htr Htr'. destruct (takeoff_onClick c w Hoff Htr Htr') as [-> ?].
    split; [done|lia].
Qed.

Lemma core_keydown k w :
  mounted w = true → idsGivenOut w → refOK w → core w → core (step (KeyDown k) w).
Proof.
  intros Hm Hids Hr Hcore. cbn [step]. rewrite Hm.
  apply core_handle; try done.
  - by apply calm_onKeyDown.
  - apply quiet_onKeyDown.
  - apply indexOK_onKeyDown; [done|apply Hcore].
  - intros Htr _. by rewrite (transitioning_onKeyDown k w Htr).
  - intros Htr Htr'. by apply takeoff_onKeyDown.
Qed.


Lemma runFrame_none now w : rafs w = ∅ → runFrame now w = w.
Proof. intros H. unfold runFrame. by rewrite H, map_to_list_empty. Qed.

Lemma fireMoveEnd_none w : moveend w = [] → fireMoveEnd w = w.
Proof. intros H. unfold fireMoveEnd. by rewrite H. Qed.

Lemma phase_rafs w :
  phase w →
  rafs w = ∅ ∨ ∃ sid start i dn, ticking sid start i dn w.
Proof.
  intros [(i & dn & H)|[(sid & i & dn & H)|[(sid & tp & i & dn & H)|H]]].
  - left. by destruct H as (_ & _ & _ & _ & _ & _ & H & _).
  - left. by destruct H as (_ & _ & H & _).
  - left. by destruct H as (_ & _ & H & _).
  - by right.
Qed.

Lemma phase_moveend w :
  phase w →
  moveend w = [] ∨ ∃ sid i dn, flying sid i dn w.
Proof.
  intros [(i & dn & H)|[H|[(sid & tp & i & dn & H)|(sid & start & i & dn & H)]]].
  - left. by destruct H as (_ & _ & _ & _ & _ & H & _).
  - by right.
  - left. by destruct H as (_ & H & _).
  - left. by destruct H as (_ & H & _).
Qed.

Lemma phase_pause t s w :
  phase w → timeouts w !! t = Some (TravelPause s) →
  ∃ i dn, pausing s t i dn w.
Proof.
  intros [(i & dn & H)|[(sid & i & dn & H)|[(sid & tp & i & dn & H)
         |(sid & start & i & dn & H)]]] Ht.
  - destruct H as (_ & _ & _ & _ & _ & _ & _ & H & _). by apply H in Ht.
  - destruct H as (_ & _ & _ & H). by apply H in Ht.
  - destruct (decide (t = tp)) as [->|Hne].
    + pose proof H as (_ & _ & _ & Htp & _).
      assert (s = sid) as -> by congruence. by exists i, dn.
    + destruct H as (_ & _ & _ & _ & H).
      assert (Hd : delete tp (timeouts w) !! t = Some (TravelPause s))
        by by apply lookup_delete_Some.
      by apply H in Hd.
  - destruct H as (_ & _ & _ & H). by apply H in Ht.
Qed.

Lemma frame_state sid start i dn now w :
  ticking sid start i dn w →
  let w' := step (AnimationFrame now) w in
  len w' = len w ∧ cancelRef w' = false
  ∧ st w' = if now - default now start <? ANIM_DURATION then st w
            else handleTransitionComplete (st w).
Proof.
  intros ((Hm & Hmap & Hcr & Htr & Hi & Hrange & Hids & (ss & Hss & Hst) & Hdone)
          & Hme & (r & Hraf) & Hnp).
  simpl. rewrite (runFrame_single r sid now w Hraf).
  destruct w as [date sorted map mnt [idx auto mus started trans] tref cref rref acl nid
                 touts rfs mes sess aud tr].
  simpl in *. subst. unfold animate. simpl. rewrite Hss. simpl.
  destruct (Z.ltb_spec (now - default now (startTime ss)) ANIM_DURATION) as [Hearly|Hlate].
  - rewrite Z.min_l by lia. rewrite (proj2 (Z.ltb_lt _ _) Hearly). by simpl.
  - rewrite Z.min_r by lia. rewrite Z.ltb_irrefl. simpl.
    assert (Hne : (i =? i + 1) = false) by (apply Z.eqb_neq; lia).
    assert (Hnz : (i + 1 =? 0) = false) by (apply Z.eqb_neq; lia).
    assert (Hnn : (i + 1 <? 0) = false) by (apply Z.ltb_ge; lia).
    rewrite ?Hne, ?andb_false_r. simpl.
    destruct rref, acl, tref, started, auto; simpl;
      repeat (rewrite ?Hne, ?Hnz, ?Hnn, ?andb_false_r, ?delete_empty; simpl).
    all: done.
Qed.

Lemma moveEnd_state sid i dn w :
  flying sid i dn w →
  len (step MoveEnd w) = len w ∧ st (step MoveEnd w) = st w.
Proof.
  intros (_ & Hme & _). cbn [step]. unfold fireMoveEnd. rewrite Hme.
  cbn [foldl]. rewrite bool_decide_eq_true_2 by (rewrite Hme; left).
  pose proof (sameRender_onFlyEnd sid w) as Hsr.
  split; [by apply sameRender_len|apply Hsr].
Qed.

Lemma pause_state t s w :
  timeouts w !! t = Some (TravelPause s) →
  len (step (TimeoutFires t) w) = len w ∧ st (step (TimeoutFires t) w) = st w.
Proof.
  intros Ht. cbn [step]. unfold fireTimeout. rewrite Ht. unfold travelPause. simpl.
  by destruct (cancelRef w).
Qed.

Lemma inTransition_cancelRef sid start i dn w :
  inTransition sid start i dn w → cancelRef w = false ∧ hasMap w = true.
Proof. by intros (_ & ? & ? & _). Qed.

Lemma core_timeout t w :
  mounted w = true → timersCurrent w → refOK w → core w →
  core (step (TimeoutFires t) w).
Proof.
  intros Hm Hcur Hr Hcore.
  pose proof (scheduledFor_ids _ _ _ Hcur) as Hids.
  destruct (timeouts w !! t) as [[i l tr|s]|] eqn:Ht.
  - destruct Hcur as [_ Hs].
    destruct (Hs t i l tr Ht) as (_ & _ & _ & -> & -> & -> & Hst & Hau & Htr & H0).
    cbn [step]. unfold fireTimeout. rewrite Ht.
    set (w1 := set_timeouts (delete t (timeouts w)) w).
    assert (Ha : aside w w1).
    { split; [|done]. apply calm_delete_tick. intros s. by rewrite Ht. }
    assert (Hst1 : st (update (autoplayFire (currentIndex (st w)) (len w) false) w1)
                   = autoplayFire (currentIndex (st w)) (len w) false (st w)).
    { unfold update. simpl. by rewrite Hm. }
    apply core_handle.
    + done.
    + eapply refOK_quiet; [done|apply quiet_clearTimeout].
    + by apply Ha.
    + by apply (aside_core w).
    + apply calm_update.
    + apply quiet_update.
    + destruct Hcore as [[Hrange Hflag] _]. unfold indexOK. rewrite Hst1.
      rewrite (calm_len _ _ (calm_update _ w1)). change (len w1) with (len w).
      unfold autoplayFire, goNext_closure.
      destruct (_ <? _); by destruct (st w).
    + change (st w1) with (st w). congruence.
    + change (st w1) with (st w). change (len w1) with (len w). intros _.
      rewrite Hst1. unfold autoplayFire.
      destruct (Z.ltb_spec (currentIndex (st w)) (len w - 1)) as [Hlt|Hge].
      * intros _. split; [|done]. unfold update. simpl. rewrite Hm.
        unfold goNext. by rewrite Htr.
      * simpl. congruence.
  - destruct Hcore as [Hok Hph]. destruct (Hph Hm) as [Hc Hp].
    destruct (pause_state t s w Ht) as [Hl Hs].
    split; [by apply (indexOK_st w)|]. intros _.
    destruct (hasMap w) eqn:Hmap.
    + destruct (phase_pause t s w Hp Ht) as (i & dn & Hpa).
      pose proof (pause_starts_ticking _ _ _ _ _ Hpa) as Htk.
      destruct (inTransition_cancelRef _ _ _ _ _ (proj1 Htk)) as [-> ->].
      split; [done|]. right; right; right. by exists s, None, i, dn.
    + destruct Hp as (_ & _ & _ & Hnp). by apply Hnp in Ht.
  - cbn [step]. unfold fireTimeout. by rewrite Ht.
Qed.

Lemma core_frame now w :
  mounted w = true → core w → core (step (AnimationFrame now) w).
Proof.
  intros Hm Hcore. pose proof Hcore as [Hok Hph]. destruct (Hph Hm) as [Hc Hp].
  destruct (hasMap w) eqn:Hmap.
  - destruct (phase_rafs w Hp) as [Hraf|(sid & start & i & dn & Htk)].
    { cbn [step]. by rewrite runFrame_none. }
    destruct (frame_state sid start i dn now w Htk) as (Hl & Hcr & Hs).
    pose proof Htk as [(_ & _ & _ & Htr & Hi & Hrange & _) _].
    destruct (Z.ltb_spec (now - default now start) ANIM_DURATION) as [Hearly|Hlate].
    + pose proof (frame_ticks sid start i dn now w Htk Hearly) as Htk'.
      split; [by apply (indexOK_st w)|]. intros _.
      destruct (inTransition_cancelRef _ _ _ _ _ (proj1 Htk')) as [-> ->].
      split; [done|]. right; right; right.
      by exists sid, (Some (default now start)), i, dn.
    + pose proof (frame_completes sid start i dn now w Htk Hlate) as Harr.
      split.
      * destruct Hok as [_ Hflag]. unfold indexOK. rewrite Hl, Hs. simpl.
        rewrite Hflag, Hi. split; [lia|]. started_flag.
      * intros _. pose proof Harr as (_ & -> & _).
        split; [done|left; by exists (i + 1), (dn ++ [sid])].
  - destruct Hp as (_ & _ & Hraf & _). cbn [step]. by rewrite runFrame_none.
Qed.

Lemma core_moveEnd w :
  mounted w = true → core w → core (step MoveEnd w).
Proof.
  intros Hm Hcore. pose proof Hcore as [Hok Hph]. destruct (Hph Hm) as [Hc Hp].
  destruct (hasMap w) eqn:Hmap.
  - destruct (phase_moveend w Hp) as [Hme|(sid & i & dn & Hfl)].
    { cbn [step]. by rewrite fireMoveEnd_none. }
    destruct (moveEnd_state sid i dn w Hfl) as [Hl Hs].
    pose proof (moveEnd_starts_pause sid i dn w Hfl) as Hpa.
    split; [by apply (indexOK_st w)|]. intros _.
    destruct (inTransition_cancelRef _ _ _ _ _ (proj1 Hpa)) as [-> ->].
    split; [done|]. right; right; left. by exists sid, (nextId w), i, dn.
  - destruct Hp as (_ & Hme & _). cbn [step]. by rewrite fireMoveEnd_none.
Qed.

Lemma core_unmount w : mounted w = true → core w → core (step Unmount w).
Proof.
  intros Hm [Hok _]. cbn [step]. rewrite Hm.
  assert (H : mounted (unmount w) = false ∧ st (unmount w) = st w
              ∧ len (unmount w) = len w).
  { unfold unmount.
    destruct w as [date sorted map mnt s tref cref rref acl nid
                   touts rfs mes sess aud tr].
    simpl. destruct map, rref, acl, tref; simpl; done. }
  destruct H as (Hm' & Hs & Hl).
  split; [by apply (indexOK_st w)|congruence].
Qed.

Lemma core_step e w :
  sameMemories e → timersCurrent w → refOK w → core w → core (step e w).
Proof.
  intros He Hcur Hr Hcore.
  destruct (mounted w) eqn:Hm; [|by apply core_frozen].
  pose proof (scheduledFor_ids _ _ _ Hcur) as Hids.
  destruct e as [c|k|t|now| |e|ms|].
  - by apply core_click.
  - by apply core_keydown.
  - by apply core_timeout.
  - by apply core_frame.
  - by apply core_moveEnd.
  - apply (aside_core w); [|done]. split; [apply calm_set_audio|done].
  - done.
  - by apply core_unmount.
Qed.

Lemma core_mount date ms map a : core (mount date ms map a).
Proof.
  unfold mount. split.
  - unfold indexOK. destruct map; simpl; (split; [lia|done]).
  - intros _.
    assert (Hidle : ∀ w, timeouts w = ∅ → moveend w = [] → rafs w = ∅ → idle w).
    { intros w Ht Hme Hraf. repeat split; try done.
      - intros t [cb Hcb]. by rewrite Ht, lookup_empty in Hcb.
      - unfold noPause. rewrite Ht. apply map_Forall_empty. }
    destruct map; simpl.
    + split; [done|]. left. exists (-1), [].
      match goal with |- arrived _ _ ?w => destruct (Hidle w) as (? & ? & ? & ?) end;
        try done.
    + split; [done|]. by apply Hidle.
Qed.

Lemma sound_step e w : sameMemories e → sound w → sound (step e w).
Proof.
  intros He (Hcur & Hr & Hcore).
  split; [by apply step_current|]. split; [by apply refOK_step|by apply core_step].
Qed.

Lemma sound_mount date ms map a : sound (mount date ms map a).
Proof.
  split; [apply mount_current|]. split; [apply refOK_mount|apply core_mount].
Qed.

Lemma sound_run es w : Forall sameMemories es → sound w → sound (run es w).
Proof.
  intros Hes. revert w. unfold run.
  induction Hes as [|e es He _ IH]; intros w Hw; simpl; [done|].
  by apply IH, sound_step.
Qed.


(** *** Commits that cannot throw *)

Lemma pathEffect_resting v :
  isTransitioning (st v) = false → (pathEffect v).1 = Returned.
Proof.
  intros Htr.
  assert (E : st (cleanupLayers (set_cancelRef false v)) = st v).
  { unfold cleanupLayers. simpl. by destruct (rafRef v). }
  unfold pathEffect. destruct (hasMap v); [|done].
  cbv beta iota zeta delta [negb]. by rewrite E, Htr.
Qed.

Lemma commit_resting m p pl w :
  isTransitioning (st w) = false → mounted (commit m p pl w) = mounted w.
Proof.
  intros Htr. unfold commit. destruct (mounted w) eqn:Hm; simpl; [|done].
  set (w1 := if _ && _ then pathCleanup w else w).
  assert (H1 : mounted w1 = true ∧ st w1 = st w).
  { subst w1. destruct (_ && _); [|done]. split.
    - rewrite <- Hm. apply quiet_pathCleanup.
    - apply sameRender_pathCleanup. }
  clearbody w1. destruct H1 as [Hm1 Hs1].
  set (w2 := if _ && _ then autoplayCleanup w1 else w1).
  assert (H2 : mounted w2 = true ∧ st w2 = st w).
  { subst w2. destruct (_ && _); [|done]. split.
    - rewrite <- Hm1. apply quiet_autoplayCleanup.
    - rewrite <- Hs1. apply sameRender_autoplayCleanup. }
  clearbody w2. destruct H2 as [Hm2 Hs2].
  set (r := if sameDeps_path m p (st w) then (Returned, w2) else pathEffect w2).
  assert (H3 : r.1 = Returned ∧ mounted r.2 = true).
  { subst r. destruct (sameDeps_path _ _ _); [done|]. split.
    - apply pathEffect_resting. congruence.
    - rewrite <- Hm2. apply quiet_pathEffect. }
  clearbody r. destruct r as [o w3]. simpl in H3. destruct H3 as [-> Hm3].
  set (w4 := if sameDeps_autoplay _ _ _ _ then w3 else autoplayEffect w3).
  assert (H4 : mounted w4 = true).
  { subst w4. destruct (sameDeps_autoplay _ _ _ _); [done|].
    unfold autoplayEffect. by destruct (_ || _). }
  clearbody w4. destruct (sameDeps_flyFirst _ _ _); [done|].
  rewrite <- H4. apply quiet_flyFirstEffect.
Qed.




(** *** The map prop *)

Lemma hasMap_commit m p pl w : hasMap (commit m p pl w) = hasMap w.
Proof. apply sameRender_commit. Qed.

Lemma hasMap_handleExit w : hasMap (handleExit w) = hasMap w.
Proof.
  destruct w as [date sorted map mnt s tref cref rref acl nid
                 touts rfs mes sess aud tr].
  unfold handleExit. simpl. by destruct tref, map.
Qed.

Lemma hasMap_update f w : hasMap (update f w) = hasMap w.
Proof. apply calm_update. Qed.

Lemma hasMap_animate sid now w : hasMap (animate sid now w) = hasMap w.
Proof.
  unfold animate. destruct (cancelRef w); [done|].
  destruct (sessions w !! sid); [|done].
  destruct (_ <? _); [done|].
  unfold handle. rewrite hasMap_commit, hasMap_update. done.
Qed.

Lemma hasMap_step e w : hasMap (step e w) = hasMap w.
Proof.
  destruct e as [c|k|t|now| |e|ms|]; cbn [step].
  - destruct (offered c w); [|done]. unfold handle. rewrite hasMap_commit.
    destruct c; cbn [onClick];
      first [ apply hasMap_handleExit | apply hasMap_update
            | apply calm_startJourney | apply calm_goPrev
            | apply calm_toggleMusic | apply calm_skipToEnd ].
  - destruct (mounted w); [|done]. unfold handle. rewrite hasMap_commit.
    destruct k; cbn [onKeyDown];
      first [ apply hasMap_handleExit | apply hasMap_update | apply calm_goPrev | done ].
  - unfold fireTimeout. destruct (timeouts w !! t) as [[i l tr|sid]|]; [| |done].
    + unfold handle. by rewrite hasMap_commit, hasMap_update.
    + unfold travelPause. simpl. by destruct (cancelRef w).
  - unfold runFrame. generalize (merge_sort Pos.le (map_to_list (rafs w)).*1).
    intros ids. revert w. induction ids as [|r ids IH]; intros w; simpl; [done|].
    rewrite IH. destruct (rafs w !! r); [|done]. by rewrite hasMap_animate.
  - unfold fireMoveEnd. generalize (moveend w).
    intros ids. revert w. induction ids as [|sid ids IH]; intros w; simpl; [done|].
    rewrite IH. destruct (bool_decide _); [|done]. apply sameRender_onFlyEnd.
  - done.
  - destruct (mounted w); [|done]. by rewrite hasMap_commit.
  - destruct (mounted w); [|done]. unfold unmount.
    destruct w as [date sorted map mnt s tref cref rref acl nid
                   touts rfs mes sess aud tr].
    simpl. destruct map, rref, acl, tref; simpl; done.
Qed.

Lemma hasMap_run es w : hasMap (run es w) = hasMap w.
Proof.
  unfold run. revert w. induction es as [|e es IH]; intros w; simpl; [done|].
  by rewrite IH, hasMap_step.
Qed.

Lemma hasMap_mount date ms map a : hasMap (mount date ms map a) = map.
Proof. unfold mount. by destruct map. Qed.


(** *** The journey under autoplay *)

Lemma sortChronologically_length date ms :
  length (sortChronologically date ms) = length ms.
Proof. apply Permutation_length, SorterFacts.sorted_perm. Qed.

Lemma start_cruises date ms a :
  ms ≠ [] →
  Engine.cruising 0 [] (step (Click StartButton) (mount date ms true a)).
Proof.
  intros Hne.
  assert (Hcur : timersCurrent (step (Click StartButton) (mount date ms true a)))
    by apply step_current, mount_current.
  split; [|split; [exact Hcur|]]; clear Hcur.
  all: pose proof (sortChronologically_length date ms) as Hl.
  all: assert (Hlen : (Z.of_nat (length (sortChronologically date ms)) =? 0) = false)
         by (apply Z.eqb_neq; rewrite Hl; destruct ms; [done|simpl; lia]).
  all: unfold mount; simpl; unfold offered; simpl; rewrite Hlen; simpl.
  all: unfold startJourney; simpl.
  all: destruct (Audio.startMusic a) as [[] a']; simpl.
  all: destruct (_ <=? 0); [|destruct (at_index _ _)]; simpl.
  all: try (eexists 1%positive, _, _, _; apply lookup_insert_eq).
  all: repeat split; simpl; try done.
  all: first [ intros t [cb Hcb]; simpl in *;
               apply lookup_insert_Some in Hcb as [[<- _]|[_ Hcb]];
               [lia|by rewrite lookup_empty in Hcb]
             | unfold noPause; simpl; apply map_Forall_insert_2;
               [done|apply map_Forall_empty] ].
Qed.


Lemma frame_completes_schedules sid start i dn now w :
  ticking sid start i dn w → ANIM_DURATION ≤ now - default now start →
  isStarted (st w) = true → isAutoPlaying (st w) = true →
  ∃ t, timeouts (step (AnimationFrame now) w) !! t
       = Some (AutoplayTick (i + 1) (len w) false).
Proof.
  intros ((Hm & Hmap & Hcr & Htr & Hi & Hrange & Hids & (ss & Hss & Hst) & Hdone)
          & Hme & (r & Hraf) & Hnp) Hlate Hs Ha.
  simpl. rewrite (runFrame_single r sid now w Hraf).
  destruct w as [date sorted map mnt [idx auto mus started trans] tref cref rref acl nid
                 touts rfs mes sess aud tr].
  simpl in *. subst. unfold animate. simpl. rewrite Hss. simpl.
  rewrite Z.min_r by lia. rewrite Z.ltb_irrefl. simpl.
  assert (Hne : (i =? i + 1) = false) by (apply Z.eqb_neq; lia).
  assert (Hnz : (i + 1 =? 0) = false) by (apply Z.eqb_neq; lia).
  assert (Hnn : (i + 1 <? 0) = false) by (apply Z.ltb_ge; lia).
  rewrite ?Hne, ?andb_false_r. simpl.
  destruct rref, acl, tref; simpl;
    repeat (rewrite ?Hne, ?Hnz, ?Hnn, ?andb_false_r, ?delete_empty; simpl).
  all: eexists; apply lookup_insert_eq.
Qed.

Lemma takeoff_state i dn w :
  arrived i dn w → 0 ≤ i < len w - 1 →
  st (step (KeyDown ArrowRight) w) = setIsTransitioning true (st w)
  ∧ len (step (KeyDown ArrowRight) w) = len w.
Proof.
  intros (Hm & _ & Htr & Hi & _) Hrange. cbn [step]. rewrite Hm.
  split.
  - rewrite handle_st. cbn [onKeyDown]. unfold update. rewrite Hm.
    cbn [st set_st]. unfold goNext, goNext_closure. rewrite Htr, Hi.
    by rewrite (proj2 (Z.ltb_lt _ _) (proj2 Hrange)).
  - unfold handle. rewrite commit_len. apply calm_len, calm_update.
Qed.

Lemma cruise_segment t0 i dn w :
  Engine.cruising i dn w → i < len w - 1 →
  Engine.cruising (i + 1) (dn ++ [nextId w]) (Engine.playSegment t0 w)
  ∧ len (Engine.playSegment t0 w) = len w.
Proof.
  intros (Harr & Hcur & (t & i' & l & tr & Ht)) Hlt.
  destruct (proj2 Hcur t i' l tr Ht)
    as (Hm & Hacl & Href & -> & -> & -> & Hst & Hau & Htr & H0).
  pose proof Harr as (_ & _ & _ & Hi & _).
  assert (Hrange : 0 ≤ i < len w - 1) by lia.
  unfold Engine.playSegment, Engine.fireAutoplay. rewrite Href.
  rewrite (fire_is_goNext t _ _ _ w Hcur Ht) by lia.
  set (w1 := step (KeyDown ArrowRight) w).
  pose proof (goNext_takes_off i dn w Harr Hrange) as H1. fold w1 in H1.
  destruct (takeoff_state i dn w Harr Hrange) as [S1 L1]. fold w1 in S1, L1.
  pose proof (step_current (KeyDown ArrowRight) w Hcur) as C1. fold w1 in C1.
  set (w2 := step MoveEnd w1).
  pose proof (moveEnd_starts_pause _ _ _ _ H1) as H2. fold w2 in H2.
  destruct (moveEnd_state _ _ _ _ H1) as [L2 S2]. fold w2 in S2, L2.
  pose proof (step_current MoveEnd w1 C1) as C2. fold w2 in C2.
  set (w3 := step (TimeoutFires (nextId w1)) w2).
  pose proof (pause_starts_ticking _ _ _ _ _ H2) as H3. fold w3 in H3.
  destruct (pause_state (nextId w1) (nextId w) w2) as [L3 S3].
  { by destruct H2 as (_ & _ & _ & ? & _). }
  fold w3 in S3, L3.
  pose proof (step_current (TimeoutFires (nextId w1)) w2 C2) as C3. fold w3 in C3.
  set (w4 := step (AnimationFrame t0) w3).
  assert (H4 : ticking (nextId w) (Some t0) i dn w4).
  { apply (frame_ticks _ None _ _ t0 w3 H3). simpl. unfold ANIM_DURATION. lia. }
  destruct (frame_state _ None i dn t0 w3 H3) as (L4 & _ & S4).
  fold w4 in L4, S4. simpl in S4. rewrite Z.sub_diag in S4.
  change (0 <? ANIM_DURATION) with true in S4. cbv iota in S4.
  pose proof (step_current (AnimationFrame t0) w3 C3) as C4. fold w4 in C4.
  assert (Hlate : ANIM_DURATION ≤ t0 + ANIM_DURATION - default (t0 + ANIM_DURATION) (Some t0))
    by (simpl; lia).
  pose proof (frame_completes _ _ _ _ _ w4 H4 Hlate) as H5.
  destruct (frame_state _ _ i dn (t0 + ANIM_DURATION) w4 H4) as (L5 & _ & _).
  pose proof (step_current (AnimationFrame (t0 + ANIM_DURATION)) w4 C4) as C5.
  assert (S : st w4 = setIsTransitioning true (st w)) by congruence.
  destruct (frame_completes_schedules _ _ _ _ _ w4 H4 Hlate) as [t' Ht'].
  { by rewrite S. }
  { by rewrite S. }
  split; [|congruence].
  split; [done|]. split; [done|]. by eexists t', _, _, _.
Qed.

Lemma cruise_segments n :
  ∀ t0 i dn w,
    Engine.cruising i dn w → i + Z.of_nat n ≤ len w - 1 →
    let w' := Engine.playSegments n t0 w in
    len w' = len w
    ∧ ∃ dn', Engine.cruising (i + Z.of_nat n) (dn ++ dn') w' ∧ length dn' = n.
Proof.
  induction n as [|n IH]; intros t0 i dn w Hc Hle; simpl.
  - split; [done|]. exists []. rewrite Z.add_0_r, app_nil_r. done.
  - destruct (cruise_segment t0 i dn w Hc) as [Hc' Hl']; [lia|].
    destruct (IH (t0 + 2 * ANIM_DURATION) (i + 1) (dn ++ [nextId w])
                 (Engine.playSegment t0 w) Hc')
      as (Hl & dn' & Hc2 & Hn); [lia|].
    split; [congruence|]. exists (nextId w :: dn').
    replace (i + Z.of_nat (S n)) with (i + 1 + Z.of_nat n) by lia.
    rewrite <- app_assoc in Hc2. split; [done|]. simpl. by rewrite Hn.
Qed.

Lemma cruise_end i dn w :
  Engine.cruising i dn w → len w - 1 ≤ i →
  let w' := Engine.fireAutoplay w in
  st w' = setIsAutoPlaying false (st w) ∧ len w' = len w
  ∧ noAutoplayTimer w'.
Proof.
  intros (Harr & Hcur & (t & i' & l & tr & Ht)) Hge.
  destruct (proj2 Hcur t i' l tr Ht)
    as (Hm & Hacl & Href & -> & -> & -> & Hst & Hau & Htr & H0).
  pose proof Harr as (_ & _ & _ & Hi & _).
  unfold Engine.fireAutoplay. rewrite Href.
  pose proof (fire_at_end t _ _ _ w Hcur Ht) as Hs.
  assert (Hs' : st (step (TimeoutFires t) w) = setIsAutoPlaying false (st w))
    by (apply Hs; lia).
  pose proof (step_current (TimeoutFires t) w Hcur) as C.
  split; [done|]. split.
  - cbn [step]. unfold fireTimeout. rewrite Ht. unfold handle.
    rewrite commit_len. by rewrite (calm_len _ _ (calm_update _ _)).
  - intros t' i' l' tr' Ht'.
    destruct (proj2 C t' i' l' tr' Ht') as (_ & _ & _ & _ & _ & _ & _ & Hau' & _).
    rewrite Hs' in Hau'. done.
Qed.

End EngineFacts.

(** * The claims *)

Import Sorter Playback.

(** C1. [goNext] is a no-op while a transition runs, for the state and
    for the whole component; it never writes the index; a transition it
    begins leaves the index alone until [handleTransitionComplete] runs,
    which adds exactly 1 and clears [transitioning], however often
    [goNext] is called in between.  In the host: from rest at index [i],
    a press of "next", the camera's arrival, the pause and the frames of
    the animation deliver one completion signal and end at index
    [i + 1], whatever further presses of "next" come in between. *)
Theorem goNext_defers_index_to_completion :
  (∀ l s, isTransitioning s = true → goNext l s = s)
  ∧ (∀ e w, nextPress e → isTransitioning (st w) = true → step e w = w)
  ∧ (∀ l s, currentIndex (goNext l s) = currentIndex s)
  ∧ (∀ l s n, isTransitioning s = false → currentIndex s < l - 1 →
       goNext l s = setIsTransitioning true s
       ∧ handleTransitionComplete (Nat.iter n (goNext l) (goNext l s))
         = setCurrentIndex (currentIndex s + 1) s)
  ∧ (∀ w i done p1 p2 p3 t0 es tf,
       arrived i done w → 0 ≤ i < len w - 1 →
       Forall nextPress p1 → Forall nextPress p2 → Forall nextPress p3 →
       Forall (whileDrawing t0) es → ANIM_DURATION ≤ tf - t0 →
       let w1 := run p1 (step (KeyDown ArrowRight) w) in
       let w2 := run p2 (step MoveEnd w1) in
       let w3 := run p3 (step (TimeoutFires (nextId w1)) w2) in
       let w4 := run es (step (AnimationFrame t0) w3) in
       let w5 := step (AnimationFrame tf) w4 in
       (∀ v, v ∈ [w1; w2; w3; w4] →
             currentIndex (st v) = i ∧ isTransitioning (st v) = true
             ∧ completions (trace v) = done)
       ∧ currentIndex (st w5) = i + 1 ∧ isTransitioning (st w5) = false
       ∧ completions (trace w5) = done ++ [nextId w]).
Proof.
  split; [exact PlaybackFacts.goNext_transitioning|].
  split; [exact PlaybackFacts.nextPress_transitioning|].
  split; [exact PlaybackFacts.goNext_index|].
  split; [|exact PlaybackFacts.segment_runs_to_completion].
  intros l s n Ht Hlt.
  pose proof (PlaybackFacts.goNext_begins l s Ht Hlt) as Hb.
  split; [done|]. rewrite Hb.
  rewrite PlaybackFacts.goNext_repeated by done.
  destruct s; simpl in *; by subst.
Qed.

Lemma goNext_defers_index_to_completion_witness :
  let w := step (Click StartButton) demoWorld in
  let p1 := [KeyDown ArrowRight] in
  let p2 := [Click NextButton] in
  let p3 := [KeyDown Space] in
  let es := [AnimationFrame 2000; KeyDown ArrowRight; AnimationFrame 5999] in
  let busy := setIsTransitioning true (st w) in
  (isTransitioning busy = true ∧ goNext 3 busy = busy)
  ∧ (isTransitioning (st w) = false ∧ currentIndex (st w) < 3 - 1
     ∧ goNext 3 (st w) = busy
     ∧ handleTransitionComplete (Nat.iter 5 (goNext 3) (goNext 3 (st w)))
       = setCurrentIndex (currentIndex (st w) + 1) (st w))
  ∧ (arrived 0 [] w ∧ 0 ≤ 0 < len w - 1)
  ∧ let w1 := run p1 (step (KeyDown ArrowRight) w) in
    let w2 := run p2 (step MoveEnd w1) in
    let w3 := run p3 (step (TimeoutFires (nextId w1)) w2) in
    let w4 := run es (step (AnimationFrame 1000) w3) in
    let w5 := step (AnimationFrame 6000) w4 in
    (∀ v, v ∈ [w1; w2; w3; w4] →
          currentIndex (st v) = 0 ∧ isTransitioning (st v) = true
          ∧ completions (trace v) = [])
    ∧ currentIndex (st w5) = 0 + 1 ∧ isTransitioning (st w5) = false
    ∧ completions (trace w5) = [] ++ [nextId w].
Proof.
  intros w p1 p2 p3 es busy.
  destruct goNext_defers_index_to_completion as (Hnoop & _ & _ & Hbegin & Hrun).
  split; [split; [reflexivity|exact (Hnoop 3 busy eq_refl)]|].
  assert (Hrest : isTransitioning (st w) = false) by (vm_compute; reflexivity).
  assert (Hidx : currentIndex (st w) < 3 - 1) by (vm_compute; reflexivity).
  split.
  { destruct (Hbegin 3 (st w) 5%nat Hrest Hidx) as [Hb Hc]. by repeat split. }
  assert (Harr : arrived 0 [] w).
  { repeat split; try (vm_compute; reflexivity).
    - apply PlaybackFacts.idsGivenOut_check. apply (bool_decide_unpack _). by vm_compute.
    - apply (bool_decide_unpack _). by vm_compute. }
  assert (Hlen : len w = 3) by (vm_compute; reflexivity).
  assert (Hrange : 0 ≤ 0 < len w - 1) by (rewrite Hlen; lia).
  split; [by split|].
  apply (Hrun w 0 [] p1 p2 p3 1000 es 6000 Harr Hrange).
  - constructor; [by left|constructor].
  - constructor; [by right; right|constructor].
  - constructor; [by right; left|constructor].
  - constructor; [|constructor; [|constructor; [|constructor]]].
    + right. exists 2000. split; [reflexivity|]. unfold ANIM_DURATION. lia.
    + left. by left.
    + right. exists 5999. split; [reflexivity|]. unfold ANIM_DURATION. lia.
  - unfold ANIM_DURATION. lia.
Defined.

(** C2 (the code departs from the claim).  The cancellation flag is one
    ref shared by all runs of the path effect, and every run starts by
    lowering it.  A teardown caused by a change of target is followed at
    once by the next run, so a pause (or [moveend] listener) left over
    from the torn-down run finds the flag down again.  Here: "next" at
    index 0, the camera arrives, the 400 ms pause is pending; a new
    [memories] array tears the effect down and runs it again; the old
    pause then fires, the segment of the torn-down session 2 ticks and
    delivers its completion signal, and [currentIndex] becomes 1. *)
Theorem stale_pause_outlives_teardown :
  let w3 := run [Click StartButton; KeyDown ArrowRight; MoveEnd] demoWorld in
  let w4 := step (NewMemories [recJan; recJun; recDec]) w3 in
  let w7 := run [TimeoutFires 3; AnimationFrame 100; AnimationFrame 5100] w4 in
  timeouts w3 !! 3%positive = Some (TravelPause 2)
  ∧ cancelRef (pathCleanup w3) = true
  ∧ cancelRef w4 = false
  ∧ timeouts w4 !! 3%positive = Some (TravelPause 2)
  ∧ moveend w4 = [4%positive]
  ∧ currentIndex (st w4) = 0
  ∧ trace w7 = trace w4 ++ [CameraTick 2 0; CameraTick 2 5000; TransitionComplete 2]
  ∧ currentIndex (st w7) = 1.
Proof. vm_compute. repeat split; reflexivity. Qed.

(** C3. On records whose effective timestamp resolves (the invariant of
    the data model), [sortChronologically] returns a permutation of its
    input in non-decreasing order of effective timestamp, keeps records
    of equal timestamp in their input order, returns a list that is
    already in order unchanged, and so is idempotent; it is a function,
    hence pure and deterministic.  The records dated 2024-01-01,
    2024-06-15 and 2023-12-25 come out as 2023-12-25, 2024-01-01,
    2024-06-15. *)
Theorem sortChronologically_stable_order :
  (∀ (Date_getTime : string → option Z) (records : list Memory),
     Forall (λ m, is_Some (effectiveTimestamp Date_getTime m)) records →
     let out := sortChronologically Date_getTime records in
     out ≡ₚ records
     ∧ (∀ i j a b, (i < j)%nat → out !! i = Some a → out !! j = Some b →
                   notAfter Date_getTime a b)
     ∧ (∀ t, filter (λ m, effectiveTimestamp Date_getTime m = Some t) out
             = filter (λ m, effectiveTimestamp Date_getTime m = Some t) records)
     ∧ (StronglySorted (notAfter Date_getTime) records → out = records)
     ∧ sortChronologically Date_getTime out = out)
  ∧ sortChronologically isoDate_getTime [recJan; recJun; recDec]
    = [recDec; recJan; recJun].
Proof.
  split; [|vm_compute; reflexivity].
  intros Date_getTime records Hok out.
  pose proof (SorterFacts.sorted_sorted Date_getTime records Hok) as Hs.
  split; [apply SorterFacts.sorted_perm|].
  split; [intros i j a b; by apply SorterFacts.StronglySorted_lookup_le|].
  split; [intros t; apply SorterFacts.sorted_stable|].
  split; [apply SorterFacts.sorted_fixpoint|].
  by apply SorterFacts.sorted_fixpoint.
Qed.

Lemma sortChronologically_stable_order_witness :
  let records := [recJan; recJun; recDec] in
  let out := sortChronologically isoDate_getTime records in
  Forall (λ m, is_Some (effectiveTimestamp isoDate_getTime m)) records
  ∧ out ≡ₚ records
  ∧ (∀ i j a b, (i < j)%nat → out !! i = Some a → out !! j = Some b →
                notAfter isoDate_getTime a b)
  ∧ (∀ t, filter (λ m, effectiveTimestamp isoDate_getTime m = Some t) out
          = filter (λ m, effectiveTimestamp isoDate_getTime m = Some t) records)
  ∧ (StronglySorted (notAfter isoDate_getTime) records → out = records)
  ∧ sortChronologically isoDate_getTime out = out.
Proof.
  intros records out.
  assert (Hok : Forall (λ m, is_Some (effectiveTimestamp isoDate_getTime m)) records).
  { repeat constructor; eexists; vm_compute; reflexivity. }
  split; [exact Hok|].
  exact (proj1 sortChronologically_stable_order isoDate_getTime records Hok).
Defined.

(** C4. In every state the component can reach, a pending autoplay timer
    holds the index, the length and the [goNext] of the state on screen:
    it is never stale.  Fired at the last position it sets [autoplaying]
    to false and starts no transition; fired with a next record it does
    exactly what a press of "next" does; and any event that changes what
    the schedule depends on (started, autoplaying, index, length,
    transitioning) leaves the timer cancelled. *)
Theorem autoplay_timer_never_stale :
  ∀ date ms map a es,
    let w := run es (mount date ms map a) in
    ∀ t i l tr, timeouts w !! t = Some (AutoplayTick i l tr) →
      (i = currentIndex (st w) ∧ l = len w ∧ tr = isTransitioning (st w)
       ∧ isStarted (st w) = true ∧ isAutoPlaying (st w) = true
       ∧ isTransitioning (st w) = false ∧ autoPlayTimerRef w = Some t)
      ∧ (len w - 1 ≤ currentIndex (st w) →
           let s' := st (step (TimeoutFires t) w) in
           s' = setIsAutoPlaying false (st w)
           ∧ isAutoPlaying s' = false ∧ isTransitioning s' = false
           ∧ currentIndex s' = currentIndex (st w))
      ∧ (currentIndex (st w) < len w - 1 →
           step (TimeoutFires t) w = step (KeyDown ArrowRight) w)
      ∧ (∀ e, scheduleInputs (step e w) ≠ scheduleInputs w →
              timeouts (step e w) !! t = None).
Proof.
  intros date ms map a es w t i l tr Ht.
  assert (Hc : timersCurrent w).
  { apply PlaybackFacts.run_current, PlaybackFacts.mount_current. }
  pose proof Hc as [_ Hs].
  destruct (Hs t i l tr Ht) as (_ & _ & Hr & Hi & Hl & Htr & Hst & Hau & Hnt & _).
  split; [repeat split; congruence|].
  split.
  { intros Hend s'.
    assert (Es : s' = setIsAutoPlaying false (st w))
      by exact (PlaybackFacts.fire_at_end t i l tr w Hc Ht Hend).
    rewrite Es. by repeat split. }
  split; [exact (PlaybackFacts.fire_is_goNext t i l tr w Hc Ht)|].
  intros e. exact (PlaybackFacts.step_cancels_stale e w t i l tr Hc Ht).
Qed.

Lemma autoplay_timer_never_stale_witness :
  let w := run [Click StartButton] demoWorld in
  timeouts w !! 1%positive = Some (AutoplayTick 0 3 false)
  ∧ (0 = currentIndex (st w) ∧ 3 = len w ∧ false = isTransitioning (st w)
     ∧ isStarted (st w) = true ∧ isAutoPlaying (st w) = true
     ∧ isTransitioning (st w) = false ∧ autoPlayTimerRef w = Some 1%positive)
  ∧ (len w - 1 ≤ currentIndex (st w) →
       let s' := st (step (TimeoutFires 1) w) in
       s' = setIsAutoPlaying false (st w)
       ∧ isAutoPlaying s' = false ∧ isTransitioning s' = false
       ∧ currentIndex s' = currentIndex (st w))
  ∧ (currentIndex (st w) < len w - 1 →
       step (TimeoutFires 1) w = step (KeyDown ArrowRight) w)
  ∧ (∀ e, scheduleInputs (step e w) ≠ scheduleInputs w →
          timeouts (step e w) !! 1%positive = None).
Proof.
  intros w.
  assert (Ht : timeouts w !! 1%positive = Some (AutoplayTick 0 3 false))
    by (vm_compute; reflexivity).
  split; [exact Ht|].
  exact (autoplay_timer_never_stale isoDate_getTime [recJan; recJun; recDec] true
           (Audio.initial true) [Click StartButton] 1%positive 0 3 false Ht).
Defined.

(** C5 (the code departs from the claim).  [stopMusic] hands its own
    context to the delayed teardown but lets the teardown read the
    module-level [schedulerTimer].  Music plays (context 1, scheduler
    interval 2); [toggleMusic] twice in succession stops it (teardown 3
    pending) and starts it again (context 4, scheduler interval 5):
    both flags are back at their values.  When teardown 3 then fires it
    clears interval 5, the scheduling loop of the new session, and
    leaves interval 2, the loop of the old one, running; the next tick
    of interval 2 schedules on the new context through the merge node of
    the closed one. *)
Theorem restart_loses_scheduler_to_old_teardown :
  let w1 := step (Click StartButton) demoWorld in
  let w2 := step (Click MusicButton) w1 in
  let w3 := step (Click MusicButton) w2 in
  let w4 := step (AudioTimer (Audio.TeardownFires 3)) w3 in
  let w5 := step (AudioTimer (Audio.IntervalFires 2)) w4 in
  (musicEnabled (st w1) = true ∧ Audio.isMusicPlaying (audio w1) = true)
  ∧ Audio.teardowns (audio w2) !! 3%positive = Some 1%positive
  ∧ (musicEnabled (st w3) = true ∧ Audio.isMusicPlaying (audio w3) = true)
  ∧ Audio.audioCtx (audio w3) = Some 4%positive
  ∧ Audio.schedulerTimer (audio w3) = Some 5%positive
  ∧ Audio.intervals (audio w3) !! 5%positive = Some (Audio.mkScheduler 4 500)
  ∧ Audio.isMusicPlaying (audio w4) = true
  ∧ Audio.intervals (audio w4) !! 5%positive = None
  ∧ Audio.schedulerTimer (audio w4) = None
  ∧ Audio.intervals (audio w4) !! 2%positive = Some (Audio.mkScheduler 1 500)
  ∧ Audio.contexts (audio w4) !! 1%positive = Some true
  ∧ Audio.actions (audio w5)
    = Audio.actions (audio w4) ++ [Audio.ScheduleChords 4 1 24500].
Proof. vm_compute. repeat split; reflexivity. Qed.




(** C7.  Starting on an empty timeline does nothing.  [startJourney]
    has one caller, the start button, and with no record the component
    renders nothing (line 727), so the button is not offered, nor any
    other control: a click on it, like every key, timer, frame or map
    event, leaves the state at [started = false], [currentIndex = -1],
    and the audio module is not touched. *)
Theorem empty_timeline_offers_no_start :
  ∀ date map a es,
    Audio.isPlaying a = false → Forall ownEvent es →
    let w := run es (mount date [] map a) in
    (∀ c, offered c w = false)
    ∧ st w = initialState
    ∧ (isStarted (st w) = false ∧ currentIndex (st w) = -1)
    ∧ audio w = a.
Proof.
  intros date map a es Ha Hes w.
  assert (Hw : idleOnEmpty a w).
  { apply PlaybackFacts.idleOnEmpty_run; [done..|apply PlaybackFacts.idleOnEmpty_mount]. }
  destruct Hw as (Hs & Hst & Hau & _).
  split; [|by rewrite Hst].
  intros c. unfold offered, len. rewrite Hs. simpl. by rewrite andb_false_r.
Qed.

Lemma empty_timeline_offers_no_start_witness :
  let es := [Click StartButton; KeyDown Space; KeyDown ArrowLeft; KeyDown Escape] in
  let w := run es emptyWorld in
  (Audio.isPlaying (Audio.initial true) = false ∧ Forall ownEvent es)
  ∧ (∀ c, offered c w = false)
  ∧ st w = initialState
  ∧ (isStarted (st w) = false ∧ currentIndex (st w) = -1)
  ∧ audio w = Audio.initial true.
Proof.
  intros es w.
  assert (Hes : Forall ownEvent es) by (repeat constructor).
  split; [by split|].
  exact (empty_timeline_offers_no_start isoDate_getTime true (Audio.initial true)
           es eq_refl Hes).
Defined.

(** C8, as the code has it.  [startMusic] while the module is playing
    returns at once and changes nothing, so calling it twice is calling
    it once; [stopMusic] while it is not playing changes nothing.  The
    guard of [startMusic] reads [isPlaying], which [stopMusic] clears at
    once while the context it stops stays open, fading, until its
    teardown closes it: whatever the sequence of calls and timer
    callbacks, every session that exists is the current one or one a
    pending teardown will close, so there are at most one more than
    there are pending teardowns; at most one when no teardown is
    pending, and none when, besides, the module is not playing. *)
Theorem startMusic_stopMusic_guards :
  (∀ a, Audio.isPlaying a = true → Audio.startMusic a = (Returned, a))
  ∧ (∀ a, (Audio.startMusic (Audio.startMusic a).2).2 = (Audio.startMusic a).2)
  ∧ (∀ a, Audio.isPlaying a = false → Audio.stopMusic a = a)
  ∧ (∀ allowed ops,
       let a := Audio.run ops (Audio.initial allowed) in
       (∀ c, c ∈ Audio.openContexts a →
             Audio.audioCtx a = Some c ∨ ∃ t, Audio.teardowns a !! t = Some c)
       ∧ (length (Audio.openContexts a)
          ≤ (match Audio.audioCtx a with Some _ => 1 | None => 0 end)
            + size (Audio.teardowns a))%nat
       ∧ (Audio.teardowns a = ∅ → (length (Audio.openContexts a) ≤ 1)%nat)
       ∧ (Audio.teardowns a = ∅ → Audio.isPlaying a = false →
          Audio.openContexts a = [])).
Proof.
  split; [exact AudioFacts.startMusic_playing|].
  split; [exact AudioFacts.startMusic_twice|].
  split; [exact AudioFacts.stopMusic_inactive|].
  intros allowed ops a.
  assert (Ha : Audio.consistent a)
    by apply AudioFacts.consistent_run, AudioFacts.consistent_initial.
  pose proof (AudioFacts.openContexts_bound a Ha) as Hb.
  split.
  { intros c Hc. destruct (AudioFacts.openContexts_accounted a c Ha Hc) as [?|Hf];
      [by left|right]. by apply AudioFacts.fading_spec. }
  split; [exact Hb|]. split.
  - intros He. rewrite He, map_size_empty in Hb. destruct (Audio.audioCtx a); lia.
  - intros He Hp. rewrite He, map_size_empty in Hb.
    destruct Ha as (Hnp & _). rewrite (Hnp Hp) in Hb.
    destruct (Audio.openContexts a); [done|simpl in Hb; lia].
Qed.

Lemma startMusic_stopMusic_guards_witness :
  let playing := (Audio.startMusic (Audio.initial true)).2 in
  let silent := Audio.initial true in
  let restarted := Audio.run [Audio.Start; Audio.Stop; Audio.Start] (Audio.initial true) in
  let released :=
    Audio.run [Audio.Start; Audio.Stop; Audio.Start;
               Audio.Host (Audio.TeardownFires 3)] (Audio.initial true) in
  (Audio.isPlaying playing = true ∧ Audio.startMusic playing = (Returned, playing))
  ∧ (Audio.isPlaying silent = false ∧ Audio.stopMusic silent = silent)
  ∧ (size (Audio.teardowns restarted) = 1%nat
     ∧ (length (Audio.openContexts restarted) ≤ 1 + 1)%nat)
  ∧ (Audio.teardowns released = ∅ ∧ (length (Audio.openContexts released) ≤ 1)%nat).
Proof.
  intros playing silent restarted released.
  destruct startMusic_stopMusic_guards as (Hstart & _ & Hstop & Hrun).
  split; [split; [reflexivity|exact (Hstart playing eq_refl)]|].
  split; [split; [reflexivity|exact (Hstop silent eq_refl)]|].
  assert (Hr : size (Audio.teardowns restarted) = 1%nat) by (vm_compute; reflexivity).
  assert (He : Audio.teardowns released = ∅) by (vm_compute; reflexivity).
  split.
  - split; [exact Hr|].
    destruct (Hrun true [Audio.Start; Audio.Stop; Audio.Start]) as (_ & Hb & _).
    fold restarted in Hb. rewrite Hr in Hb. exact Hb.
  - split; [exact He|].
    destruct (Hrun true [Audio.Start; Audio.Stop; Audio.Start;
                         Audio.Host (Audio.TeardownFires 3)]) as (_ & _ & H1 & _).
    exact (H1 He).
Defined.

(** C8, as stated, fails: a [startMusic] within the two seconds after a
    [stopMusic] finds [isPlaying] false and makes a second context while
    the first is still open, fading. *)
Lemma two_sessions_after_restart :
  let a := Audio.run [Audio.Start; Audio.Stop; Audio.Start] (Audio.initial true) in
  Audio.isPlaying a = true
  ∧ length (Audio.openContexts a) = 2%nat
  ∧ ¬ (length (Audio.openContexts a) ≤ 1)%nat.
Proof.
  assert (H : length (Audio.openContexts
                        (Audio.run [Audio.Start; Audio.Stop; Audio.Start]
                           (Audio.initial true))) = 2%nat)
    by (vm_compute; reflexivity).
  cbv zeta. split; [vm_compute; reflexivity|]. split; [exact H|]. rewrite H. lia.
Qed.

(** C9, as the code has it.  [goPrev] is a no-op when [transitioning] is
    true or [currentIndex] is 0 or less (-1, before the start,
    included).  Otherwise it writes [currentIndex - 1] in the same call
    and calls [flyToMemory] for the new index, which flies the camera
    there directly when there is a map; no session is created, no
    listener, pause or frame is added, [transitioning] stays false: the
    only commands to the camera are direct flies to the new point. *)
Theorem goPrev_steps_back_directly :
  ∀ w, mounted w = true →
    (isTransitioning (st w) = true ∨ currentIndex (st w) ≤ 0 →
       goPrev w = w ∧ step (KeyDown ArrowLeft) w = w)
    ∧ (∀ m, isTransitioning (st w) = false → 0 < currentIndex (st w) →
         at_index (sortedMemories w) (currentIndex (st w) - 1) = Some m →
         let w' := step (KeyDown ArrowLeft) w in
         st (goPrev w) = setCurrentIndex (currentIndex (st w) - 1) (st w)
         ∧ st w' = setCurrentIndex (currentIndex (st w) - 1) (st w)
         ∧ sessions w' = sessions w ∧ moveend w' = moveend w
         ∧ (∀ t s, timeouts w' !! t = Some (TravelPause s) →
                   timeouts w !! t = Some (TravelPause s))
         ∧ (∀ r s, rafs w' !! r = Some s → rafs w !! r = Some s)
         ∧ ∃ k, trace w'
                = trace w ++ replicate k (CameraFlyTo (lat m) (lng m) TRAVEL_ZOOM 2000)
                ∧ (hasMap w = true → (1 ≤ k)%nat)
                ∧ (hasMap w = false → k = 0%nat)).
Proof.
  intros w Hm. split; [apply PlaybackFacts.goPrev_blocked|].
  intros m. by apply PlaybackFacts.goPrev_steps_back.
Qed.

Lemma goPrev_steps_back_directly_witness :
  let w := run [Click StartButton; Click SkipButton] demoWorld in
  (mounted demoWorld = true ∧ currentIndex (st demoWorld) ≤ 0
   ∧ goPrev demoWorld = demoWorld
   ∧ step (KeyDown ArrowLeft) demoWorld = demoWorld)
  ∧ (mounted w = true ∧ isTransitioning (st w) = false ∧ 0 < currentIndex (st w)
     ∧ at_index (sortedMemories w) (currentIndex (st w) - 1) = Some recJan)
  ∧ let w' := step (KeyDown ArrowLeft) w in
    st (goPrev w) = setCurrentIndex (currentIndex (st w) - 1) (st w)
    ∧ st w' = setCurrentIndex (currentIndex (st w) - 1) (st w)
    ∧ sessions w' = sessions w ∧ moveend w' = moveend w
    ∧ (∀ t s, timeouts w' !! t = Some (TravelPause s) →
              timeouts w !! t = Some (TravelPause s))
    ∧ (∀ r s, rafs w' !! r = Some s → rafs w !! r = Some s)
    ∧ ∃ k, trace w'
           = trace w ++ replicate k (CameraFlyTo (lat recJan) (lng recJan) TRAVEL_ZOOM 2000)
           ∧ (hasMap w = true → (1 ≤ k)%nat)
           ∧ (hasMap w = false → k = 0%nat).
Proof.
  intros w.
  assert (Hle : currentIndex (st demoWorld) ≤ 0) by (vm_compute; discriminate).
  split.
  { destruct (proj1 (goPrev_steps_back_directly demoWorld eq_refl) (or_intror Hle))
      as [Hg Hs].
    by repeat split. }
  assert (Hm : mounted w = true) by (vm_compute; reflexivity).
  assert (Ht : isTransitioning (st w) = false) by (vm_compute; reflexivity).
  assert (Hi : 0 < currentIndex (st w)) by (vm_compute; reflexivity).
  assert (Hat : at_index (sortedMemories w) (currentIndex (st w) - 1) = Some recJan)
    by (vm_compute; reflexivity).
  split; [by repeat split|].
  exact (proj2 (goPrev_steps_back_directly w Hm) recJan Ht Hi Hat).
Defined.

(** C9, as stated, fails: before the start the index is -1, not 0, and
    no transition runs, yet [goPrev] leaves the index where it is; and
    without a map [goPrev] from index 2 writes index 1 and tells the
    camera nothing. *)
Lemma goPrev_before_start_stays :
  (isTransitioning (st demoWorld) = false
   ∧ currentIndex (st demoWorld) = -1
   ∧ currentIndex (st demoWorld) ≠ 0
   ∧ currentIndex (st (step (KeyDown ArrowLeft) demoWorld)) = -1
   ∧ currentIndex (st (step (KeyDown ArrowLeft) demoWorld))
     ≠ currentIndex (st demoWorld) - 1)
  ∧ let w := run [Click StartButton; Click SkipButton] noMapWorld in
    isTransitioning (st w) = false
    ∧ currentIndex (st w) = 2
    ∧ currentIndex (st (step (KeyDown ArrowLeft) w)) = 1
    ∧ trace (step (KeyDown ArrowLeft) w) = trace w.
Proof. vm_compute. repeat split; (reflexivity || discriminate). Qed.

(** C10. [sortChronologically] allocates a new array, sorts that one and
    returns it: the reference returned is not the one passed in and was
    not in use before, the array passed in holds the same elements in
    the same order after the call, and so does every other array. *)
Theorem sortChronologically_leaves_input_untouched :
  ∀ Date_getTime (h : gmap nat (list Memory)) (memories : nat) (ms : list Memory),
    h !! memories = Some ms →
    ∃ out h',
      sortChronologically_mem Date_getTime memories h = Some (out, h')
      ∧ out ≠ memories
      ∧ h !! out = None
      ∧ h' !! memories = Some ms
      ∧ h' !! out = Some (sortChronologically Date_getTime ms)
      ∧ ∀ l, l ≠ out → h' !! l = h !! l.
Proof.
  intros Date_getTime h memories ms Hm.
  destruct (SorterFacts.sortChronologically_mem_spec Date_getTime h memories ms Hm)
    as (out & h' & Hrun & Hne & Hfresh & Hout & Hframe).
  exists out, h'. repeat split; try done.
  rewrite Hframe; [done|]. by intros ->.
Qed.

Lemma sortChronologically_leaves_input_untouched_witness :
  let ms := [recJan; recJun; recDec] in
  let h : gmap nat (list Memory) := {[ 7%nat := ms ]} in
  h !! 7%nat = Some ms
  ∧ ∃ out h',
      sortChronologically_mem isoDate_getTime 7%nat h = Some (out, h')
      ∧ out ≠ 7%nat
      ∧ h !! out = None
      ∧ h' !! 7%nat = Some ms
      ∧ h' !! out = Some (sortChronologically isoDate_getTime ms)
      ∧ ∀ l, l ≠ out → h' !! l = h !! l.
Proof.
  intros ms h.
  assert (Hm : h !! 7%nat = Some ms) by (vm_compute; reflexivity).
  split; [exact Hm|].
  exact (sortChronologically_leaves_input_untouched isoDate_getTime h 7%nat ms Hm).
Defined.

(** * Further properties *)

(** X1. [getLocationName] and the overlay's [locationName] show, for
    every location of the picker, the name the table gives it.  For a
    key the table does not have, [getLocationName] shows the key with
    every hyphen turned into a space and nothing else changed, while the
    overlay shows the key as it is. *)
Theorem getLocationName_names_the_table :
  (∀ l, l ∈ Locations.SG_LOCATIONS →
     Locations.getLocationName (Locations.key l) = Locations.name l
     ∧ Locations.locationName (Some (Locations.key l)) = Locations.name l)
  ∧ (∀ k, (∀ l, l ∈ Locations.SG_LOCATIONS → Locations.key l ≠ k) →
       Locations.getLocationName k = Locations.replaceHyphens k
       ∧ String.length (Locations.getLocationName k) = String.length k
       ∧ (∀ i, String.get i (Locations.getLocationName k)
               = (λ c, if Ascii.eqb c "-" then " "%char else c) <$> String.get i k)
       ∧ Locations.locationName (Some k) = k).
Proof.
  split.
  - apply Forall_forall, LocationsFacts.table_names.
  - intros k Hk.
    pose proof (LocationsFacts.findLocation_unknown k Hk) as Hf.
    assert (Hg : Locations.getLocationName k = Locations.replaceHyphens k).
    { unfold Locations.getLocationName. by rewrite Hf. }
    rewrite Hg. split; [done|].
    split; [apply LocationsFacts.replaceHyphens_length|].
    split; [intros i; apply LocationsFacts.replaceHyphens_get|].
    unfold Locations.locationName. simpl. rewrite Hf.
    by destruct (String.eqb_spec k "") as [->|_].
Qed.

Lemma getLocationName_names_the_table_witness :
  (∀ l, l ∈ Locations.SG_LOCATIONS → Locations.key l ≠ "secret-rooftop-bar"%string)
  ∧ Locations.getLocationName "secret-rooftop-bar" = "secret rooftop bar"%string
  ∧ Locations.locationName (Some "secret-rooftop-bar"%string) = "secret-rooftop-bar"%string
  ∧ Locations.getLocationName "gardens-by-the-bay" = "Gardens by the Bay"%string.
Proof.
  assert (Hk : ∀ l, l ∈ Locations.SG_LOCATIONS → Locations.key l ≠ "secret-rooftop-bar"%string).
  { apply Forall_forall. repeat constructor; discriminate. }
  split; [exact Hk|].
  destruct getLocationName_names_the_table as [Hknown Hunknown].
  destruct (Hunknown "secret-rooftop-bar"%string Hk) as (Hg & _ & _ & Hl).
  split; [exact Hg|]. split; [exact Hl|].
  assert (Hin : Locations.mkLocation "gardens-by-the-bay" "Gardens by the Bay"
                  1281600 103863600 ∈ Locations.SG_LOCATIONS).
  { do 3 right. left. }
  exact (proj1 (Hknown _ Hin)).
Defined.

(** X2. [getMemoryImages] never returns an empty array, and the card of
    the timeline built on it always has a photo to show: as long as the
    card keeps its record, [photoIndex] stays a position of [images].
    The card keeps at most one interval, the one its cleanup clears, and
    none at all with a single photo or after it is unmounted; with more
    photos the [k]-th tick shows photo [k mod images.length]. *)
Theorem timeline_card_always_shows_a_photo :
  ∀ memory,
    Photos.getMemoryImages memory ≠ []
    ∧ (∀ es, let c := TimelineCard.run es (TimelineCard.mount memory) in
         (∀ t, is_Some (TimelineCard.intervals c !! t) →
               TimelineCard.cleanup c = Some t ∧ TimelineCard.mounted c = true
               ∧ 1 < TimelineCard.length_of c)
         ∧ (Forall TimelineCard.sameRecord es →
              TimelineCard.images c = Photos.getMemoryImages memory
              ∧ 0 ≤ TimelineCard.photoIndex c < TimelineCard.length_of c
              ∧ is_Some (TimelineCard.shown c)))
    ∧ (∀ k, 1 < TimelineCard.length_of (TimelineCard.mount memory) →
         TimelineCard.photoIndex
           (TimelineCard.run (replicate k (TimelineCard.IntervalFires 1))
              (TimelineCard.mount memory))
         = Z.of_nat k mod TimelineCard.length_of (TimelineCard.mount memory)).
Proof.
  intros memory.
  split; [apply PhotosFacts.getMemoryImages_nonempty|].
  split; [|intros k; apply TimelineCardFacts.ticks_count].
  intros es c.
  pose proof (TimelineCardFacts.card_coherent_run es _
                (TimelineCardFacts.card_coherent_mount memory)) as Hc.
  fold c in Hc. split.
  - intros t [n Hn]. destruct (Hc t n Hn) as (? & ? & -> & ?). done.
  - intros Hes.
    destruct (TimelineCardFacts.card_inRange_run es _ Hes
                (TimelineCardFacts.card_coherent_mount memory)
                (TimelineCardFacts.card_inRange_mount memory)) as [Hr Hi].
    fold c in Hr, Hi.
    split; [rewrite Hi; apply TimelineCardFacts.effect_images|].
    split; [exact Hr|].
    by apply PhotoCarouselFacts.shown_in_range.
Qed.

Lemma timeline_card_always_shows_a_photo_witness :
  let memory := Photos.mkPhotos recJan (Some ["p1"; "p2"; "p3"]%string) in
  let es := [TimelineCard.IntervalFires 1; TimelineCard.IntervalFires 1;
             TimelineCard.IntervalFires 1; TimelineCard.IntervalFires 1;
             TimelineCard.Unmount; TimelineCard.IntervalFires 1] in
  let c := TimelineCard.run es (TimelineCard.mount memory) in
  Forall TimelineCard.sameRecord es
  ∧ TimelineCard.images c = ["p1"; "p2"; "p3"]%string
  ∧ 0 ≤ TimelineCard.photoIndex c < TimelineCard.length_of c
  ∧ is_Some (TimelineCard.shown c)
  ∧ 1 < TimelineCard.length_of (TimelineCard.mount memory)
  ∧ TimelineCard.photoIndex
      (TimelineCard.run (replicate 4 (TimelineCard.IntervalFires 1))
         (TimelineCard.mount memory)) = 1.
Proof.
  intros memory es c.
  assert (Hes : Forall TimelineCard.sameRecord es) by (repeat constructor).
  destruct (timeline_card_always_shows_a_photo memory) as (_ & Hrun & Hticks).
  destruct (Hrun es) as [_ Hidx]. destruct (Hidx Hes) as (Hi & Hr & Hs).
  assert (Hn : 1 < TimelineCard.length_of (TimelineCard.mount memory))
    by (vm_compute; reflexivity).
  split; [exact Hes|]. split; [exact Hi|]. split; [exact Hr|]. split; [exact Hs|].
  split; [exact Hn|]. exact (Hticks 4%nat Hn).
Defined.

(** X3. Whatever the user and the host do to a [PhotoCarousel] (ticks,
    arrows, dots, swipes, new photos, unmounting), the only interval
    alive is the one [timerRef] holds: [goTo] clears the running one
    before it starts the next, the cleanup of the effect clears the one
    last started.  With at most one photo, and after the carousel is
    unmounted, no interval is alive. *)
Theorem carousel_keeps_one_interval :
  ∀ imgs es,
    let c := PhotoCarousel.run es (PhotoCarousel.mount imgs) in
    (∀ t, is_Some (PhotoCarousel.intervals c !! t) →
          PhotoCarousel.timerRef c = Some t)
    ∧ (∀ t t', is_Some (PhotoCarousel.intervals c !! t) →
               is_Some (PhotoCarousel.intervals c !! t') → t = t')
    ∧ (∀ t n, PhotoCarousel.intervals c !! t = Some n →
              n = PhotoCarousel.length_of c)
    ∧ (PhotoCarousel.mounted c = false → PhotoCarousel.intervals c = ∅)
    ∧ (PhotoCarousel.length_of c ≤ 1 → PhotoCarousel.intervals c = ∅).
Proof.
  intros imgs es c.
  pose proof (PhotoCarouselFacts.coherent_run es _
                (PhotoCarouselFacts.coherent_mount imgs)) as Hc.
  fold c in Hc.
  assert (Ht : ∀ t, is_Some (PhotoCarousel.intervals c !! t) →
                    PhotoCarousel.timerRef c = Some t)
    by (intros t; by apply PhotoCarouselFacts.coherent_tracked).
  split; [exact Ht|]. split.
  { intros t t' H1 H2. apply Ht in H1, H2. congruence. }
  split.
  { intros t n Hn. destruct Hc as [H1 _]. by destruct (H1 t n Hn) as (_ & _ & _ & ? & _). }
  assert (He : PhotoCarousel.mounted c = false ∨ PhotoCarousel.length_of c ≤ 1 →
               PhotoCarousel.intervals c = ∅).
  { intros E. apply map_eq. intros t. rewrite lookup_empty.
    destruct (PhotoCarousel.intervals c !! t) as [n|] eqn:En; [|done].
    destruct Hc as [H1 _]. destruct (H1 t n En) as (_ & Hm & _ & -> & Hn).
    destruct E as [E|E]; [congruence|lia]. }
  split; intros E; apply He; [by left|by right].
Qed.

Lemma carousel_keeps_one_interval_witness :
  let imgs := ["p1"; "p2"; "p3"]%string in
  let es := [PhotoCarousel.ClickNext; PhotoCarousel.ClickDot 0;
             PhotoCarousel.TouchStart 10; PhotoCarousel.TouchEnd 200;
             PhotoCarousel.NewImages ["q1"; "q2"]%string] in
  let c := PhotoCarousel.run es (PhotoCarousel.mount imgs) in
  let c' := PhotoCarousel.run (es ++ [PhotoCarousel.Unmount]) (PhotoCarousel.mount imgs) in
  let c1 := PhotoCarousel.run (es ++ [PhotoCarousel.NewImages ["q1"]%string])
              (PhotoCarousel.mount imgs) in
  PhotoCarousel.intervals c = {[5%positive := 2]}
  ∧ PhotoCarousel.timerRef c = Some 5%positive
  ∧ (PhotoCarousel.mounted c' = false ∧ PhotoCarousel.intervals c' = ∅)
  ∧ (PhotoCarousel.length_of c1 ≤ 1 ∧ PhotoCarousel.intervals c1 = ∅).
Proof.
  intros imgs es c c' c1.
  assert (Hi : PhotoCarousel.intervals c = {[5%positive := 2]}) by (vm_compute; reflexivity).
  assert (Hs : is_Some (PhotoCarousel.intervals c !! 5%positive))
    by (rewrite Hi, lookup_singleton_eq; by eexists).
  assert (Hm : PhotoCarousel.mounted c' = false) by (vm_compute; reflexivity).
  assert (Hl : PhotoCarousel.length_of c1 ≤ 1) by (vm_compute; discriminate).
  split; [exact Hi|].
  split; [exact (proj1 (carousel_keeps_one_interval imgs es) 5%positive Hs)|].
  split.
  - split; [exact Hm|].
    destruct (carousel_keeps_one_interval imgs (es ++ [PhotoCarousel.Unmount]))
      as (_ & _ & _ & Hu & _).
    exact (Hu Hm).
  - split; [exact Hl|].
    destruct (carousel_keeps_one_interval imgs
                (es ++ [PhotoCarousel.NewImages ["q1"]%string]))
      as (_ & _ & _ & _ & Hu).
    exact (Hu Hl).
Defined.

(** X4. As long as the photos of a [PhotoCarousel] stay the same and
    there is at least one, [currentIndex] is a position of [images]
    after any sequence of ticks, arrows, dots and swipes: the frame
    always has a photo. *)
Theorem carousel_index_stays_in_range :
  ∀ imgs es,
    imgs ≠ [] → Forall PhotoCarousel.sameImages es →
    let c := PhotoCarousel.run es (PhotoCarousel.mount imgs) in
    PhotoCarousel.images c = imgs
    ∧ 0 ≤ PhotoCarousel.currentIndex c < Z.of_nat (length imgs)
    ∧ is_Some (PhotoCarousel.shown c).
Proof.
  intros imgs es Hne Hes c.
  destruct (PhotoCarouselFacts.inRange_mount imgs Hne) as [Hr0 Hi0].
  destruct (PhotoCarouselFacts.inRange_run es _ Hes
              (PhotoCarouselFacts.coherent_mount imgs) Hr0) as [Hr Hi].
  fold c in Hr, Hi. rewrite Hi0 in Hi.
  unfold PhotoCarousel.inRange, PhotoCarousel.length_of in Hr.
  split; [exact Hi|]. split; [by rewrite <- Hi|].
  by apply PhotoCarouselFacts.shown_in_range.
Qed.

Lemma carousel_index_stays_in_range_witness :
  let imgs := ["p1"; "p2"; "p3"]%string in
  let es := [PhotoCarousel.ClickPrev; PhotoCarousel.IntervalFires 2;
             PhotoCarousel.TouchStart 300; PhotoCarousel.TouchEnd 100;
             PhotoCarousel.ClickDot 2; PhotoCarousel.ClickNext] in
  let c := PhotoCarousel.run es (PhotoCarousel.mount imgs) in
  (imgs ≠ [] ∧ Forall PhotoCarousel.sameImages es)
  ∧ PhotoCarousel.images c = imgs
  ∧ 0 ≤ PhotoCarousel.currentIndex c < Z.of_nat (length imgs)
  ∧ is_Some (PhotoCarousel.shown c).
Proof.
  intros imgs es c.
  assert (Hne : imgs ≠ []) by discriminate.
  assert (Hes : Forall PhotoCarousel.sameImages es) by (repeat constructor).
  split; [by split|].
  exact (carousel_index_stays_in_range imgs es Hne Hes).
Defined.

(** X5. In a carousel of several photos the arrows undo each other (next
    then previous, or previous then next, is back on the same photo),
    as many presses of next as there are photos come back to the start,
    and a swipe counts only beyond 40 pixels: to the left it is next, to
    the right previous, anything shorter changes nothing. *)
Theorem carousel_arrows_undo_each_other :
  ∀ c, PhotoCarousel.mounted c = true → 1 < PhotoCarousel.length_of c →
    0 ≤ PhotoCarousel.currentIndex c < PhotoCarousel.length_of c →
    PhotoCarousel.currentIndex (PhotoCarousel.goPrev (PhotoCarousel.goNext c))
    = PhotoCarousel.currentIndex c
    ∧ PhotoCarousel.currentIndex (PhotoCarousel.goNext (PhotoCarousel.goPrev c))
      = PhotoCarousel.currentIndex c
    ∧ PhotoCarousel.currentIndex
        (Nat.iter (length (PhotoCarousel.images c)) PhotoCarousel.goNext c)
      = PhotoCarousel.currentIndex c
    ∧ (∀ x, Z.abs (PhotoCarousel.touchStartX c - x) ≤ 40 →
            PhotoCarousel.handleTouchEnd x c = c)
    ∧ (∀ x, 40 < PhotoCarousel.touchStartX c - x →
            PhotoCarousel.handleTouchEnd x c = PhotoCarousel.goNext c)
    ∧ (∀ x, PhotoCarousel.touchStartX c - x < -40 →
            PhotoCarousel.handleTouchEnd x c = PhotoCarousel.goPrev c).
Proof.
  intros c Hm Hn Hr.
  split; [by apply PhotoCarouselFacts.prev_after_next|].
  split; [by apply PhotoCarouselFacts.next_after_prev|].
  split; [by apply PhotoCarouselFacts.full_round|].
  unfold PhotoCarousel.handleTouchEnd.
  split; [|split]; intros x Hx.
  - destruct (Z.ltb_spec 40 (Z.abs (PhotoCarousel.touchStartX c - x))); [lia|done].
  - destruct (Z.ltb_spec 40 (Z.abs (PhotoCarousel.touchStartX c - x))); [|lia].
    destruct (Z.ltb_spec 0 (PhotoCarousel.touchStartX c - x)); [done|lia].
  - destruct (Z.ltb_spec 40 (Z.abs (PhotoCarousel.touchStartX c - x))); [|lia].
    destruct (Z.ltb_spec 0 (PhotoCarousel.touchStartX c - x)); [lia|done].
Qed.

Lemma carousel_arrows_undo_each_other_witness :
  let c := PhotoCarousel.run [PhotoCarousel.ClickNext; PhotoCarousel.TouchStart 200]
             (PhotoCarousel.mount ["p1"; "p2"; "p3"]%string) in
  (PhotoCarousel.mounted c = true ∧ 1 < PhotoCarousel.length_of c
   ∧ 0 ≤ PhotoCarousel.currentIndex c < PhotoCarousel.length_of c)
  ∧ PhotoCarousel.currentIndex (PhotoCarousel.goPrev (PhotoCarousel.goNext c)) = 1
  ∧ PhotoCarousel.currentIndex (PhotoCarousel.goNext (PhotoCarousel.goPrev c)) = 1
  ∧ PhotoCarousel.currentIndex (Nat.iter 3 PhotoCarousel.goNext c) = 1
  ∧ PhotoCarousel.handleTouchEnd 240 c = c
  ∧ PhotoCarousel.handleTouchEnd 100 c = PhotoCarousel.goNext c
  ∧ PhotoCarousel.handleTouchEnd 300 c = PhotoCarousel.goPrev c.
Proof.
  intros c.
  assert (Hm : PhotoCarousel.mounted c = true) by (vm_compute; reflexivity).
  assert (Hn : 1 < PhotoCarousel.length_of c) by (vm_compute; reflexivity).
  assert (Hr : 0 ≤ PhotoCarousel.currentIndex c < PhotoCarousel.length_of c)
    by (vm_compute; split; [discriminate|reflexivity]).
  split; [by repeat split|].
  destruct (carousel_arrows_undo_each_other c Hm Hn Hr) as (H1 & H2 & H3 & H4 & H5 & H6).
  split; [exact H1|]. split; [exact H2|]. split; [exact H3|].
  split; [apply H4; vm_compute; discriminate|].
  split; [apply H5; vm_compute; reflexivity|].
  apply H6; vm_compute; reflexivity.
Defined.

(** X6. [getRandomRotation] folds the characters of the seed into a
    32-bit hash, the polynomial of base 31 reduced to a signed 32-bit
    integer, and returns its remainder by 9 less 4.  The remainder has
    the sign of the hash, so the tilt lies between -12 and 4 degrees:
    within -4 and 4 when the hash is not negative, at -4 or below when
    it is.  Both ends are reached. *)
Theorem getRandomRotation_between_minus_12_and_4 :
  (∀ seed,
     let hash := Polaroid.ToInt32 (Polaroid.polynomial 0 seed) in
     Polaroid.getRandomRotation seed = Z.rem hash 9 - 4
     ∧ -12 ≤ Polaroid.getRandomRotation seed ≤ 4
     ∧ (if 0 <=? hash then -4 ≤ Polaroid.getRandomRotation seed
        else Polaroid.getRandomRotation seed ≤ -4))
  ∧ Polaroid.getRandomRotation "aaaabe" = -12
  ∧ Polaroid.getRandomRotation "b" = 4.
Proof.
  split; [|by vm_compute].
  intros seed hash. unfold Polaroid.getRandomRotation.
  rewrite PolaroidFacts.hash_is_polynomial. fold hash.
  split; [done|].
  destruct (Z.leb_spec 0 hash) as [Hh|Hh].
  - pose proof (PolaroidFacts.rem9_nonneg hash Hh). lia.
  - pose proof (PolaroidFacts.rem9_neg hash Hh). lia.
Qed.

(** X7. [loadMemories] never throws: it returns the empty list when
    storage is disabled, the key is missing or empty, or the text does
    not parse.  On a browser that takes the write, what [saveMemories]
    stored is what [loadMemories] reads back; when the write is refused
    [saveMemories] only warns, and the stored text, hence what
    [loadMemories] returns, stays as it was. *)
Theorem loadMemories_reads_back_what_was_saved :
  ∀ (JSON_parse : string → option (list Memory))
    (JSON_stringify : list Memory → string),
    (∀ l, JSON_parse (JSON_stringify l) = Some l) →
    (∀ l, JSON_stringify l ≠ ""%string) →
    ∀ b l,
      let b' := Storage.saveMemories JSON_stringify l b in
      (Storage.reliable b →
         Storage.loadMemories JSON_parse b' = l
         ∧ Storage.warnings b' = Storage.warnings b)
      ∧ (Storage.denied b = true ∨ Storage.quota b (JSON_stringify l) = false →
           Storage.item b' = Storage.item b
           ∧ Storage.warnings b' = S (Storage.warnings b)
           ∧ Storage.loadMemories JSON_parse b' = Storage.loadMemories JSON_parse b)
      ∧ (Storage.denied b = true ∨ Storage.item b = None
         ∨ Storage.item b = Some ""%string
         ∨ (∃ raw, Storage.item b = Some raw ∧ JSON_parse raw = None) →
           Storage.loadMemories JSON_parse b = []).
Proof.
  intros JSON_parse JSON_stringify Hrt Hne b l b'.
  split; [|split].
  - intros Hr. split; [by apply StorageFacts.load_after_save|].
    destruct Hr as [Hd Hq]. unfold b', Storage.saveMemories. by rewrite Hd, Hq.
  - intros Href.
    destruct (StorageFacts.save_refused JSON_parse JSON_stringify l b Href) as [Hw Hl].
    fold b' in Hw, Hl. rewrite Hl, Hw. done.
  - unfold Storage.loadMemories.
    intros [->|[->|[->|(raw & -> & Hp)]]]; try done; destruct (Storage.denied b); try done.
    rewrite Hp. by destruct (String.eqb raw "").
Qed.

Lemma loadMemories_reads_back_what_was_saved_witness :
  let good := Storage.mkBrowser (Some "not json"%string) false (λ _, true) 0 in
  let full := Storage.mkBrowser (Some "not json"%string) false (λ _, false) 0 in
  let l := [recJan; recJun] in
  (Storage.reliable good
   ∧ Storage.loadMemories Storage.fromText
       (Storage.saveMemories Storage.toText l good) = l)
  ∧ (Storage.quota full (Storage.toText l) = false
     ∧ Storage.item (Storage.saveMemories Storage.toText l full) = Some "not json"%string
     ∧ Storage.warnings (Storage.saveMemories Storage.toText l full) = 1%nat)
  ∧ (Storage.fromText "not json" = None
     ∧ Storage.loadMemories Storage.fromText good = []).
Proof.
  intros good full l.
  pose proof (loadMemories_reads_back_what_was_saved Storage.fromText Storage.toText
                StorageFacts.fromText_toText StorageFacts.toText_nonempty) as H.
  assert (Hr : Storage.reliable good) by (split; [reflexivity|intros; reflexivity]).
  assert (Hp : Storage.fromText "not json" = None) by reflexivity.
  split; [|split].
  - split; [exact Hr|]. exact (proj1 (proj1 (H good l) Hr)).
  - split; [reflexivity|].
    destruct (proj1 (proj2 (H full l)) (or_intror eq_refl)) as (Hi & Hw & _).
    split; [exact Hi|exact Hw].
  - split; [exact Hp|].
    apply (proj2 (proj2 (H good l))). do 3 right. exists "not json"%string. by split.
Defined.

(** X8. [addMemory] returns the stored list with the new record at its
    end whether or not the write went through.  On a browser that takes
    the write the next [loadMemories] returns that list; when the write
    is refused the stored list is unchanged, so the record it returned
    is not there to load; with storage disabled it returns the new
    record alone. *)
Theorem addMemory_appends_to_what_is_stored :
  ∀ (JSON_parse : string → option (list Memory))
    (JSON_stringify : list Memory → string),
    (∀ l, JSON_parse (JSON_stringify l) = Some l) →
    (∀ l, JSON_stringify l ≠ ""%string) →
    ∀ memory b,
      let existing := Storage.loadMemories JSON_parse b in
      let out := Storage.addMemory JSON_parse JSON_stringify memory b in
      out.1 = existing ++ [memory]
      ∧ (Storage.reliable b →
           Storage.loadMemories JSON_parse out.2 = existing ++ [memory])
      ∧ (Storage.denied b = true
         ∨ Storage.quota b (JSON_stringify (existing ++ [memory])) = false →
           Storage.loadMemories JSON_parse out.2 = existing
           ∧ Storage.item out.2 = Storage.item b)
      ∧ (Storage.denied b = true → out.1 = [memory]).
Proof.
  intros JSON_parse JSON_stringify Hrt Hne memory b existing out.
  split; [done|]. split; [|split].
  - intros Hr. by apply StorageFacts.load_after_save.
  - intros Href.
    destruct (StorageFacts.save_refused JSON_parse JSON_stringify _ b Href) as [Hw Hl].
    unfold out, Storage.addMemory. cbn [snd]. fold existing. rewrite Hl, Hw. done.
  - intros Hd. unfold out, existing, Storage.addMemory, Storage.loadMemories.
    by rewrite Hd.
Qed.

Lemma addMemory_appends_to_what_is_stored_witness :
  let good := Storage.mkBrowser None false (λ _, true) 0 in
  let full := Storage.mkBrowser None false (λ _, false) 0 in
  let off := Storage.mkBrowser None true (λ _, true) 0 in
  let add := Storage.addMemory Storage.fromText Storage.toText in
  (Storage.reliable good
   ∧ (add recJan good).1 = [recJan]
   ∧ Storage.loadMemories Storage.fromText (add recJan good).2 = [recJan])
  ∧ (Storage.quota full (Storage.toText [recJan]) = false
     ∧ (add recJan full).1 = [recJan]
     ∧ Storage.loadMemories Storage.fromText (add recJan full).2 = [])
  ∧ (Storage.denied off = true ∧ (add recJan off).1 = [recJan]).
Proof.
  intros good full off add.
  pose proof (addMemory_appends_to_what_is_stored Storage.fromText Storage.toText
                StorageFacts.fromText_toText StorageFacts.toText_nonempty recJan) as H.
  assert (Hr : Storage.reliable good) by (split; [reflexivity|intros; reflexivity]).
  split; [|split].
  - destruct (H good) as (H1 & H2 & _). split; [exact Hr|]. split; [exact H1|exact (H2 Hr)].
  - destruct (H full) as (H1 & _ & H3 & _). split; [reflexivity|]. split; [exact H1|].
    exact (proj1 (H3 (or_intror eq_refl))).
  - destruct (H off) as (_ & _ & _ & H4). split; [reflexivity|exact (H4 eq_refl)].
Defined.

(** X9. [deleteMemory] returns the stored records whose id differs from
    the one given, in their stored order: every record with that id is
    gone, every other record stays, and an id nobody has changes
    nothing.  On a browser that takes the write the result is what is
    stored afterwards, deleting twice is deleting once, and deleting a
    record just added under an id not in use gives back the list from
    before. *)
Theorem deleteMemory_removes_every_record_of_the_id :
  ∀ (JSON_parse : string → option (list Memory))
    (JSON_stringify : list Memory → string),
    (∀ l, JSON_parse (JSON_stringify l) = Some l) →
    (∀ l, JSON_stringify l ≠ ""%string) →
    ∀ i b,
      let existing := Storage.loadMemories JSON_parse b in
      let del := Storage.deleteMemory JSON_parse JSON_stringify in
      (del i b).1 = filter (λ m, id m ≠ i) existing
      ∧ (∀ m, m ∈ (del i b).1 ↔ m ∈ existing ∧ id m ≠ i)
      ∧ ((∀ m, m ∈ existing → id m ≠ i) → (del i b).1 = existing)
      ∧ (Storage.reliable b →
           Storage.loadMemories JSON_parse (del i b).2 = (del i b).1
           ∧ del i (del i b).2 = del i b
           ∧ ∀ memory, id memory = i → (∀ m, m ∈ existing → id m ≠ i) →
               (del i (Storage.addMemory JSON_parse JSON_stringify memory b).2).1
               = existing).
Proof.
  intros JSON_parse JSON_stringify Hrt Hne i b existing del.
  split; [done|]. split; [|split].
  - intros m. unfold del, Storage.deleteMemory. cbn [fst]. fold existing.
    rewrite list_elem_of_filter. tauto.
  - intros Habs. by apply StorageFacts.filter_id_absent.
  - intros Hr.
    assert (Hl : Storage.loadMemories JSON_parse (del i b).2 = (del i b).1).
    { unfold del, Storage.deleteMemory. cbn [fst snd].
      by apply (StorageFacts.load_after_save JSON_parse JSON_stringify Hrt Hne). }
    split; [exact Hl|]. split.
    + unfold del at 1. unfold Storage.deleteMemory. rewrite Hl.
      unfold del, Storage.deleteMemory. cbn [fst snd]. fold existing.
      rewrite StorageFacts.filter_id_twice. f_equal.
      by apply StorageFacts.save_twice.
    + intros memory Hid Habs.
      unfold del, Storage.deleteMemory, Storage.addMemory. cbn [fst snd].
      rewrite (StorageFacts.load_after_save JSON_parse JSON_stringify Hrt Hne) by done.
      fold existing.
      rewrite filter_app, StorageFacts.filter_id_absent by done.
      rewrite filter_cons_False by (intros H; by apply H).
      by rewrite filter_nil, app_nil_r.
Qed.

Lemma deleteMemory_removes_every_record_of_the_id_witness :
  let good := Storage.mkBrowser None false (λ _, true) 0 in
  let b := Storage.saveMemories Storage.toText [recJan; recJun; recJan] good in
  let del := Storage.deleteMemory Storage.fromText Storage.toText in
  Storage.reliable b
  ∧ Storage.loadMemories Storage.fromText b = [recJan; recJun; recJan]
  ∧ (del "a"%string b).1
    = filter (λ m, id m ≠ "a"%string) (Storage.loadMemories Storage.fromText b)
  ∧ Storage.loadMemories Storage.fromText (del "a"%string b).2 = (del "a"%string b).1
  ∧ del "a"%string (del "a"%string b).2 = del "a"%string b.
Proof.
  intros good b del.
  pose proof (deleteMemory_removes_every_record_of_the_id Storage.fromText Storage.toText
                StorageFacts.fromText_toText StorageFacts.toText_nonempty "a"%string b)
    as (H1 & _ & _ & H4).
  assert (Hr : Storage.reliable b) by (split; [reflexivity|intros; reflexivity]).
  assert (Hg : Storage.reliable good) by (split; [reflexivity|intros; reflexivity]).
  destruct (H4 Hr) as (H5 & H6 & _).
  split; [exact Hr|].
  split; [exact (StorageFacts.load_after_save Storage.fromText Storage.toText
                   StorageFacts.fromText_toText StorageFacts.toText_nonempty _ good Hg)|].
  split; [exact H1|]. split; [exact H5|exact H6].
Defined.

(** X10. On a browser that takes every write, after any sequence of pin
    clicks, submissions, deletions, resets and openings or closings of
    the modal and the overlay, the records [Home] shows are exactly
    those [loadMemories] would read, no handler has thrown, and an open
    overlay has at least one card: when the last record of the selected
    place is deleted the overlay is closed. *)
Theorem home_shows_what_is_stored :
  ∀ (JSON_parse : string → option (list Memory))
    (JSON_stringify : list Memory → string),
    (∀ l, JSON_parse (JSON_stringify l) = Some l) →
    (∀ l, JSON_stringify l ≠ ""%string) →
    ∀ b es, Storage.reliable b →
      let p := Home.run JSON_parse JSON_stringify es (Home.mount JSON_parse b) in
      Home.memories p = Storage.loadMemories JSON_parse (Home.browser p)
      ∧ Home.uncaught p = 0%nat
      ∧ ∀ Date_getTime,
          truthy (Home.selectedLocation p) = true →
          Overlay.drawn Date_getTime (Home.memories p) (Home.selectedLocation p) = true.
Proof.
  intros JSON_parse JSON_stringify Hrt Hne b es Hb p.
  destruct (HomeFacts.settled_run JSON_parse JSON_stringify Hrt Hne es _
              (HomeFacts.settled_mount JSON_parse b Hb)) as (_ & Hs & Hk & Hu).
  fold p in Hs, Hk, Hu.
  split; [exact Hs|]. split; [exact Hu|].
  intros Date_getTime Ht. specialize (Hk Ht).
  unfold Overlay.drawn, Overlay.locationMemories. rewrite Ht. simpl.
  apply Z.ltb_lt.
  pose proof (SorterFacts.sorted_perm Date_getTime
                (filter (λ m, locationKey m = default ""%string (Home.selectedLocation p))
                        (Home.memories p))) as Hp.
  unfold sortChronologically in Hp. rewrite (Permutation_length Hp).
  destruct (filter _ (Home.memories p)); [done|]. simpl. lia.
Qed.

Lemma home_shows_what_is_stored_witness :
  let b := Storage.mkBrowser None false (λ _, true) 0 in
  let es := [Home.OpenModal; Home.Submit recJan; Home.Submit recJun;
             Home.PinClick "sentosa"; Home.Delete "b"; Home.PinClick "marina-bay";
             Home.Reset true] in
  let p := Home.run Storage.fromText Storage.toText es (Home.mount Storage.fromText b) in
  Storage.reliable b
  ∧ Home.memories p = Storage.loadMemories Storage.fromText (Home.browser p)
  ∧ Home.uncaught p = 0%nat
  ∧ ∀ Date_getTime,
      truthy (Home.selectedLocation p) = true →
      Overlay.drawn Date_getTime (Home.memories p) (Home.selectedLocation p) = true.
Proof.
  intros b es p.
  assert (Hr : Storage.reliable b) by (split; [reflexivity|intros; reflexivity]).
  split; [exact Hr|].
  exact (home_shows_what_is_stored Storage.fromText Storage.toText
           StorageFacts.fromText_toText StorageFacts.toText_nonempty b es Hr).
Defined.

(** X11. [handleAddMemory] shows what [addMemory] returns, and that is
    built from what is stored, not from what is on the page.  So while
    the browser refuses writes a second submission shows the stored
    records and the second record only: the first one is gone from the
    page.  With storage disabled the page holds the latest record alone,
    and a confirmed reset throws out of [handleReset] before it changes
    anything. *)
Theorem home_forgets_what_was_not_saved :
  ∀ (JSON_parse : string → option (list Memory))
    (JSON_stringify : list Memory → string) p m1 m2,
    (∀ text, Storage.quota (Home.browser p) text = false)
    ∨ Storage.denied (Home.browser p) = true →
    let p1 := Home.handleAddMemory JSON_parse JSON_stringify m1 p in
    let p2 := Home.handleAddMemory JSON_parse JSON_stringify m2 p1 in
    let stored := Storage.loadMemories JSON_parse (Home.browser p) in
    Home.memories p1 = stored ++ [m1]
    ∧ Home.memories p2 = stored ++ [m2]
    ∧ Storage.item (Home.browser p2) = Storage.item (Home.browser p)
    ∧ (Storage.denied (Home.browser p) = true →
         Home.memories p2 = [m2]
         ∧ Home.memories (Home.handleReset true p2) = [m2]
         ∧ Home.uncaught (Home.handleReset true p2) = S (Home.uncaught p2)).
Proof.
  intros JSON_parse JSON_stringify p m1 m2 Href p1 p2 stored.
  assert (Hsave : ∀ l, Storage.saveMemories JSON_stringify l (Home.browser p)
                       = Storage.warn (Home.browser p)).
  { intros l. unfold Storage.saveMemories.
    destruct Href as [Hq| ->]; [|done]. rewrite Hq. by rewrite orb_true_r. }
  assert (Hb1 : Home.browser p1 = Storage.warn (Home.browser p)).
  { change (Home.browser p1)
      with (Storage.saveMemories JSON_stringify
              (Storage.loadMemories JSON_parse (Home.browser p) ++ [m1]) (Home.browser p)).
    apply Hsave. }
  assert (Hsave1 : ∀ l, Storage.saveMemories JSON_stringify l (Home.browser p1)
                        = Storage.warn (Home.browser p1)).
  { intros l. rewrite Hb1. unfold Storage.saveMemories. cbn.
    destruct Href as [Hq| ->]; [|done]. rewrite Hq. by rewrite orb_true_r. }
  assert (Hl1 : Storage.loadMemories JSON_parse (Home.browser p1) = stored).
  { by rewrite Hb1. }
  assert (Hm2 : Home.memories p2 = stored ++ [m2]).
  { change (Home.memories p2)
      with (Storage.loadMemories JSON_parse (Home.browser p1) ++ [m2]).
    by rewrite Hl1. }
  assert (Hb2 : Home.browser p2 = Storage.warn (Home.browser p1)).
  { change (Home.browser p2)
      with (Storage.saveMemories JSON_stringify
              (Storage.loadMemories JSON_parse (Home.browser p1) ++ [m2]) (Home.browser p1)).
    apply Hsave1. }
  split; [done|]. split; [exact Hm2|]. split; [by rewrite Hb2, Hb1|].
  intros Hd.
  assert (Hs : stored = []) by (unfold stored, Storage.loadMemories; by rewrite Hd).
  rewrite Hs in Hm2. split; [exact Hm2|].
  assert (Hd2 : Storage.denied (Home.browser p2) = true) by (by rewrite Hb2, Hb1).
  unfold Home.handleReset, Storage.clearAllMemories. cbn [negb].
  rewrite Hd2. by split.
Qed.

Lemma home_forgets_what_was_not_saved_witness :
  let off := Storage.mkBrowser None true (λ _, true) 0 in
  let p := Home.mount Storage.fromText off in
  let p1 := Home.handleAddMemory Storage.fromText Storage.toText recJan p in
  let p2 := Home.handleAddMemory Storage.fromText Storage.toText recJun p1 in
  Storage.denied (Home.browser p) = true
  ∧ Home.memories p1 = [recJan]
  ∧ Home.memories p2 = [recJun]
  ∧ Home.uncaught (Home.handleReset true p2) = 1%nat.
Proof.
  intros off p p1 p2.
  destruct (home_forgets_what_was_not_saved Storage.fromText Storage.toText p recJan
              recJun (or_intror eq_refl)) as (H1 & _ & _ & H4).
  destruct (H4 eq_refl) as (H5 & _ & H7).
  split; [reflexivity|]. split; [exact H1|]. split; [exact H5|exact H7].
Defined.

(** X12. [locationGroups] throws if and only if some record's
    [locationKey] is a name that plain objects inherit ([constructor],
    [toString], [__proto__], ...).  Otherwise it has a group exactly for
    the keys some record carries; the group of a key holds the records
    of that key in their order in [memories], and its coordinates are
    those of the first of them. *)
Theorem locationGroups_collects_by_place :
  ∀ ms,
    (Forall (λ m, locationKey m ∉ MapView.inherited) ms →
       ∃ groups, MapView.locationGroups ms = Some groups
         ∧ (∀ k, groups !! k = None ↔ filter (λ m, locationKey m = k) ms = [])
         ∧ ∀ k g, groups !! k = Some g →
             MapView.memories g = filter (λ m, locationKey m = k) ms
             ∧ ∃ first, head (MapView.memories g) = Some first
                        ∧ MapView.lat g = lat first ∧ MapView.lng g = lng first)
    ∧ (Exists (λ m, locationKey m ∈ MapView.inherited) ms →
         MapView.locationGroups ms = None).
Proof.
  intros ms. split; [|apply MapViewFacts.locationGroups_throws].
  intros Hok. destruct (MapViewFacts.locationGroups_spec ms Hok) as (groups & Hg & Hk).
  exists groups. split; [done|]. split.
  - intros k. rewrite Hk. apply HomeFacts.groupOf_None.
  - intros k g. rewrite Hk. apply HomeFacts.groupOf_Some.
Qed.

Lemma locationGroups_collects_by_place_witness :
  let ms := [recJan; recJun; recJan] in
  let odd := mkMemory "x" 1 None "constructor" 0 0 "" "" in
  Forall (λ m, locationKey m ∉ MapView.inherited) ms
  ∧ (∃ groups, MapView.locationGroups ms = Some groups
       ∧ groups !! "marina-bay"%string
         = Some (MapView.mkGroup [recJan; recJan] (lat recJan) (lng recJan))
       ∧ groups !! "orchard"%string = None)
  ∧ Exists (λ m, locationKey m ∈ MapView.inherited) [recJan; odd]
  ∧ MapView.locationGroups [recJan; odd] = None.
Proof.
  intros ms odd.
  assert (Hok : Forall (λ m, locationKey m ∉ MapView.inherited) ms).
  { repeat constructor; apply (bool_decide_unpack _); by vm_compute. }
  assert (Hbad : Exists (λ m, locationKey m ∈ MapView.inherited) [recJan; odd]).
  { right. left. apply (bool_decide_unpack _). by vm_compute. }
  destruct (locationGroups_collects_by_place ms) as [Hgood _].
  destruct (Hgood Hok) as (groups & Hg & Hnone & Hsome).
  split; [exact Hok|]. split.
  - exists groups. split; [exact Hg|]. split.
    + destruct (groups !! "marina-bay"%string) as [g|] eqn:E.
      * destruct (Hsome _ g E) as (Hm & first & Hf & Hla & Hln).
        destruct g as [gm gla gln]. simpl in *. subst gm.
        change (Some recJan = Some first) in Hf. injection Hf as <-. by subst.
      * apply Hnone in E. discriminate E.
    + by apply Hnone.
  - split; [exact Hbad|].
    exact (proj2 (locationGroups_collects_by_place [recJan; odd]) Hbad).
Defined.

(** X13. The overlay of a pin shows the records of the pin's group, as
    many cards as the pin counts, so the overlay of a drawn pin with a
    non-empty key is never empty; on records whose dates resolve the
    cards come in the order the timeline gives the same records.  For
    the empty key and for no key nothing is shown. *)
Theorem overlay_shows_the_pins_records :
  ∀ Date_getTime ms,
    (∀ groups k g,
       MapView.locationGroups ms = Some groups → groups !! k = Some g →
       k ≠ ""%string →
       let cards := Overlay.locationMemories Date_getTime ms (Some k) in
       Overlay.drawn Date_getTime ms (Some k) = true
       ∧ cards ≡ₚ MapView.memories g
       ∧ Z.of_nat (length cards) = MapView.count g
       ∧ (Forall (λ m, is_Some (effectiveTimestamp Date_getTime m)) ms →
            cards = filter (λ m, locationKey m = k)
                      (sortChronologically Date_getTime ms)))
    ∧ Overlay.locationMemories Date_getTime ms (Some ""%string) = []
    ∧ Overlay.locationMemories Date_getTime ms None = []
    ∧ Overlay.drawn Date_getTime ms (Some ""%string) = false.
Proof.
  intros Date_getTime ms. split; [|done].
  intros groups k g Hg Hk Hne cards.
  rewrite (HomeFacts.groups_of_drawn ms groups k Hg) in Hk.
  apply HomeFacts.groupOf_Some in Hk as [Hm (first & Hf & _)].
  assert (Ht : truthy (Some k) = true).
  { simpl. by destruct (String.eqb_spec k "") as [->|_]. }
  assert (Hc : cards = sortChronologically Date_getTime (MapView.memories g)).
  { unfold cards, Overlay.locationMemories. rewrite Ht, Hm. done. }
  pose proof (SorterFacts.sorted_perm Date_getTime (MapView.memories g)) as Hp.
  rewrite <- Hc in Hp.
  assert (Hlen : Z.of_nat (length cards) = MapView.count g).
  { unfold MapView.count. by rewrite (Permutation_length Hp). }
  split.
  - unfold Overlay.drawn. rewrite Ht. fold cards. simpl. apply Z.ltb_lt.
    rewrite Hlen. unfold MapView.count.
    destruct (MapView.memories g); [done|]. simpl. lia.
  - split; [exact Hp|]. split; [exact Hlen|].
    intros Hok. rewrite Hc, Hm. by apply OverlayFacts.sort_filter_comm.
Qed.

Lemma overlay_shows_the_pins_records_witness :
  let ms := [recJan; recJun; recDec; mkMemory "d" 5 None "sentosa" 0 0 "" ""] in
  ∃ groups g,
    MapView.locationGroups ms = Some groups
    ∧ groups !! "sentosa"%string = Some g
    ∧ Overlay.drawn isoDate_getTime ms (Some "sentosa"%string) = true
    ∧ Z.of_nat (length (Overlay.locationMemories isoDate_getTime ms (Some "sentosa"%string)))
      = MapView.count g
    ∧ Overlay.locationMemories isoDate_getTime ms (Some "sentosa"%string)
      = filter (λ m, locationKey m = "sentosa"%string)
          (sortChronologically isoDate_getTime ms).
Proof.
  intros ms.
  assert (Hok : Forall (λ m, locationKey m ∉ MapView.inherited) ms).
  { repeat constructor; apply (bool_decide_unpack _); by vm_compute. }
  destruct (MapViewFacts.locationGroups_spec ms Hok) as (groups & Hg & Hk).
  assert (Hs : groups !! "sentosa"%string
               = Some (MapView.mkGroup [recJun; mkMemory "d" 5 None "sentosa" 0 0 "" ""]
                         (lat recJun) (lng recJun))).
  { rewrite Hk. reflexivity. }
  assert (Hres : Forall (λ m, is_Some (effectiveTimestamp isoDate_getTime m)) ms).
  { repeat constructor; eexists; vm_compute; reflexivity. }
  destruct (proj1 (overlay_shows_the_pins_records isoDate_getTime ms) groups
              "sentosa"%string _ Hg Hs ltac:(discriminate)) as (Hd & _ & Hl & Hf).
  eexists _, _. split; [exact Hg|]. split; [exact Hs|].
  split; [exact Hd|]. split; [exact Hl|exact (Hf Hres)].
Defined.

(** X14. A share link does not carry the records themselves: decoding
    what [encodeMemoriesToHash] made gives, record by record, the
    lightweight copies, with the same id, creation time, place,
    coordinates and caption, with no [memoryDate], and with an image of
    at most 203 characters.  When [encodeURIComponent] throws the hash
    is the empty string. *)
Theorem share_link_carries_lightweight_copies :
  ∀ (JSON_stringify : list Memory → string)
    (JSON_parse : string → option (option (list Memory)))
    (encodeURIComponent decodeURIComponent btoa atob : string → option string),
    (∀ l, JSON_parse (JSON_stringify l) = Some (Some l)) →
    (∀ s e, encodeURIComponent s = Some e →
            decodeURIComponent e = Some s ∧ is_Some (btoa e)) →
    (∀ s h, btoa s = Some h → atob h = Some s) →
    ∀ ms,
      let hash := Share.encodeMemoriesToHash JSON_stringify encodeURIComponent btoa ms in
      let json := JSON_stringify (map Share.lightweight ms) in
      (is_Some (encodeURIComponent json) →
         Share.decodeMemoriesFromHash JSON_parse decodeURIComponent atob hash
         = Some (map Share.lightweight ms))
      ∧ (encodeURIComponent json = None → hash = ""%string)
      ∧ ∀ i m, ms !! i = Some m →
          ∃ m', map Share.lightweight ms !! i = Some m'
            ∧ id m' = id m ∧ createdAt m' = createdAt m
            ∧ locationKey m' = locationKey m ∧ lat m' = lat m ∧ lng m' = lng m
            ∧ caption m' = caption m
            ∧ memoryDate m' = None
            ∧ (String.length (imageDataUrl m') ≤ 203)%nat.
Proof.
  intros JSON_stringify JSON_parse encodeURIComponent decodeURIComponent btoa atob
    Hjson Huri Hb64 ms hash json.
  split; [|split].
  - intros [e He]. unfold hash, Share.encodeMemoriesToHash. fold json. rewrite He.
    destruct (Huri json e He) as [Hd [h Hh]]. rewrite Hh. simpl.
    unfold Share.decodeMemoriesFromHash.
    rewrite (Hb64 e h Hh), Hd. unfold json. by rewrite Hjson.
  - intros He. unfold hash, Share.encodeMemoriesToHash. fold json. by rewrite He.
  - intros i m Hm. exists (Share.lightweight m).
    split; [by rewrite list_lookup_fmap, Hm|].
    repeat split; try done. simpl.
    rewrite ShareFacts.append_length.
    pose proof (ShareFacts.substring_length 200 (imageDataUrl m)). simpl. lia.
Qed.

Lemma share_link_carries_lightweight_copies_witness :
  let stringify := Storage.toText in
  let parse := λ s, Some (Storage.fromText s) in
  let same := λ s : string, Some s in
  let ms := [recJan; recJun] in
  let hash := Share.encodeMemoriesToHash stringify same same ms in
  is_Some (same (stringify (map Share.lightweight ms)))
  ∧ Share.decodeMemoriesFromHash parse same same hash = Some (map Share.lightweight ms)
  ∧ map memoryDate (map Share.lightweight ms) = [None; None]
  ∧ map memoryDate ms = [Some "2024-01-01"; Some "2024-06-15"]%string.
Proof.
  intros stringify parse same ms hash.
  assert (Hjson : ∀ l, parse (stringify l) = Some (Some l)).
  { intros l. unfold parse, stringify. by rewrite StorageFacts.fromText_toText. }
  assert (Huri : ∀ s e, same s = Some e → same e = Some s ∧ is_Some (same e)).
  { intros s e [= ->]. split; [done|by eexists]. }
  assert (Hb64 : ∀ s h, same s = Some h → same h = Some s).
  { by intros s h [= ->]. }
  assert (He : is_Some (same (stringify (map Share.lightweight ms)))) by (by eexists).
  split; [exact He|].
  split; [|by split].
  exact (proj1 (share_link_carries_lightweight_copies stringify parse same same same same
                  Hjson Huri Hb64 ms) He).
Defined.

(** X15. Records that came through a share link have lost their
    [memoryDate], so their effective timestamp is their creation time
    whatever the host's [Date] does: the timeline of a shared map is in
    order of creation, not in the order of the dates the sender gave. *)
Theorem shared_timeline_is_in_order_of_creation :
  ∀ Date_getTime ms,
    let shared := sortChronologically Date_getTime (map Share.lightweight ms) in
    shared ≡ₚ map Share.lightweight ms
    ∧ Forall (λ m, effectiveTimestamp Date_getTime m = Some (createdAt m)) shared
    ∧ ∀ i j a b, (i < j)%nat → shared !! i = Some a → shared !! j = Some b →
                 createdAt a ≤ createdAt b.
Proof.
  intros Date_getTime ms shared.
  pose proof (SorterFacts.sorted_perm Date_getTime (map Share.lightweight ms)) as Hp.
  fold shared in Hp.
  assert (Hts : Forall (λ m, effectiveTimestamp Date_getTime m = Some (createdAt m))
                  (map Share.lightweight ms)).
  { apply Forall_forall. intros m [m0 [-> _]]%list_elem_of_fmap. done. }
  assert (Hts' : Forall (λ m, effectiveTimestamp Date_getTime m = Some (createdAt m)) shared)
    by (by rewrite Hp).
  split; [exact Hp|]. split; [exact Hts'|].
  intros i j a b Hij Ha Hb.
  assert (Hok : Forall (λ m, is_Some (effectiveTimestamp Date_getTime m))
                  (map Share.lightweight ms)).
  { eapply Forall_impl; [exact Hts|]. intros m ->. by eexists. }
  pose proof (SorterFacts.sorted_sorted Date_getTime _ Hok) as Hs.
  destruct (SorterFacts.StronglySorted_lookup_le _ _ i j a b Hs Hij Ha Hb)
    as (ta & tb & Hta & Htb & Hle).
  rewrite Forall_forall in Hts'.
  rewrite (Hts' a) in Hta by (by eapply list_elem_of_lookup_2).
  rewrite (Hts' b) in Htb by (by eapply list_elem_of_lookup_2).
  congruence.
Qed.

Lemma shared_timeline_is_in_order_of_creation_witness :
  let ms := [recJan; recJun; recDec] in
  let shared := sortChronologically isoDate_getTime (map Share.lightweight ms) in
  sortChronologically isoDate_getTime ms = [recDec; recJan; recJun]
  ∧ shared = map Share.lightweight [recDec; recJun; recJan]
  ∧ ∀ i j a b, (i < j)%nat → shared !! i = Some a → shared !! j = Some b →
               createdAt a ≤ createdAt b.
Proof.
  intros ms shared.
  split; [vm_compute; reflexivity|]. split; [vm_compute; reflexivity|].
  exact (proj2 (proj2 (shared_timeline_is_in_order_of_creation isoDate_getTime ms))).
Defined.

(** X16. When [handleSubmit] calls [onSubmit], the record it passes is
    at a location of the picker, with that location's key and
    coordinates, which lie inside the bounds the map is locked to; its
    key is no name that makes [locationGroups] throw, and
    [getLocationName] shows the location's name for it.  Its caption is
    the trimmed caption of the form, not empty, with no white space
    left at either end; its photos are the photos of the form, at least
    one, the first of them in [imageDataUrl]; an empty date field gives
    no [memoryDate].  The form is reset.  Nothing is passed exactly when
    there is no photo, the caption is blank, or the key is not one of
    the picker. *)
Theorem handleSubmit_makes_a_record_of_the_picker :
  ∀ newId now today f,
    let out := AddMemory.handleSubmit newId now today f in
    (out.1 = None ↔
       AddMemory.photos f = [] ∨ AddMemory.trim (AddMemory.caption f) = ""%string
       ∨ Locations.findLocation (AddMemory.locationKey f) = None)
    ∧ ∀ memory, out.1 = Some memory →
        let r := Photos.record memory in
        (∃ location,
           location ∈ Locations.SG_LOCATIONS
           ∧ locationKey r = Locations.key location
           ∧ locationKey r = AddMemory.locationKey f
           ∧ lat r = Locations.lat location ∧ lng r = Locations.lng location
           ∧ Locations.getLocationName (locationKey r) = Locations.name location)
        ∧ AddMemory.inBounds (lat r) (lng r) = true
        ∧ (locationKey r ∉ MapView.inherited)
        ∧ (caption r = AddMemory.trim (AddMemory.caption f)
           ∧ caption r ≠ ""%string ∧ AddMemory.trim (caption r) = caption r)
        ∧ (Photos.getMemoryImages memory = AddMemory.photos f
           ∧ head (AddMemory.photos f) = Some (imageDataUrl r))
        ∧ (id r = newId ∧ createdAt r = now)
        ∧ memoryDate r = (if String.eqb (AddMemory.memoryDate f) "" then None
                          else Some (AddMemory.memoryDate f))
        ∧ out.2 = AddMemory.reset today f.
Proof. exact AddMemoryFacts.handleSubmit_spec. Qed.

Lemma handleSubmit_makes_a_record_of_the_picker_witness :
  let f := AddMemory.run
             [AddMemory.ImageChosen; AddMemory.ImageCompressed "data:1";
              AddMemory.TypeCaption "  first date  "; AddMemory.ChooseLocation "sentosa"]
             (AddMemory.initial "2024-02-14") in
  let out := AddMemory.handleSubmit "n1" 1707900000000 "2024-02-15" f in
  let memory := Photos.mkPhotos
                  (mkMemory "n1" 1707900000000 (Some "2024-02-14"%string) "sentosa"
                     1249400 103830300 "first date" "data:1")
                  (Some ["data:1"%string]) in
  out.1 = Some memory
  ∧ Locations.getLocationName (locationKey (Photos.record memory)) = "Sentosa"%string
  ∧ AddMemory.inBounds (lat (Photos.record memory)) (lng (Photos.record memory)) = true
  ∧ out.2 = AddMemory.initial "2024-02-15".
Proof.
  intros f out memory.
  assert (Ho : out.1 = Some memory) by (vm_compute; reflexivity).
  destruct (proj2 (handleSubmit_makes_a_record_of_the_picker "n1" 1707900000000
                     "2024-02-15" f) memory Ho)
    as ((location & _ & _ & _ & _ & _ & Hn) & Hb & _ & _ & _ & _ & _ & Hr).
  split; [exact Ho|].
  split; [vm_compute; reflexivity|]. split; [exact Hb|].
  fold out in Hr. rewrite Hr. vm_compute. reflexivity.
Defined.

(** X17. Whatever is done to the form (photos chosen, compressed or
    removed, typing, submitting, closing, late resets), it never holds
    more than [MAX_PHOTOS] photos nor more than 80 characters of
    caption; so a record it submits has between one and three photos
    and a caption of at most 80 characters. *)
Theorem form_never_exceeds_its_limits :
  ∀ today es,
    let f := AddMemory.run es (AddMemory.initial today) in
    Z.of_nat (length (AddMemory.photos f)) ≤ AddMemory.MAX_PHOTOS
    ∧ (String.length (AddMemory.caption f) ≤ 80)%nat
    ∧ ∀ newId now today' memory,
        (AddMemory.handleSubmit newId now today' f).1 = Some memory →
        1 ≤ Z.of_nat (length (Photos.getMemoryImages memory)) ≤ AddMemory.MAX_PHOTOS
        ∧ (String.length (caption (Photos.record memory)) ≤ 80)%nat.
Proof.
  intros today es f.
  destruct (AddMemoryFacts.bounded_run es _ (AddMemoryFacts.bounded_initial today))
    as [Hp Hc].
  fold f in Hp, Hc. split; [exact Hp|]. split; [exact Hc|].
  intros newId now today' memory Hs.
  destruct (proj2 (AddMemoryFacts.handleSubmit_spec newId now today' f)
              memory Hs) as (_ & _ & _ & (Hcap & _) & (Hi & Hh) & _).
  rewrite Hi, Hcap. split.
  - split; [|exact Hp]. destruct (AddMemory.photos f); [done|]. simpl. lia.
  - pose proof (AddMemoryFacts.trim_length (AddMemory.caption f)). lia.
Qed.

Lemma form_never_exceeds_its_limits_witness :
  let es := [AddMemory.ImageChosen; AddMemory.ImageCompressed "data:1";
             AddMemory.ImageChosen; AddMemory.ImageCompressed "data:2";
             AddMemory.ImageChosen; AddMemory.ImageCompressed "data:3";
             AddMemory.ImageChosen; AddMemory.ImageCompressed "data:4";
             AddMemory.TypeCaption "our place"; AddMemory.ChooseLocation "sentosa"] in
  let f := AddMemory.run es (AddMemory.initial "2024-02-14") in
  let out := AddMemory.handleSubmit "n1" 1707900000000 "2024-02-15" f in
  ∃ memory,
    out.1 = Some memory
    ∧ 1 ≤ Z.of_nat (length (Photos.getMemoryImages memory)) ≤ AddMemory.MAX_PHOTOS
    ∧ (String.length (caption (Photos.record memory)) ≤ 80)%nat.
Proof.
  intros es f out.
  destruct out.1 as [memory|] eqn:Ho; [|vm_compute in Ho; discriminate].
  exists memory. split; [reflexivity|].
  destruct (form_never_exceeds_its_limits "2024-02-14" es) as (_ & _ & H).
  exact (H "n1" 1707900000000 "2024-02-15"%string memory Ho).
Defined.

(** X18. While the [memories] prop stays the same, whatever the user,
    the timers, the animation frames and the map do, [currentIndex] is
    [-1] or an index of the timeline, and it is [-1] exactly as long as
    the journey has not started.  So whenever the playback interface is
    drawn, the record handed to [TimelineCard],
    [sortedMemories[currentIndex]], is a record of the timeline. *)
Theorem playback_index_stays_on_the_timeline :
  ∀ date ms map a es,
    Forall Engine.sameMemories es →
    let w := run es (mount date ms map a) in
    -1 ≤ currentIndex (st w) ≤ len w - 1
    ∧ isStarted (st w) = (0 <=? currentIndex (st w))
    ∧ (Engine.playbackShown w = true →
       ∃ m, Engine.cardMemory w = Some m ∧ m ∈ sortedMemories w).
Proof.
  intros date ms map a es Hes w.
  destruct (EngineFacts.sound_run es _ Hes (EngineFacts.sound_mount date ms map a))
    as (_ & _ & [[Hrange Hflag] _]).
  fold w in Hrange, Hflag.
  split; [done|]. split; [done|].
  unfold Engine.playbackShown, Engine.cardMemory.
  intros [_ H0%Z.leb_le]%andb_true_iff.
  destruct (PlaybackFacts.at_index_in_range (sortedMemories w) (currentIndex (st w)))
    as [m Hm].
  { unfold len in Hrange. lia. }
  exists m. split; [done|].
  unfold at_index in Hm. destruct (_ <? _); [done|].
  by apply list_elem_of_lookup_2 in Hm.
Qed.

Lemma playback_index_stays_on_the_timeline_witness :
  let es := [Click StartButton; KeyDown ArrowRight; MoveEnd; TimeoutFires 3;
             AnimationFrame 0; AnimationFrame 5000; Click SkipButton;
             KeyDown ArrowRight; KeyDown ArrowLeft] in
  let w := run es demoWorld in
  Forall Engine.sameMemories es
  ∧ currentIndex (st w) = 1
  ∧ Engine.playbackShown w = true
  ∧ ∃ m, Engine.cardMemory w = Some m ∧ m ∈ sortedMemories w.
Proof.
  intros es w.
  assert (Hes : Forall Engine.sameMemories es) by (repeat constructor).
  assert (Hshown : Engine.playbackShown w = true) by (vm_compute; reflexivity).
  split; [exact Hes|]. split; [vm_compute; reflexivity|]. split; [exact Hshown|].
  destruct (playback_index_stays_on_the_timeline isoDate_getTime [recJan; recJun; recDec]
              true (Audio.initial true) es Hes) as (_ & _ & H).
  exact (H Hshown).
Defined.

(** X19. With a map and the same [memories], the animator of a mounted
    component has at most one callback pending.  While [isTransitioning]
    is false it has none: no [moveend] listener, no animation frame, no
    travel pause.  While it is true, the index is that of a record with a
    successor, the cancellation flag is down, and exactly one of the three
    is pending: the listener for the arrival of the camera, or the 400 ms
    pause, or the next frame of [animate]. *)
Theorem animator_runs_one_segment_at_a_time :
  ∀ date ms a es,
    Forall Engine.sameMemories es →
    let w := run es (mount date ms true a) in
    mounted w = true →
    (isTransitioning (st w) = false →
       moveend w = [] ∧ rafs w = ∅ ∧ noPause w)
    ∧ (isTransitioning (st w) = true →
       0 ≤ currentIndex (st w) < len w - 1 ∧ cancelRef w = false
       ∧ ((∃ sid, moveend w = [sid] ∧ rafs w = ∅ ∧ noPause w)
          ∨ (∃ sid tp, moveend w = [] ∧ rafs w = ∅
                       ∧ timeouts w !! tp = Some (TravelPause sid)
                       ∧ noPause (set_timeouts (delete tp (timeouts w)) w))
          ∨ (∃ sid r, moveend w = [] ∧ rafs w = {[r := sid]} ∧ noPause w))).
Proof.
  intros date ms a es Hes w Hm.
  destruct (EngineFacts.sound_run es _ Hes (EngineFacts.sound_mount date ms true a))
    as (_ & _ & [_ Hph]).
  fold w in Hph. destruct (Hph Hm) as [Hc Hp].
  assert (Hmap : hasMap w = true).
  { unfold w. by rewrite EngineFacts.hasMap_run, EngineFacts.hasMap_mount. }
  rewrite Hmap in Hp.
  split.
  - intros Htr. destruct (EngineFacts.phase_resting w Hp Htr) as (i & dn & Harr).
    by destruct Harr as (_ & _ & _ & _ & _ & ? & ? & ? & _).
  - intros Htr. split; [by apply EngineFacts.phase_moving|]. split; [done|].
    destruct Hp as [(i & dn & H)|[(sid & i & dn & H)|[(sid & tp & i & dn & H)
                   |(sid & start & i & dn & H)]]].
    + destruct H as (_ & _ & H & _). congruence.
    + left. exists sid. by destruct H as (_ & ? & ? & ?).
    + right; left. exists sid, tp. by destruct H as (_ & ? & ? & ? & ?).
    + right; right. destruct H as (_ & ? & (r & ?) & ?). by exists sid, r.
Qed.

Lemma animator_runs_one_segment_at_a_time_witness :
  let es := [Click StartButton; KeyDown ArrowRight; MoveEnd] in
  let w := run es demoWorld in
  Forall Engine.sameMemories es ∧ mounted w = true
  ∧ isTransitioning (st w) = true
  ∧ 0 ≤ currentIndex (st w) < len w - 1 ∧ cancelRef w = false.
Proof.
  intros es w.
  assert (Hes : Forall Engine.sameMemories es) by (repeat constructor).
  assert (Hm : mounted w = true) by (vm_compute; reflexivity).
  assert (Htr : isTransitioning (st w) = true) by (vm_compute; reflexivity).
  split; [exact Hes|]. split; [exact Hm|]. split; [exact Htr|].
  destruct (animator_runs_one_segment_at_a_time isoDate_getTime [recJan; recJun; recDec]
              (Audio.initial true) es Hes Hm) as [_ H].
  destruct (H Htr) as (Hrange & Hc & _). split; [exact Hrange|exact Hc].
Defined.

(** X20. The skip button, wherever the render offers it: the index
    becomes that of the last record, autoplay is switched off and no
    autoplay timer stays pending, so the closing caption is drawn; the
    card shows the last record of the timeline, and the commit that
    follows cannot throw. *)
Theorem skip_goes_to_the_last_record :
  ∀ date ms map a es,
    let w := run es (mount date ms map a) in
    offered SkipButton w = true →
    let w' := step (Click SkipButton) w in
    mounted w' = true
    ∧ st w' = setIsAutoPlaying false (setCurrentIndex (len w - 1) (st w))
    ∧ noAutoplayTimer w'
    ∧ Engine.theEnd w' = true
    ∧ ∃ m, Engine.cardMemory w' = Some m ∧ last (sortedMemories w) = Some m.
Proof.
  intros date ms map a es w Hoff w'.
  assert (Hcur : timersCurrent w').
  { apply PlaybackFacts.step_current, PlaybackFacts.run_current,
      PlaybackFacts.mount_current. }
  unfold w' in *. cbn [step] in *. rewrite Hoff in *. clear w'.
  unfold offered in Hoff.
  apply andb_true_iff in Hoff as [Hoff Hc]. apply andb_true_iff in Hoff as [Hm Hlen].
  apply andb_true_iff in Hc as [Hc Htr]. apply negb_true_iff in Htr, Hlen.
  apply Z.eqb_neq in Hlen.
  cbn [onClick] in *.
  pose proof (EngineFacts.st_skipToEnd w Hm) as Hst. rewrite Htr in Hst.
  pose proof (EngineFacts.calm_skipToEnd w) as (Hm1 & _ & Hs1 & _).
  set (v := handle skipToEnd w) in *.
  assert (Hstv : st v = setIsAutoPlaying false (setCurrentIndex (len w - 1) (st w))).
  { unfold v. by rewrite PlaybackFacts.handle_st. }
  assert (Hsv : sortedMemories v = sortedMemories w).
  { unfold v, handle. etrans; [apply PlaybackFacts.sameRender_commit|done]. }
  assert (Hlv : len v = len w) by (unfold len; by rewrite Hsv).
  split.
  { unfold v, handle. rewrite EngineFacts.commit_resting; [congruence|].
    by rewrite Hst. }
  split; [done|]. split.
  { intros t i l tr Ht. destruct Hcur as [_ Hs].
    destruct (Hs t i l tr Ht) as (_ & _ & _ & _ & _ & _ & _ & Hau & _).
    rewrite Hstv in Hau. done. }
  split.
  { unfold Engine.theEnd. rewrite Hlv, Hstv. simpl. by rewrite Z.leb_refl, Htr. }
  unfold Engine.cardMemory. rewrite Hsv, Hstv. simpl.
  assert (Hpos : 0 < len w) by (unfold len in *; lia).
  destruct (PlaybackFacts.at_index_in_range (sortedMemories w) (len w - 1)) as [m Hmm].
  { unfold len. unfold len in Hpos. lia. }
  exists m. split; [done|]. rewrite last_lookup. unfold at_index in Hmm.
  destruct (_ <? _); [done|]. rewrite <- Hmm. f_equal. unfold len. lia.
Qed.

Lemma skip_goes_to_the_last_record_witness :
  let es := [Click StartButton; Click PlayPauseButton; Click PlayPauseButton] in
  let w := run es demoWorld in
  let w' := step (Click SkipButton) w in
  offered SkipButton w = true
  ∧ ¬ noAutoplayTimer w
  ∧ st w' = mkPlayback 2 false true true false
  ∧ noAutoplayTimer w'
  ∧ Engine.cardMemory w' = Some recJun.
Proof.
  intros es w w'.
  assert (Hoff : offered SkipButton w = true) by (vm_compute; reflexivity).
  destruct (skip_goes_to_the_last_record isoDate_getTime [recJan; recJun; recDec]
              true (Audio.initial true) es Hoff) as (_ & Hst & Hno & _ & (m & Hm & Hl)).
  split; [exact Hoff|]. split.
  { intros H. apply (H 2%positive 0 3 false). vm_compute. reflexivity. }
  split; [exact Hst|]. split; [exact Hno|].
  transitivity (Some m); [exact Hm|]. rewrite <- Hl. vm_compute. reflexivity.
Defined.



(** X22. The keydown listener is registered from the mount on.  On the
    intro screen, with a map and at least one record, ArrowRight or Space
    sets [isTransitioning] while the index is still [-1]: the path effect
    then reads [sortedMemories[-1]], which is [undefined], and throws.
    The component goes down with an error nobody catches. *)
Theorem next_key_on_the_intro_screen_takes_the_component_down :
  ∀ date ms a es k,
    Forall Engine.sameMemories es →
    let w := run es (mount date ms true a) in
    mounted w = true → isStarted (st w) = false → 0 < len w →
    Engine.nextKey k = true →
    let w' := step (KeyDown k) w in
    mounted w' = false
    ∧ trace w' = trace w ++ [UncaughtError]
    ∧ st w' = setIsTransitioning true (st w)
    ∧ currentIndex (st w') = -1.
Proof.
  intros date ms a es k Hes w Hm Hs Hlen Hk w'.
  destruct (EngineFacts.sound_run es _ Hes (EngineFacts.sound_mount date ms true a))
    as (_ & _ & [[Hrange Hflag] Hph]).
  fold w in Hrange, Hflag, Hph. destruct (Hph Hm) as [_ Hp].
  assert (Hmap : hasMap w = true).
  { unfold w. by rewrite EngineFacts.hasMap_run, EngineFacts.hasMap_mount. }
  rewrite Hmap in Hp.
  assert (Hi : currentIndex (st w) = -1).
  { rewrite Hs in Hflag. symmetry in Hflag. apply Z.leb_gt in Hflag. lia. }
  assert (Htr : isTransitioning (st w) = false).
  { destruct (isTransitioning (st w)) eqn:E; [|done].
    pose proof (EngineFacts.phase_moving w Hp E). lia. }
  assert (E : w' = step (KeyDown ArrowRight) w) by (by destruct k).
  rewrite E.
  destruct (EngineFacts.next_before_start w Hm Hmap Htr Hi Hlen) as (H1 & H2 & H3).
  split; [done|]. split; [done|]. split; [done|]. by rewrite H2.
Qed.

Lemma next_key_on_the_intro_screen_takes_the_component_down_witness :
  let es := [KeyDown OtherKey; MoveEnd; AnimationFrame 16] in
  let w := run es demoWorld in
  let w' := step (KeyDown Space) w in
  mounted w = true ∧ mounted w' = false
  ∧ trace w' = trace w ++ [UncaughtError].
Proof.
  intros es w w'.
  assert (Hes : Forall Engine.sameMemories es) by (repeat constructor).
  assert (Hm : mounted w = true) by (vm_compute; reflexivity).
  assert (Hs : isStarted (st w) = false) by (vm_compute; reflexivity).
  assert (Hl : 0 < len w) by (vm_compute; reflexivity).
  destruct (next_key_on_the_intro_screen_takes_the_component_down isoDate_getTime
              [recJan; recJun; recDec] (Audio.initial true) es Space Hes Hm Hs Hl eq_refl)
    as (H1 & H2 & _).
  split; [exact Hm|]. split; [exact H1|exact H2].
Defined.

(** X23. Autoplay walks the whole timeline.  After the start button,
    on a map, let the host play segment after segment (the 4 s timer
    fires, the camera arrives, the 400 ms pause ends, a frame runs at the
    start and one [ANIM_DURATION] later): after [k] segments the component
    rests at index [k], [k] completion signals were delivered, and the
    timer of the next segment is pending.  At the last record the timer
    fires once more, switches autoplay off and schedules nothing: the
    closing caption is drawn. *)
Theorem autoplay_walks_the_whole_timeline :
  ∀ date ms a t0 k,
    (k < length ms)%nat →
    let w0 := step (Click StartButton) (mount date ms true a) in
    let w := Engine.playSegments k t0 w0 in
    mounted w = true
    ∧ currentIndex (st w) = Z.of_nat k
    ∧ isTransitioning (st w) = false
    ∧ length (completions (trace w)) = k
    ∧ (∃ t, autoPlayTimerRef w = Some t ∧ is_Some (timeouts w !! t))
    ∧ (S k = length ms →
       let w' := Engine.fireAutoplay w in
       currentIndex (st w') = Z.of_nat k
       ∧ isAutoPlaying (st w') = false
       ∧ Engine.theEnd w' = true
       ∧ noAutoplayTimer w').
Proof.
  intros date ms a t0 k Hk w0 w.
  assert (Hne : ms ≠ []) by (intros ->; simpl in Hk; lia).
  pose proof (EngineFacts.start_cruises date ms a Hne) as Hc0. fold w0 in Hc0.
  assert (Hl0 : len w0 = Z.of_nat (length ms)).
  { pose proof Hc0 as ((Hm0 & _) & _). unfold w0. cbn [step].
    destruct (offered StartButton _).
    - unfold handle. rewrite PlaybackFacts.commit_len.
      rewrite (EngineFacts.calm_len _ _ (EngineFacts.calm_startJourney _)).
      unfold mount, len. simpl. by rewrite EngineFacts.sortChronologically_length.
    - unfold mount, len. simpl. by rewrite EngineFacts.sortChronologically_length. }
  destruct (EngineFacts.cruise_segments k t0 0 [] w0 Hc0) as (Hl & dn & Hc & Hn); [lia|].
  fold w in Hl, Hc. simpl in Hc.
  pose proof Hc as ((Hm & _ & Htr & Hi & _ & _ & _ & _ & Hdone) & Hcur
                    & (t & i' & l & tr & Ht)).
  split; [done|]. split; [done|]. split; [done|]. split; [by rewrite Hdone|].
  split.
  { destruct (proj2 Hcur t i' l tr Ht) as (_ & _ & Href & _). exists t. split; [done|].
    by eexists. }
  intros Hlast w'.
  destruct (EngineFacts.cruise_end _ _ w Hc) as (Hs & Hl' & Hno); [lia|]. fold w' in Hs, Hl', Hno.
  split; [by rewrite Hs|]. split; [by rewrite Hs|]. split; [|done].
  unfold Engine.theEnd. rewrite Hs, Hl'. simpl. rewrite Htr, Hi.
  rewrite (proj2 (Z.leb_le _ _)) by lia. done.
Qed.

Lemma autoplay_walks_the_whole_timeline_witness :
  let w0 := step (Click StartButton) demoWorld in
  let w := Engine.playSegments 2 1000 w0 in
  let w' := Engine.fireAutoplay w in
  (2 < length [recJan; recJun; recDec])%nat
  ∧ currentIndex (st w) = 2
  ∧ completions (trace w) = [2; 7]%positive
  ∧ isAutoPlaying (st w') = false ∧ Engine.theEnd w' = true.
Proof.
  intros w0 w w'.
  assert (Hk : (2 < length [recJan; recJun; recDec])%nat) by (simpl; lia).
  destruct (autoplay_walks_the_whole_timeline isoDate_getTime [recJan; recJun; recDec]
              (Audio.initial true) 1000 2 Hk) as (_ & Hi & _ & _ & _ & Hend).
  destruct (Hend eq_refl) as (_ & Hau & Hthe & _).
  split; [exact Hk|]. split; [exact Hi|].
  split; [vm_compute; reflexivity|]. split; [exact Hau|exact Hthe].
Defined.
